(** * ivy: the value model, the binary operators and the line parser

  A shallow embedding of the Go packages [config], [value] and [parse]
  of the ivy calculator, and the properties of its specification that
  were checked against it.

  Go integers of type [int64] are integers in [Z] with the wrap-around
  written out ([wrap64]); a [*big.Int] that is never written through
  after its construction is the integer it holds; a [*big.Rat] is a
  location in a store of rationals, because exponentiation writes
  through the pointers returned by [Num] and [Denom]; a panic is the
  [Panic] result of a state monad whose state survives the panic. *)

From Stdlib Require Import Ascii String ZArith QArith Qreduction Qcanon Lia.
From stdpp Require Import base option list strings gmap.

Set Default Proof Using "Type".
Set Warnings "-register-all".

(** ** Package [config] *)

Module config.

Record Config := {
  format : string;
  ratFormat : string;
  origin : Z;
  debug : gmap string bool;
}.

Definition Format (c : Config) : string :=
  if String.eqb (format c) "" then "%v" else format c.

Definition RatFormat (c : Config) : string :=
  if String.eqb (ratFormat c) "" then "%v/%v" else ratFormat c.

Definition SetFormat (s : string) (c : Config) : Config :=
  {| format := s; ratFormat := s +:+ "/" +:+ s;
     origin := origin c; debug := debug c |}.

(** Reading a Go map at a missing key gives the zero value, [false]. *)
Definition Debug (s : string) (c : Config) : bool :=
  default false (debug c !! s).

Definition SetDebug (s : string) (state : bool) (c : Config) : Config :=
  {| format := format c; ratFormat := ratFormat c;
     origin := origin c; debug := <[s := state]> (debug c) |}.

Definition Origin (c : Config) : Z := origin c.

Definition SetOrigin (o : Z) (c : Config) : Config :=
  {| format := format c; ratFormat := ratFormat c;
     origin := o; debug := debug c |}.

End config.

(** ** Package [value] *)

Module value.

Local Open Scope Z_scope.

(** Modelled from the spec: the four ranks (section 3: SmallInt 0,
    BigInt 1, BigRational 2, Vector 3); the declaration of [valueType]
    is not in the source files at hand, which compare its values with
    [<] and [>] and index the tables of the operators by them. *)
Inductive valueType := intType | bigIntType | bigRatType | vectorType.

Definition rank (t : valueType) : Z :=
  match t with
  | intType => 0 | bigIntType => 1 | bigRatType => 2 | vectorType => 3
  end.

#[global] Instance valueType_eq_dec : EqDecision valueType.
Proof. solve_decision. Defined.

(** Locations of [big.Rat] cells. *)
Abbreviation loc := nat (only parsing).

(** Modelled from the spec: the four variants of a value (section 3).
    [Vector] is declared in vector.go; the source reads an [Int] as
    [u.(Int).x], a BigInt as [i.x] of type [*big.Int] and a BigRat as
    [r.x] of type [*big.Rat]. *)
Inductive Value :=
| Int (x : Z)
| BigInt (x : Z)
| BigRat (x : loc)
| Vector (x : list Value).

(** What a panic or a returned error carries. The Go code formats
    strings; the embedding keeps the kind and the formatted
    arguments. *)
Inductive ParseMsg :=
| quoted (text : string)                       (* "%q" *)
| unexpected_quoted (text : string)            (* "unexpected %q" *)
| unexpected_after_expression (text : string)  (* "unexpected %s after expression" *)
| expected_right_paren (text : string)         (* "expected right paren, found %s" *)
| expected_right_bracket (text : string)       (* "expected right bracket, found %s" *)
| undefined (name : string)                    (* "%s undefined" *)
| unexpected (text : string)                   (* "unexpected %s" *)
| bad_number (text : string) (err : Error)     (* "%s: %s" *)

with Error :=
| division_by_zero
| modulo_by_zero
| negative_exponent_not_implemented
| zero_denominator_in_rational
| illegal_shift_count (x : Z)
| illegal_shift_count_type
| length_mismatch (left right : nat)
| binary_not_implemented (op : string)
| binary_not_implemented_on_type (op : string) (t : valueType)
| bad_conversion (what : string)       (* panic("vector to big int") and the like *)
| bad_rat                              (* panic("bad rat") *)
| type_assertion                       (* a failed x.(T) *)
| nil_dereference
| syntax_error (text : string)         (* the error of a literal parser *)
| located (file : string) (line : Z) (msg : ParseMsg).

(** Results, and a state monad in which a panic keeps the state. [Timeout]
    is the result of a recursion of the embedding that ran out of fuel;
    [Binary_total], [ValueString_noTimeout] and [errorf_panics] below
    show where it cannot occur. *)
Inductive Res (A : Type) :=
| Ok (a : A)
| Panic (e : Error)
| Timeout.
Arguments Ok {A} a.
Arguments Panic {A} e.
Arguments Timeout {A}.

(** [M S A]: a computation over the state [S]. *)
Definition M (S A : Type) := S -> Res A * S.

Definition ret {S A} (a : A) : M S A := fun s => (Ok a, s).
Definition panic {S A} (e : Error) : M S A := fun s => (Panic e, s).
Definition timeout {S A} : M S A := fun s => (Timeout, s).
Definition bind {S A B} (m : M S A) (k : A -> M S B) : M S B :=
  fun s => match m s with
           | (Ok a, s') => k a s'
           | (Panic e, s') => (Panic e, s')
           | (Timeout, s') => (Timeout, s')
           end.
Definition gets {S A} (f : S -> A) : M S A := fun s => (Ok (f s), s).
Definition modify {S} (f : S -> S) : M S unit := fun s => (Ok tt, f s).

Declare Scope go_scope.
Delimit Scope go_scope with go.
Notation "x <- c ;; k" := (bind c (fun x => k))
  (at level 100, c at next level, right associativity) : go_scope.
Notation "c ;; k" := (bind c (fun _ => k))
  (at level 100, right associativity) : go_scope.
Local Open Scope go_scope.

(** A Go [for range] loop that fills a fresh slice, left to right. *)
Fixpoint mapM {S A B} (f : A -> M S B) (l : list A) : M S (list B) :=
  match l with
  | [] => ret []
  | a :: l' => b <- f a ;; bs <- mapM f l' ;; ret (b :: bs)
  end.

(** ** The store of [big.Rat] cells *)

Abbreviation Heap := (list Q) (only parsing).
Definition HM := M Heap.

Definition newRat (q : Q) : HM loc := fun h => (Ok (length h), h ++ [q]).

Definition load (l : loc) : HM Q := fun h =>
  match h !! l with
  | Some q => (Ok q, h)
  | None => (Panic nil_dereference, h)
  end.

Definition store (l : loc) (q : Q) : HM unit := fun h =>
  match h !! l with
  | Some _ => (Ok tt, <[l := q]> h)
  | None => (Panic nil_dereference, h)
  end.

(** ** math/big, by its documentation *)

(** The rational [a/b] in lowest terms with a positive denominator
    ([big.NewRat], [Rat.SetFrac]; the callers exclude [b = 0]). *)
Definition mkRat (a b : Z) : Q :=
  Qred (Qmake (a * Z.sgn b) (Z.to_pos (Z.abs b))).

Definition ratAdd (x y : Q) : Q := Qred (Qplus x y).
Definition ratSub (x y : Q) : Q := Qred (Qminus x y).
Definition ratMul (x y : Q) : Q := Qred (Qmult x y).
Definition ratQuo (x y : Q) : Q := Qred (Qdiv x y).
Definition ratSign (x : Q) : Z := Z.sgn (Qnum x).
Definition ratIsInt (x : Q) : bool := Pos.eqb (Qden x) 1.

(** [Int.Exp(x, y, nil)]: [x**y], and 1 when [y <= 0]. *)
Definition bigExp (x y : Z) : Z := if y <=? 0 then 1 else x ^ y.
(** [Int.Quo] and [Int.Rem] truncate; [Int.Div] and [Int.Mod] are Euclidean. *)
Definition bigQuo (x y : Z) : Z := Z.quot x y.
Definition bigRem (x y : Z) : Z := Z.rem x y.
Definition bigMod (x y : Z) : Z := x mod Z.abs y.
Definition bigDiv (x y : Z) : Z := Z.sgn y * (x / Z.abs y).

(** A [*big.Int] that points into a [big.Rat]: the result of [Num] or
    [Denom], a reference to the field and not a copy. *)
Inductive IntRef := Num (x : loc) | Denom (x : loc).

Definition readInt (r : IntRef) : HM Z :=
  match r with
  | Num l => q <- load l ;; ret (Qnum q)
  | Denom l => q <- load l ;; ret (Zpos (Qden q))
  end.

Definition writeInt (r : IntRef) (z : Z) : HM unit :=
  match r with
  | Num l => q <- load l ;; store l (Qmake z (Qden q))
  | Denom l => q <- load l ;; store l (Qmake (Qnum q) (Z.to_pos z))
  end.

(** [z.Exp(x, y, nil)] on references. *)
Definition Exp (z x y : IntRef) : HM unit :=
  a <- readInt x ;; b <- readInt y ;; writeInt z (bigExp a b).

(** [z.SetFrac(a, b)]. *)
Definition SetFrac (z : loc) (a b : IntRef) : HM unit :=
  n <- readInt a ;; d <- readInt b ;;
  if d =? 0 then panic division_by_zero else store z (mkRat n d).

(** ** Native integers *)

(** Modelled from the spec: the bounds of the native integer ("must fit
    in the platform's native signed integer range"); their declaration
    is not in the source files at hand, which carry an [int64] in an
    [Int]. *)
Definition intBits : Z := 64.
Definition minInt : Z := - 2 ^ (intBits - 1).
Definition maxInt : Z := 2 ^ (intBits - 1) - 1.

(** Two's complement wrap-around of [int64] arithmetic. *)
Definition wrap64 (z : Z) : Z := (z + 2 ^ 63) mod 2 ^ 64 - 2 ^ 63.

(** [valueInt64] is not in the source files at hand; it is taken for
    the constructor, as [bigInt64] is for BigInt. *)
Definition valueInt64 (x : Z) : Value := Int x.
Definition bigInt64 (x : Z) : Value := BigInt x.

Definition bigRatTwoInt64s (x y : Z) : HM Value :=
  if y =? 0 then panic zero_denominator_in_rational
  else l <- newRat (mkRat x y) ;; ret (BigRat l).

Definition bigRatInt64 (x : Z) : HM Value := bigRatTwoInt64s x 1.

Definition zero := valueInt64 0.
Definition one := valueInt64 1.
Definition minusOne := valueInt64 (-1).
Definition bigZero := bigInt64 0.
Definition bigOne := bigInt64 1.
Definition bigMinusOne := bigInt64 (-1).

(** ** Ranks, conversion and shrinking *)

(** Modelled from the spec: [whichType], the rank of a value; it is
    not in the source files at hand. *)
Definition whichType (v : Value) : valueType :=
  match v with
  | Int _ => intType
  | BigInt _ => bigIntType
  | BigRat _ => bigRatType
  | Vector _ => vectorType
  end.

(** Modelled from the spec: [shrink] of a BigInt, which is not in the
    source files at hand ("a BigInt that fits the native integer range
    becomes a SmallInt"). *)
Definition BigInt_shrink (x : Z) : Value :=
  if (minInt <=? x) && (x <=? maxInt) then Int x else BigInt x.

(** Modelled from the spec: [shrink] of a BigRat, which is not in the
    source files at hand ("a BigRational with denominator 1 becomes a
    BigInt/SmallInt"). *)
Definition BigRat_shrink (l : loc) : HM Value :=
  q <- load l ;;
  if ratIsInt q then ret (BigInt_shrink (Qnum q)) else ret (BigRat l).

(** Modelled from the spec: [shrink] of any value, "the canonicalization
    step": a BigInt and a BigRat as above; a native integer has no
    lower rank; a vector is returned as it is, its elements being
    results of [Binary] themselves. *)
Definition shrink (v : Value) : HM Value :=
  match v with
  | Int _ => ret v
  | BigInt x => ret (BigInt_shrink x)
  | BigRat l => BigRat_shrink l
  | Vector _ => ret v
  end.

(** Modelled from the spec: [ToType] of the three scalars, which is not
    in the source files at hand ("promotes a value to a requested rank";
    narrowing is "a programming-contract violation (an error naming the
    attempted conversion)"). Promotion to the vector rank gives the
    one-element vector that [binaryVectorOp] broadcasts. A BigRat asked
    for its own rank is returned as it is, the same pointer. The
    [Vector] case is [Vector.ToType] of vector.go. *)
Definition ToType (v : Value) (which : valueType) : HM Value :=
  match v, which with
  | Int x, intType => ret v
  | Int x, bigIntType => ret (bigInt64 x)
  | Int x, bigRatType => bigRatInt64 x
  | Int x, vectorType => ret (Vector [v])
  | BigInt x, intType => panic (bad_conversion "big int to int")
  | BigInt x, bigIntType => ret v
  | BigInt x, bigRatType => l <- newRat (mkRat x 1) ;; ret (BigRat l)
  | BigInt x, vectorType => ret (Vector [v])
  | BigRat l, intType => panic (bad_conversion "big rat to int")
  | BigRat l, bigIntType => panic (bad_conversion "big rat to big int")
  | BigRat l, bigRatType => ret v
  | BigRat l, vectorType => ret (Vector [v])
  | Vector _, intType => panic (bad_conversion "bigint to int")
  | Vector _, bigIntType => panic (bad_conversion "vector to big int")
  | Vector _, bigRatType => panic (bad_conversion "vector to big rat")
  | Vector _, vectorType => ret v
  end.

Definition Len (v : list Value) : nat := length v.

Definition sameLength (v x : list Value) : HM unit :=
  if decide (Len v = Len x) then ret tt
  else panic (length_mismatch (Len v) (Len x)).

Definition ValueSlice (elem : list Value) : Value := Vector elem.

(** ** Binary operators *)

(** [binaryArithType] returns the maximum of the two types. *)
Definition binaryArithType (t1 t2 : valueType) : valueType :=
  if rank t1 >? rank t2 then t1 else t2.

(** [divType] is like [binaryArithType] but never returns smaller than
    BigInt. *)
Definition divType (t1 t2 : valueType) : valueType :=
  let t1 := if decide (t1 = intType) then bigIntType else t1 in
  binaryArithType t1 t2.

(** [rationalType] promotes scalars to rationals. *)
Definition rationalType (t1 t2 : valueType) : valueType :=
  let t1 := if rank t1 <? rank bigRatType then bigRatType else t1 in
  binaryArithType t1 t2.

(** Type assertions [x.(T)]: a panic on any other dynamic type. *)
Definition asInt (v : Value) : HM Z :=
  match v with Int x => ret x | _ => panic type_assertion end.
Definition asBigInt (v : Value) : HM Z :=
  match v with BigInt x => ret x | _ => panic type_assertion end.
Definition asBigRat (v : Value) : HM loc :=
  match v with BigRat l => ret l | _ => panic type_assertion end.
Definition asVector (v : Value) : HM (list Value) :=
  match v with Vector x => ret x | _ => panic type_assertion end.

(** [shiftCount] converts x to an unsigned integer. *)
Definition shiftCount (x : Value) : HM Z :=
  let ofInt (c : Z) : HM Z :=
    if (c <? 0) || (c >=? maxInt) then panic (illegal_shift_count c)
    else ret c in
  match x with
  | Int c => ofInt c
  | BigInt c =>
      match BigInt_shrink c with
      | Int r => ofInt r
      | _ => panic illegal_shift_count_type
      end
  | _ => panic illegal_shift_count_type
  end.

(** The recursive call of [Binary] that a vector operator makes. The
    operators are values of a table that [Binary] reads, and
    [binaryVectorOp] calls [Binary] by the operator's name, so the
    table's functions take [Binary] as their first argument. *)
Definition BinaryFn := Value -> string -> Value -> HM Value.

(** [binaryVectorOp] applies op elementwise to i and j. *)
Definition binaryVectorOp (Binary : BinaryFn) (i : Value) (op : string) (j : Value)
  : HM Value :=
  u <- asVector i ;; v <- asVector j ;;
  match u with
  | [u0] =>
      n <- mapM (fun vk => Binary u0 op vk) v ;;
      ret (ValueSlice n)
  | _ =>
      match v with
      | [v0] =>
          n <- mapM (fun uk => Binary uk op v0) u ;;
          ret (ValueSlice n)
      | _ =>
          sameLength u v ;;
          n <- mapM (fun uv => Binary (fst uv) op (snd uv)) (zip u v) ;;
          ret (ValueSlice n)
      end
  end.

Definition binaryBigIntOp (u : Value) (op : Z -> Z -> Z) (v : Value) : HM Value :=
  i <- asBigInt u ;; j <- asBigInt v ;;
  ret (BigInt_shrink (op i j)).

Definition binaryBigRatOp (u : Value) (op : Q -> Q -> Q) (v : Value) : HM Value :=
  i <- asBigRat u ;; j <- asBigRat v ;;
  z <- bigRatInt64 0 ;;
  zx <- asBigRat z ;;
  x <- load i ;; y <- load j ;;
  store zx (op x y) ;;
  BigRat_shrink zx.

(** [bigIntPow] is the "op" for pow on [*big.Int]. *)
Definition bigIntPow (j k : Z) : Z := bigExp j k.

(** [toInt] turns the boolean into 0 or 1. *)
Definition toInt (t : bool) : Value := if t then one else zero.

(** The declarations of [binaryFn] and [binaryOp] are not in the source
    files at hand; the fields are those of the literals of the table: a
    rule [whichType], here [op_whichType], and an array [fn] indexed by
    rank, here [op_fn], whose missing entries are nil. *)
Definition binaryFn := BinaryFn -> Value -> Value -> HM Value.

Record binaryOp := {
  op_whichType : valueType -> valueType -> valueType;
  op_fn : valueType -> option binaryFn;
}.

(** The shapes the closures of the table share: the two operands
    asserted to the rank of the entry, then the body. *)
Definition onInts (f : Z -> Z -> HM Value) : binaryFn :=
  fun _ u v => x <- asInt u ;; y <- asInt v ;; f x y.
Definition onBigInts (f : Z -> Z -> HM Value) : binaryFn :=
  fun _ u v => i <- asBigInt u ;; j <- asBigInt v ;; f i j.
Definition onBigRats (f : Q -> Q -> HM Value) : binaryFn :=
  fun _ u v =>
    i <- asBigRat u ;; j <- asBigRat v ;;
    x <- load i ;; y <- load j ;; f x y.
Definition onVectors (op : string) : binaryFn :=
  fun Binary u v => binaryVectorOp Binary u op v.

(** [i.x.Cmp(j.x)] as an integer. *)
Definition cmpZ (i j : Z) : Z :=
  match i ?= j with Lt => -1 | Eq => 0 | Gt => 1 end.
Definition cmpQ (i j : Q) : Z :=
  match Qcompare i j with Lt => -1 | Eq => 0 | Gt => 1 end.

(** The operators keep their Go names inside [ops]; [mod] is a keyword
    here and is [mod_]. *)
Module ops.

Definition add : binaryOp := {|
  op_whichType := binaryArithType;
  op_fn t := match t with
    | intType => Some (onInts (fun x y => ret (valueInt64 (wrap64 (x + y)))))
    | bigIntType => Some (fun _ u v => binaryBigIntOp u Z.add v)
    | bigRatType => Some (fun _ u v => binaryBigRatOp u ratAdd v)
    | vectorType => Some (onVectors "+")
    end |}.

Definition sub : binaryOp := {|
  op_whichType := binaryArithType;
  op_fn t := match t with
    | intType => Some (onInts (fun x y => ret (valueInt64 (wrap64 (x - y)))))
    | bigIntType => Some (fun _ u v => binaryBigIntOp u Z.sub v)
    | bigRatType => Some (fun _ u v => binaryBigRatOp u ratSub v)
    | vectorType => Some (onVectors "-")
    end |}.

Definition mul : binaryOp := {|
  op_whichType := binaryArithType;
  op_fn t := match t with
    | intType => Some (onInts (fun x y => ret (valueInt64 (wrap64 (x * y)))))
    | bigIntType => Some (fun _ u v => binaryBigIntOp u Z.mul v)
    | bigRatType => Some (fun _ u v => binaryBigRatOp u ratMul v)
    | vectorType => Some (onVectors "*")
    end |}.

(** Rational division. *)
Definition quo : binaryOp := {|
  op_whichType := rationalType;
  op_fn t := match t with
    | intType | bigIntType => None
    | bigRatType => Some (fun _ u v =>
        x <- asBigRat v ;; q <- load x ;;
        if ratSign q =? 0 then panic division_by_zero
        else binaryBigRatOp u ratQuo v)
    | vectorType => Some (onVectors "/")
    end |}.

Definition idiv : binaryOp := {|
  op_whichType := binaryArithType;
  op_fn t := match t with
    | intType => Some (fun _ u v =>
        y <- asInt v ;;
        if y =? 0 then panic division_by_zero
        else x <- asInt u ;; ret (valueInt64 (wrap64 (Z.quot x y))))
    | bigIntType => Some (fun _ u v =>
        x <- asBigInt v ;;
        if Z.sgn x =? 0 then panic division_by_zero
        else binaryBigIntOp u bigQuo v)
    | bigRatType => None
    | vectorType => Some (onVectors "idiv")
    end |}.

Definition imod : binaryOp := {|
  op_whichType := binaryArithType;
  op_fn t := match t with
    | intType => Some (fun _ u v =>
        y <- asInt v ;;
        if y =? 0 then panic modulo_by_zero
        else x <- asInt u ;; ret (valueInt64 (Z.rem x y)))
    | bigIntType => Some (fun _ u v =>
        x <- asBigInt v ;;
        if Z.sgn x =? 0 then panic modulo_by_zero
        else binaryBigIntOp u bigRem v)
    | bigRatType => None
    | vectorType => Some (onVectors "imod")
    end |}.

(** Euclidean integer division. *)
Definition div : binaryOp := {|
  op_whichType := divType;
  op_fn t := match t with
    | intType => None
    | bigIntType => Some (fun _ u v =>
        x <- asBigInt v ;;
        if Z.sgn x =? 0 then panic division_by_zero
        else binaryBigIntOp u bigDiv v)
    | bigRatType => None
    | vectorType => Some (onVectors "div")
    end |}.

(** Euclidean integer modulus. *)
Definition mod_ : binaryOp := {|
  op_whichType := divType;
  op_fn t := match t with
    | intType => None
    | bigIntType => Some (fun _ u v =>
        x <- asBigInt v ;;
        if Z.sgn x =? 0 then panic modulo_by_zero
        else binaryBigIntOp u bigMod v)
    | bigRatType => None
    | vectorType => Some (onVectors "mod")
    end |}.

Definition pow : binaryOp := {|
  op_whichType := divType;
  op_fn t := match t with
    | intType => None
    | bigIntType => Some (fun _ u v =>
        i <- asBigInt v ;;
        match Z.sgn i with
        | 0 => ret one
        | Zneg _ => panic negative_exponent_not_implemented
        | Zpos _ => binaryBigIntOp u bigIntPow v
        end)
    | bigRatType => Some (fun _ u v =>
        rexp <- asBigRat v ;;
        s <- load rexp ;;
        match ratSign s with
        | 0 => ret one
        | Zneg _ => panic negative_exponent_not_implemented
        | Zpos _ =>
            let exp := Num rexp in
            rat <- asBigRat u ;;
            let num := Num rat in
            let den := Denom rat in
            Exp num num exp ;;
            Exp den den exp ;;
            z <- bigRatInt64 0 ;;
            zx <- asBigRat z ;;
            SetFrac zx num den ;;
            ret z
        end)
    | vectorType => Some (onVectors "**")
    end |}.

Definition and : binaryOp := {|
  op_whichType := binaryArithType;
  op_fn t := match t with
    | intType => Some (onInts (fun x y => ret (valueInt64 (Z.land x y))))
    | bigIntType => Some (fun _ u v => binaryBigIntOp u Z.land v)
    | bigRatType => None
    | vectorType => Some (onVectors "&")
    end |}.

Definition or : binaryOp := {|
  op_whichType := binaryArithType;
  op_fn t := match t with
    | intType => Some (onInts (fun x y => ret (valueInt64 (Z.lor x y))))
    | bigIntType => Some (fun _ u v => binaryBigIntOp u Z.lor v)
    | bigRatType => None
    | vectorType => Some (onVectors "|")
    end |}.

Definition xor : binaryOp := {|
  op_whichType := binaryArithType;
  op_fn t := match t with
    | intType => Some (onInts (fun x y => ret (valueInt64 (Z.lxor x y))))
    | bigIntType => Some (fun _ u v => binaryBigIntOp u Z.lxor v)
    | bigRatType => None
    | vectorType => Some (onVectors "^")
    end |}.

Definition lsh : binaryOp := {|
  op_whichType := divType;
  op_fn t := match t with
    | intType => None
    | bigIntType => Some (onBigInts (fun i j =>
        c <- shiftCount (BigInt j) ;;
        ret (BigInt_shrink (Z.shiftl i c))))
    | bigRatType => None
    | vectorType => Some (onVectors "<<")
    end |}.

Definition rsh : binaryOp := {|
  op_whichType := divType;
  op_fn t := match t with
    | intType => None
    | bigIntType => Some (onBigInts (fun i j =>
        c <- shiftCount (BigInt j) ;;
        ret (BigInt_shrink (Z.shiftr i c))))
    | bigRatType => None
    | vectorType => Some (onVectors ">>")
    end |}.

(** The six comparisons differ in the test and in the name only. *)
Definition comparison (name : string) (test : Z -> bool) (int : Z -> Z -> bool)
  : binaryOp := {|
  op_whichType := binaryArithType;
  op_fn t := match t with
    | intType => Some (onInts (fun x y => ret (toInt (int x y))))
    | bigIntType => Some (onBigInts (fun i j => ret (toInt (test (cmpZ i j)))))
    | bigRatType => Some (onBigRats (fun i j => ret (toInt (test (cmpQ i j)))))
    | vectorType => Some (onVectors name)
    end |}.

Definition eq := comparison "==" (fun c => c =? 0) Z.eqb.
Definition ne := comparison "!=" (fun c => negb (c =? 0)) (fun x y => negb (x =? y)).
Definition lt := comparison "<" (fun c => c <? 0) Z.ltb.
Definition le := comparison "<=" (fun c => c <=? 0) Z.leb.
Definition gt := comparison ">" (fun c => c >? 0) Z.gtb.
Definition ge := comparison ">=" (fun c => c >=? 0) Z.geb.

Definition min : binaryOp := {|
  op_whichType := binaryArithType;
  op_fn t := match t with
    | intType => Some (fun _ u v =>
        i <- asInt u ;; j <- asInt v ;;
        if i <? j then ret u else ret v)
    | bigIntType => Some (fun _ u v =>
        i <- asBigInt u ;; j <- asBigInt v ;;
        if cmpZ i j <? 0 then ret u else ret v)
    | bigRatType => Some (fun _ u v =>
        i <- asBigRat u ;; j <- asBigRat v ;;
        x <- load i ;; y <- load j ;;
        if cmpQ x y <? 0 then ret u else ret v)
    | vectorType => Some (onVectors "min")
    end |}.

(** The vector entry of [max] names "min", as the source does. *)
Definition max : binaryOp := {|
  op_whichType := binaryArithType;
  op_fn t := match t with
    | intType => Some (fun _ u v =>
        i <- asInt u ;; j <- asInt v ;;
        if i >? j then ret u else ret v)
    | bigIntType => Some (fun _ u v =>
        i <- asBigInt u ;; j <- asBigInt v ;;
        if cmpZ i j >? 0 then ret u else ret v)
    | bigRatType => Some (fun _ u v =>
        i <- asBigRat u ;; j <- asBigRat v ;;
        x <- load i ;; y <- load j ;;
        if cmpQ x y >? 0 then ret u else ret v)
    | vectorType => Some (onVectors "min")
    end |}.

End ops.

(** The table [binaryOps], in the order of its literal. *)
Definition binaryOpsList : list (string * binaryOp) :=
  [ ("+", ops.add); ("-", ops.sub); ("*", ops.mul); ("/", ops.quo);
    ("idiv", ops.idiv); ("imod", ops.imod); ("div", ops.div);
    ("mod", ops.mod_); ("**", ops.pow); ("&", ops.and); ("|", ops.or);
    ("^", ops.xor); ("<<", ops.lsh); (">>", ops.rsh); ("==", ops.eq);
    ("!=", ops.ne); ("<", ops.lt); ("<=", ops.le); (">", ops.gt);
    (">=", ops.ge); ("min", ops.min); ("max", ops.max) ].

Definition binaryOps : gmap string binaryOp := list_to_map binaryOpsList.

(** Modelled from the spec: [Binary], which is not in the source files
    at hand (section 4.2). [Binary_dispatch] is steps 1 to 4: look the
    operator up, an unknown symbol fails; compute the target rank by
    the operator's rule; convert both operands to the target rank and
    call the table's entry for it, a missing entry fails. The vector
    entries of the table, which are in the source, receive both
    operands as vectors and call [Binary] again on the elements. *)
Definition Binary_dispatch (Binary : BinaryFn) (v1 : Value) (opName : string) (v2 : Value)
  : HM Value :=
  match binaryOps !! opName with
  | None => panic (binary_not_implemented opName)
  | Some op =>
      let which := op_whichType op (whichType v1) (whichType v2) in
      match op_fn op which with
      | None => panic (binary_not_implemented_on_type opName which)
      | Some fn =>
          a <- ToType v1 which ;; b <- ToType v2 which ;; fn Binary a b
      end
  end.

(** Modelled from the spec: step 5 of section 4.2, "the per-rank
    function returns a raw result which is then shrunk". *)
Definition Binary_body (Binary : BinaryFn) (v1 : Value) (opName : string) (v2 : Value)
  : HM Value :=
  r <- Binary_dispatch Binary v1 opName v2 ;; shrink r.

Fixpoint Binary_fuel (fuel : nat) (v1 : Value) (opName : string) (v2 : Value)
  : HM Value :=
  match fuel with
  | O => timeout
  | S fuel' => Binary_body (Binary_fuel fuel') v1 opName v2
  end.

(** How deep vectors nest in a value. *)
Fixpoint depth (v : Value) : nat :=
  match v with
  | Vector x => S (foldr (fun e d => Nat.max (depth e) d) O x)
  | _ => O
  end.

(** [Binary] recurses on the elements of its operands only, so the
    nesting depth bounds the recursion ([Binary_unfold] below). *)
Definition Binary (v1 : Value) (opName : string) (v2 : Value) : HM Value :=
  Binary_fuel (S (Nat.max (depth v1) (depth v2))) v1 opName v2.

(** ** Literals *)

(** A Go function that returns [(T, error)]. *)
Inductive OrErr (A : Type) :=
| Good (a : A)
| Bad (err : Error).
Arguments Good {A} a.
Arguments Bad {A} err.

(** [strings.ContainsRune]. *)
Fixpoint ContainsRune (s : string) (r : ascii) : bool :=
  match s with
  | EmptyString => false
  | String a s' => if Ascii.eqb a r then true else ContainsRune s' r
  end.

(** [strings.Split] at a separator of one character. *)
Fixpoint Split (s : string) (sep : ascii) : list string :=
  match s with
  | EmptyString => [EmptyString]
  | String a s' =>
      if Ascii.eqb a sep then EmptyString :: Split s' sep
      else match Split s' sep with
           | e :: elems => String a e :: elems
           | [] => [String a EmptyString]
           end
  end.

Section ValueString.

(** The three literal readers are not in the source files at hand;
    [ValueString] is stated over them. [SetBigRatString] gives the
    rational that the new [big.Rat] holds. *)
Variable SetIntString : string -> OrErr Z.
Variable SetBigIntString : string -> OrErr Z.
Variable SetBigRatString : string -> OrErr Q.

Definition ValueString_body (ValueString : string -> HM (OrErr Value)) (s : string)
  : HM (OrErr Value) :=
  (* Is it a rational? If so, it's tricky. *)
  if ContainsRune s "/"%char then
    match Split s "/"%char with
    | [elems0; elems1] =>
        r <- ValueString elems0 ;;
        match r with
        | Bad err => ret (Bad err)
        | Good num =>
            r <- ValueString elems1 ;;
            match r with
            | Bad err => ret (Bad err)
            | Good den =>
                match num, den with
                | Int n, Int d =>
                    (* Common simple case. *)
                    q <- bigRatTwoInt64s n d ;;
                    l <- asBigRat q ;;
                    x <- BigRat_shrink l ;;
                    ret (Good x)
                | _, _ =>
                    (* General mix-em-up. *)
                    rden <- ToType den bigRatType ;;
                    l <- asBigRat rden ;;
                    q <- load l ;;
                    if ratSign q =? 0 then panic zero_denominator_in_rational
                    else
                      rnum <- ToType num bigRatType ;;
                      x <- binaryBigRatOp rnum ratQuo rden ;;
                      ret (Good x)
                end
            end
        end
    | _ => panic bad_rat
    end
  else
    match SetIntString s with
    | Good i => ret (Good (Int i))
    | Bad _ =>
        match SetBigIntString s with
        | Good b => ret (Good (BigInt_shrink b))
        | Bad _ =>
            match SetBigRatString s with
            | Good r =>
                l <- newRat r ;;
                x <- BigRat_shrink l ;;
                ret (Good x)
            | Bad err => ret (Bad err)
            end
        end
    end.

(** The two sides of a rational literal hold no slash, so the recursion
    of [ValueString] is one call deep. *)
Definition ValueString : string -> HM (OrErr Value) :=
  ValueString_body (ValueString_body (fun _ => timeout)).

End ValueString.

(** ** What the statements below read *)

(** What the recursion relies on, entry by entry: only a vector operand
    gives the vector rank, the scalar entries do not call [Binary], and
    the vector entry is [binaryVectorOp] under some name, at which two
    vectors arrive. *)
Definition regular (op : binaryOp) : Prop :=
  (forall t1 t2, op_whichType op t1 t2 = vectorType ->
     t1 = vectorType \/ t2 = vectorType) /\
  (forall t f, t <> vectorType -> op_fn op t = Some f ->
     forall r r' u v h, f r u v h = f r' u v h) /\
  (exists name, op_fn op vectorType = Some (onVectors name)) /\
  op_whichType op vectorType vectorType = vectorType.

(** The fuel [Binary] gives itself. *)
Definition need (v1 v2 : Value) : nat := S (Nat.max (depth v1) (depth v2)).

(** The rational a scalar stands for, in a given store. *)
Definition valueQ (h : Heap) (v : Value) : Q :=
  match v with
  | Int x | BigInt x => inject_Z x
  | BigRat l => default 0%Q (h !! l)
  | Vector _ => 0%Q
  end.

(** Not a vector. *)
Definition isScalar (v : Value) : Prop := whichType v <> vectorType.

(** A [*big.Rat] of the program points to a cell. *)
Definition allocated (h : Heap) (v : Value) : Prop :=
  match v with
  | BigRat l => is_Some (h !! l)
  | _ => True
  end.

(** The computation returns or panics in every state: no bound of the
    embedding is reached. *)
Definition noTimeout {S A} (m : M S A) : Prop := forall s, fst (m s) <> Timeout.

(** [m'] does what [m] does, wherever [m] does not run out of fuel. *)
Definition below {S A} (m m' : M S A) : Prop :=
  forall s r s', m s = (r, s') -> r <> Timeout -> m' s = (r, s').

(** The computation leaves every cell of the store as it is, and may
    add cells. *)
Definition appends {A} (m : HM A) : Prop :=
  forall h r h', m h = (r, h') -> h `prefix_of` h'.

(** What the operators other than the power do to the store: their
    scalar entries leave the cells as they are, and their vector entry
    names an operator that is not the power. *)
Definition framed (no : string * binaryOp) : Prop :=
  fst no <> "**" ->
  (forall t f, t <> vectorType -> op_fn (snd no) t = Some f ->
     forall r u v, appends (f r u v)) /\
  (exists name', op_fn (snd no) vectorType = Some (onVectors name') /\ name' <> "**").

(** Within the range of the native integer. *)
Definition fits (z : Z) : Prop := (minInt <= z <= maxInt)%Z.

(** The lowest rank that holds the value: a native integer in range, a
    BigInt out of it, a BigRat that is no integer. *)
Definition minimal (h : Heap) (v : Value) : Prop :=
  match v with
  | Int x => fits x
  | BigInt x => ~ fits x
  | BigRat l => exists q, h !! l = Some q /\ ratIsInt q = false
  | Vector _ => True
  end.

(** An integer operand, at either of the two integer ranks. *)
Definition integer (big : bool) (x : Z) : Value :=
  if big then BigInt x else Int x.

(** A native integer of the program is within the native range. *)
Definition inRange (v : Value) : Prop :=
  match v with
  | Int x => fits x
  | _ => True
  end.

(** What the computation returns is within the native range. *)
Definition ranged (m : HM Value) : Prop :=
  forall h r h', m h = (Ok r, h') -> inRange r.

(** ** Printing *)

(** One turn of the loop of [Vector.String], on the index and the
    buffer: a space if [i > 0], then the element. [elemString] is the
    [String] of an element. *)
Definition writeElem (elemString : Value -> string)
  : nat * string -> Value -> nat * string :=
  fun '(i, b) elem =>
    (S i, (if (0 <? i)%nat then b +:+ " " else b) +:+ elemString elem).

(** [Vector.String]. *)
Definition Vector_String (elemString : Value -> string) (v : list Value) : string :=
  snd (fold_left (writeElem elemString) v (O, "")).

(** What the loop writes from its second turn on. *)
Definition afterFirst (elemString : Value -> string) (l : list Value) : string :=
  snd (fold_left (writeElem elemString) l (1%nat, "")).

(** The [String] of a value: of a vector as above, of a scalar by
    [scalarString], for the [String] methods of Int, BigInt and BigRat,
    which are not in the source files at hand. *)
Fixpoint Value_String (scalarString : Value -> string) (v : Value) : string :=
  match v with
  | Vector x => Vector_String (Value_String scalarString) x
  | _ => scalarString v
  end.

End value.

(** ** The token source *)

Module scan.

(** Modelled from the spec: the kinds of token (section 3: "number,
    rational literal, identifier, operator symbol, left/right paren,
    left/right bracket, assign, newline, EOF, error"); package [scan] is
    not in the source files at hand. *)
Inductive Type_ :=
| EOF | Error | Newline | Assign | Identifier | LeftBrack | LeftParen
| Number | Operator | Rational | RightBrack | RightParen.

#[global] Instance Type_eq_dec : EqDecision Type_.
Proof. solve_decision. Defined.

Record Token := { Typ : Type_; Text : string }.

End scan.

Module lex.

(** Modelled from the spec: the token reader (section 6: [next] and
    [fileName]); package [lex] is not in the source files at hand. The
    tokens still to come are a list, and a reader at its end answers
    EOF. *)
Record TokenReader := {
  fileName : string;
  tokens : list scan.Token;
}.

Definition Next (l : TokenReader) : scan.Token * TokenReader :=
  match tokens l with
  | [] => ({| scan.Typ := scan.EOF; scan.Text := "" |}, l)
  | t :: ts => (t, {| fileName := fileName l; tokens := ts |})
  end.

Definition FileName (l : TokenReader) : string := fileName l.

End lex.

(** ** The parser *)

Module parse.

Import value.
Local Open Scope go_scope.

(** The expressions: a value, [*Unary] or [*Binary]. *)
Inductive Expr :=
| Val (v : Value)
| Unary (op : string) (right : Expr)
| Binary (op : string) (left right : Expr).

(** The fields of the Go [Parser], then the memory the program runs in:
    [mem], the store of [big.Rat] cells, and [out], the trees that
    [Line] printed under the debugging flag. *)
Record Parser := {
  lexer : lex.TokenReader;
  config : config.Config;
  lineNum : Z;
  errorCount : Z;
  peekTok : scan.Token;
  vars : gmap string Value;
  curTok : scan.Token;
  mem : Heap;
  out : list Expr;
}.

Definition set_lexer (x : lex.TokenReader) (p : Parser) : Parser :=
  {| lexer := x; config := config p; lineNum := lineNum p;
     errorCount := errorCount p; peekTok := peekTok p; vars := vars p;
     curTok := curTok p; mem := mem p; out := out p |}.
Definition set_peekTok (x : scan.Token) (p : Parser) : Parser :=
  {| lexer := lexer p; config := config p; lineNum := lineNum p;
     errorCount := errorCount p; peekTok := x; vars := vars p;
     curTok := curTok p; mem := mem p; out := out p |}.
Definition set_vars (x : gmap string Value) (p : Parser) : Parser :=
  {| lexer := lexer p; config := config p; lineNum := lineNum p;
     errorCount := errorCount p; peekTok := peekTok p; vars := x;
     curTok := curTok p; mem := mem p; out := out p |}.
Definition set_curTok (x : scan.Token) (p : Parser) : Parser :=
  {| lexer := lexer p; config := config p; lineNum := lineNum p;
     errorCount := errorCount p; peekTok := peekTok p; vars := vars p;
     curTok := x; mem := mem p; out := out p |}.
Definition set_mem (x : Heap) (p : Parser) : Parser :=
  {| lexer := lexer p; config := config p; lineNum := lineNum p;
     errorCount := errorCount p; peekTok := peekTok p; vars := vars p;
     curTok := curTok p; mem := x; out := out p |}.
Definition set_out (x : list Expr) (p : Parser) : Parser :=
  {| lexer := lexer p; config := config p; lineNum := lineNum p;
     errorCount := errorCount p; peekTok := peekTok p; vars := vars p;
     curTok := curTok p; mem := mem p; out := x |}.

Definition P := M Parser.

(** A computation of package [value] run in the parser's memory. *)
Definition inMem {A} (m : HM A) : P A := fun p =>
  let '(r, h) := m (mem p) in (r, set_mem h p).

Definition eofToken : scan.Token := {| scan.Typ := scan.EOF; scan.Text := "" |}.

Definition NewParser (conf : config.Config) (lexer : lex.TokenReader) : Parser :=
  {| lexer := lexer; config := conf; lineNum := 1; errorCount := 0;
     peekTok := eofToken; vars := ∅; curTok := eofToken;
     mem := []; out := [] |}.

Definition lexerNext : P scan.Token := fun p =>
  let '(tok, l) := lex.Next (lexer p) in (Ok tok, set_lexer l p).

Definition Next : P scan.Token :=
  tok <- gets peekTok ;;
  if decide (scan.Typ tok ≠ scan.EOF) then
    modify (set_peekTok eofToken) ;;
    ret tok
  else
    tok <- lexerNext ;;
    modify (set_curTok tok) ;;
    ret tok.

Definition Back (tok : scan.Token) : P unit :=
  modify (set_peekTok tok).

Definition Peek : P scan.Token :=
  tok <- gets peekTok ;;
  if decide (scan.Typ tok ≠ scan.EOF) then ret tok
  else
    tok <- lexerNext ;;
    modify (set_peekTok tok) ;;
    gets peekTok.

Definition atLineEnd (tok : scan.Token) : bool :=
  bool_decide (scan.Typ tok = scan.Newline) || bool_decide (scan.Typ tok = scan.EOF).

(** The loop of [errorf]: flush to newline. *)
Fixpoint flush (fuel : nat) : P unit :=
  cur <- gets curTok ;;
  if atLineEnd cur then ret tt
  else match fuel with
       | O => timeout
       | S fuel' => Next ;; flush fuel'
       end.

(** [errorf] always panics, whatever type its caller returns; what
    follows a call of it in the source is never reached. The loop ends
    within two more turns than the reader has tokens. *)
Definition errorf {A} (msg : ParseMsg) : P A :=
  n <- gets (fun p => length (lex.tokens (lexer p))) ;;
  flush (S (S n)) ;;
  modify (set_peekTok eofToken) ;;
  file <- gets (fun p => lex.FileName (lexer p)) ;;
  line <- gets lineNum ;;
  panic (located file line msg).

Definition isNumber (t : scan.Type_) : bool :=
  bool_decide (t = scan.Number) || bool_decide (t = scan.Rational).

Section Parser.

Variable SetIntString : string -> OrErr Z.
Variable SetBigIntString : string -> OrErr Z.
Variable SetBigRatString : string -> OrErr Q.
(** [value.Unary] and the parser's [special] are not in the source files
    at hand either. *)
Variable UnaryOp : string -> Value -> HM Value.
Variable special : P unit.

Fixpoint Eval (e : Expr) : HM Value :=
  match e with
  | Val v => ret v
  | Unary op r => x <- Eval r ;; UnaryOp op x
  | Binary op l r =>
      x <- Eval l ;; y <- Eval r ;; value.Binary x op y
  end.

(** [Number] turns the token into a singleton numeric Value. *)
Definition Number (tok : scan.Token) : P Value :=
  r <- inMem (ValueString SetIntString SetBigIntString SetBigRatString (scan.Text tok)) ;;
  match r with
  | Good x => ret x
  | Bad err => errorf (bad_number (scan.Text tok) err)
  end.

(** The loop of [NumberOrVector]. *)
Fixpoint numbers (fuel : nat) (typ : scan.Type_) (v : list Value) : P (list Value) :=
  if isNumber typ then
    match fuel with
    | O => timeout
    | S fuel' =>
        tok <- Next ;;
        x <- Number tok ;;
        t <- Peek ;;
        numbers fuel' (scan.Typ t) (v ++ [x])
    end
  else ret v.

(** [NumberOrVector] turns the token and what follows into a numeric
    Value, possibly a vector. Each turn of the loop takes a token, so
    one more turn than the reader has tokens is enough. *)
Definition NumberOrVector (tok : scan.Token) : P Value :=
  x <- Number tok ;;
  t <- Peek ;;
  let typ := scan.Typ t in
  if negb (isNumber typ) then ret x
  else
    n <- gets (fun p => length (lex.tokens (lexer p))) ;;
    v <- numbers (S n) typ [x] ;;
    ret (ValueSlice v).

Fixpoint Expr_ (fuel : nat) (tok : scan.Token) : P Expr :=
  match fuel with
  | O => timeout
  | S fuel' =>
      expr <- Operand fuel' tok ;;
      t <- Peek ;;
      match scan.Typ t with
      | scan.Newline | scan.EOF | scan.RightParen | scan.RightBrack => ret expr
      | scan.Operator =>
          (* Binary. *)
          tok <- Next ;;
          t <- Next ;;
          r <- Expr_ fuel' t ;;
          ret (Binary (scan.Text tok) expr r)
      | _ =>
          t <- Peek ;;
          errorf (unexpected_after_expression (scan.Text t))
      end
  end
with Operand (fuel : nat) (tok : scan.Token) : P Expr :=
  match fuel with
  | O => timeout
  | S fuel' =>
      match scan.Typ tok with
      | scan.Operator =>
          (* Unary. *)
          t <- Next ;;
          r <- Expr_ fuel' t ;;
          ret (Unary (scan.Text tok) r)
      | scan.LeftParen =>
          t <- Next ;;
          expr <- Expr_ fuel' t ;;
          tok <- Next ;;
          (if decide (scan.Typ tok ≠ scan.RightParen)
           then errorf (expected_right_paren (scan.Text tok)) else ret tt) ;;
          index fuel' expr
      | scan.Number | scan.Rational =>
          x <- NumberOrVector tok ;;
          ret (Val x)
      | scan.Identifier =>
          vs <- gets vars ;;
          match vs !! scan.Text tok with
          | None => errorf (undefined (scan.Text tok))
          | Some v => index fuel' (Val v)
          end
      | _ => errorf (unexpected (scan.Text tok))
      end
  end
with index (fuel : nat) (expr : Expr) : P Expr :=
  match fuel with
  | O => timeout
  | S fuel' =>
      t <- Peek ;;
      if decide (scan.Typ t = scan.LeftBrack) then
        Next ;;
        t <- Next ;;
        index_ <- Expr_ fuel' t ;;
        tok <- Next ;;
        (if decide (scan.Typ tok ≠ scan.RightBrack)
         then errorf (expected_right_bracket (scan.Text tok)) else ret tt) ;;
        index fuel' (Binary "[]" expr index_)
      else ret expr
  end.

(** The head of [Line] at an identifier: an assignment consumes the
    name and the assign token. It gives [variable], [isAssignment] and
    the token the expression starts at. *)
Definition assignment (tok : scan.Token) : P (string * bool * scan.Token) :=
  if decide (scan.Typ tok = scan.Identifier) then
    next <- Peek ;;
    if decide (scan.Typ next = scan.Assign) then
      Next ;;
      tok' <- Next ;;
      ret (scan.Text tok, true, tok')
    else ret ("", false, tok)
  else ret ("", false, tok).

(** [Line]. The test [x == nil] of the source is left out: [Expr]
    returns nil after [errorf] only, which panics. *)
Definition Line (fuel : nat) : P (option Value * bool) :=
  tok <- Next ;;
  match scan.Typ tok with
  | scan.EOF => ret (None, false)
  | scan.Error => errorf (quoted (scan.Text tok))
  | scan.RightParen => special ;; ret (None, true)
  | scan.Newline => ret (None, true)
  | _ =>
      a <- assignment tok ;;
      let '(variable, isAssignment, tok) := a in
      x <- Expr_ fuel tok ;;
      tok <- Next ;;
      (if negb (atLineEnd tok)
       then errorf (unexpected_quoted (scan.Text tok)) else ret tt) ;;
      dbg <- gets (fun p => config.Debug "parse" (config p)) ;;
      (if dbg : bool then modify (fun p => set_out (out p ++ [x]) p) else ret tt) ;;
      expr <- inMem (Eval x) ;;
      modify (fun p => set_vars (<["_" := expr]> (vars p)) p) ;;
      (if negb (String.eqb variable "")
       then modify (fun p => set_vars (<[variable := expr]> (vars p)) p)
       else ret tt) ;;
      if isAssignment : bool then ret (None, true) (* Don't print *)
      else ret (Some expr, true)
  end.

End Parser.

(** ** What the statements below read *)

(** The tokens the parser will see, in order: the token pushed back, if
    there is one, then the reader's. *)
Definition upcoming (p : Parser) : list scan.Token :=
  (if decide (scan.Typ (peekTok p) ≠ scan.EOF) then [peekTok p] else [])
  ++ lex.tokens (lexer p).

(** No number comes first. *)
Definition noNumberAhead (rest : list scan.Token) : Prop :=
  match rest with
  | [] => True
  | t :: _ => isNumber (scan.Typ t) = false
  end.


(** What is left of the reader's tokens after the first one that ends a
    line. *)
Fixpoint afterLine (ts : list scan.Token) : list scan.Token :=
  match ts with
  | [] => []
  | t :: r => if atLineEnd t then r else afterLine r
  end.

(** What the parser is set up with, and its counters. *)
Definition sameSetup (p p' : Parser) : Prop :=
  lineNum p' = lineNum p /\ errorCount p' = errorCount p /\
  config p' = config p /\ lex.fileName (lexer p') = lex.fileName (lexer p).

(** The same, and the variables. *)
Definition sameSetting (p p' : Parser) : Prop :=
  vars p' = vars p /\ sameSetup p p'.

(** The computation leaves them as they are, however it ends. *)
Definition keeps {A} (m : P A) : Prop :=
  forall p r p', m p = (r, p') -> sameSetting p p'.

(** The computation binds variables only if it returns. *)
Definition keepsUnlessOk {A} (m : P A) : Prop :=
  forall p r p', m p = (r, p') ->
    sameSetup p p' /\ ((forall a, r <> Ok a) -> vars p' = vars p).

(** The tree [e1 op1 (e2 op2 (... en))]. *)
Fixpoint rightAssoc (e : Expr) (rest : list (string * Expr)) : Expr :=
  match rest with
  | [] => e
  | (op, e') :: rest' => Binary op e (rightAssoc e' rest')
  end.

(** The tokens [op1 x2 op2 x3 ...] of operators and variables; the
    third component is the value of the variable. *)
Definition chain (rest : list (string * string * Value)) : list scan.Token :=
  flat_map (fun '(op, x, _) =>
    [ {| scan.Typ := scan.Operator; scan.Text := op |};
      {| scan.Typ := scan.Identifier; scan.Text := x |} ]) rest.

(** The tokens that end an expression and are left for its caller. *)
Definition closes (t : scan.Type_) : bool :=
  match t with
  | scan.Newline | scan.RightParen | scan.RightBrack => true
  | _ => false
  end.

(** The tokens [[y1] [y2] ...] of indexings by variables; the second
    component is the value of the variable. *)
Definition brackets (ixs : list (string * Value)) : list scan.Token :=
  flat_map (fun '(y, _) =>
    [ {| scan.Typ := scan.LeftBrack; scan.Text := "[" |};
      {| scan.Typ := scan.Identifier; scan.Text := y |};
      {| scan.Typ := scan.RightBrack; scan.Text := "]" |} ]) ixs.







(** ** Printing expressions *)

(** [Unary.String] and [Binary.String]; [valueString] is the [String]
    of a value. *)
Fixpoint Expr_String (valueString : Value -> string) (e : Expr) : string :=
  match e with
  | Val v => valueString v
  | Unary op r => op +:+ " " +:+ Expr_String valueString r
  | Binary op l r =>
      Expr_String valueString l +:+ " " +:+ op +:+ " " +:+ Expr_String valueString r
  end.

(** [Tree]. The cases [nil] and [default] of the source do not arise
    for the three shapes of [Expr]. *)
Fixpoint Tree (valueString : Value -> string) (e : Expr) : string :=
  match e with
  | Val (BigInt _ as v) => "<big " +:+ valueString v +:+ ">"
  | Val (BigRat _ as v) => "<rat " +:+ valueString v +:+ ">"
  | Val (Int _ as v) => "<" +:+ valueString v +:+ ">"
  | Val (Vector _ as v) => "<vec " +:+ valueString v +:+ ">"
  | Unary op r => "(" +:+ op +:+ " " +:+ Tree valueString r +:+ ")"
  | Binary op l r =>
      "(" +:+ Tree valueString l +:+ " " +:+ op +:+ " " +:+ Tree valueString r +:+ ")"
  end.

End parse.

(** ** A decimal reader for concrete runs *)

Module demo.

Import value.
Local Open Scope Z_scope.

Fixpoint digits (s : string) (acc : Z) : option Z :=
  match s with
  | EmptyString => Some acc
  | String a s' =>
      let n := Z.of_nat (nat_of_ascii a) in
      if (48 <=? n) && (n <=? 57) then digits s' (10 * acc + (n - 48)) else None
  end.

Definition decimal (s : string) : option Z :=
  match s with
  | EmptyString => None
  | String "-" s' => match s' with EmptyString => None | _ => Z.opp <$> digits s' 0 end
  | _ => digits s 0
  end.

Definition SetIntString (s : string) : OrErr Z :=
  match decimal s with
  | Some z => if (minInt <=? z) && (z <=? maxInt) then Good z else Bad (syntax_error s)
  | None => Bad (syntax_error s)
  end.

Definition SetBigIntString (s : string) : OrErr Z :=
  match decimal s with
  | Some z => Good z
  | None => Bad (syntax_error s)
  end.

Definition SetBigRatString (s : string) : OrErr Q := Bad (syntax_error s).

Definition UnaryOp (op : string) (v : Value) : HM Value :=
  panic (binary_not_implemented op).

Definition special : parse.P unit := ret tt.

Definition tok (t : scan.Type_) (s : string) : scan.Token :=
  {| scan.Typ := t; scan.Text := s |}.

Definition conf : config.Config :=
  {| config.format := ""; config.ratFormat := ""; config.origin := 1;
     config.debug := ∅ |}.

Definition parser (ts : list scan.Token) : parse.Parser :=
  parse.NewParser conf {| lex.fileName := "<stdin>"; lex.tokens := ts |}.

Definition Line := parse.Line SetIntString SetBigIntString SetBigRatString UnaryOp special.

End demo.

(** * Properties of package [value] *)

Module value_spec.

Import value.
Local Open Scope go_scope.

(** ** The monad *)

Lemma bind_Ok {S A B} (m : M S A) (k : A -> M S B) s a s' :
  m s = (Ok a, s') -> bind m k s = k a s'.
Proof. unfold bind. now intros ->. Qed.

Lemma bind_Panic {S A B} (m : M S A) (k : A -> M S B) s e s' :
  m s = (Panic e, s') -> bind m k s = (Panic e, s').
Proof. unfold bind. now intros ->. Qed.

(** ** Shrinking what is shrunk *)

Lemma shrink_BigInt_shrink (x : Z) (h : Heap) :
  shrink (BigInt_shrink x) h = (Ok (BigInt_shrink x), h).
Proof.
  unfold BigInt_shrink. destruct (_ && _) eqn:E; cbn; [reflexivity|].
  unfold ret, BigInt_shrink. now rewrite E.
Qed.

Lemma shrink_toInt (t : bool) (h : Heap) : shrink (toInt t) h = (Ok (toInt t), h).
Proof. now destruct t. Qed.

(** [Binary] from a run of its dispatch. *)
Lemma Binary_body_run (rec : BinaryFn) (v1 v2 : Value) (op : string) (h h' : Heap)
    (res : Res Value) :
  Binary_dispatch rec v1 op v2 h = (res, h') ->
  Binary_body rec v1 op v2 h =
    match res with
    | Ok r => shrink r h'
    | Panic e => (Panic e, h')
    | Timeout => (Timeout, h')
    end.
Proof. unfold Binary_body, bind. now intros ->. Qed.

Lemma mapM_ext {S A B} (f g : A -> M S B) (l : list A) :
  (forall x, x ∈ l -> forall s, f x s = g x s) ->
  forall s, mapM f l s = mapM g l s.
Proof.
  induction l as [|a l IH]; intros Hfg s; [reflexivity|].
  cbn [mapM]. unfold bind at 1 3.
  rewrite (Hfg a) by constructor.
  destruct (g a s) as [[b| |] s1]; try reflexivity.
  unfold bind. rewrite IH; [reflexivity|].
  intros x Hx. apply Hfg. now constructor.
Qed.

Lemma mapM_length {S A B} (f : A -> M S B) (l : list A) s r s' :
  mapM f l s = (Ok r, s') -> length r = length l.
Proof.
  revert s r s'. induction l as [|a l IH]; intros s r s'; cbn [mapM].
  - unfold ret. now intros [= <- _].
  - unfold bind at 1. destruct (f a s) as [[b| |] s1]; try discriminate.
    unfold bind. destruct (mapM f l s1) as [[bs| |] s2] eqn:E; try discriminate.
    unfold ret. intros [= <- _]. cbn. f_equal. eauto.
Qed.

(** ** The recursion of [Binary] *)

Lemma depth_elem (x : list Value) (e : Value) :
  e ∈ x -> (depth e < depth (Vector x))%nat.
Proof.
  cbn [depth]. induction 1; cbn [foldr]; lia.
Qed.

Ltac solve_regular :=
  cbn [snd]; split; [|split; [|split]];
  [ intros [] []; cbn; intros; solve [discriminate | auto]
  | intros [] f Ht; cbn; intros [= <-]; solve [reflexivity | congruence]
  | eexists; reflexivity
  | reflexivity ].

Lemma binaryOpsList_regular : Forall (fun no => regular (snd no)) binaryOpsList.
Proof.
  unfold binaryOpsList.
  repeat (apply List.Forall_cons; [solve_regular|]). apply List.Forall_nil.
Qed.

Lemma binaryOps_regular (name : string) (op : binaryOp) :
  binaryOps !! name = Some op -> regular op.
Proof.
  intros H. apply elem_of_list_to_map_2 in H.
  pose proof binaryOpsList_regular as F.
  rewrite Forall_forall in F. apply (F (name, op)), H.
Qed.

Lemma bind_ext_l {S A B} (m m' : M S A) (k : A -> M S B) s :
  m s = m' s -> bind m k s = bind m' k s.
Proof. unfold bind. now intros ->. Qed.

Lemma binaryVectorOp_ext (r r' : BinaryFn) (op : string) (u v : Value) (D : nat) :
  (forall a b, (depth a < D)%nat -> (depth b < D)%nat ->
     forall h, r a op b h = r' a op b h) ->
  (depth u <= D)%nat -> (depth v <= D)%nat ->
  forall h, binaryVectorOp r u op v h = binaryVectorOp r' u op v h.
Proof.
  intros Hr Hu Hv h.
  destruct u as [| | |x]; try reflexivity.
  destruct v as [| | |y]; try reflexivity.
  assert (Hx : forall e, e ∈ x -> (depth e < D)%nat).
  { intros e He. apply depth_elem in He. lia. }
  assert (Hy : forall e, e ∈ y -> (depth e < D)%nat).
  { intros e He. apply depth_elem in He. lia. }
  unfold binaryVectorOp. cbn [asVector].
  rewrite !(bind_Ok (ret _) _ h _ h) by reflexivity.
  destruct x as [|u0 [|u1 x]].
  - destruct y as [|v0 [|v1 y]]; try reflexivity.
  - apply bind_ext_l, mapM_ext. intros e He s.
    apply Hr; [apply Hx; constructor | now apply Hy].
  - destruct y as [|v0 [|v1 y]].
    + reflexivity.
    + apply bind_ext_l, mapM_ext. intros e He s.
      apply Hr; [now apply Hx | apply Hy; constructor].
    + unfold bind at 1 3.
      destruct (sameLength _ _ h) as [[[]| |] h1]; try reflexivity.
      apply bind_ext_l, mapM_ext. intros [a b] He s. cbn [fst snd].
      apply elem_of_zip_l in He as Ha. apply elem_of_zip_r in He as Hb.
      apply Hr; [now apply Hx | now apply Hy].
Qed.

Lemma ToType_vector_depth (v : Value) (h : Heap) :
  exists w, ToType v vectorType h = (Ok w, h) /\
            (depth w <= Nat.max 1 (depth v))%nat /\
            (whichType v = vectorType -> w = v).
Proof.
  destruct v; cbn; eexists; (split; [reflexivity|]); split; cbn; try lia; try discriminate; auto.
Qed.

Lemma whichType_vector_depth (v : Value) :
  whichType v = vectorType -> (1 <= depth v)%nat.
Proof. destruct v; cbn; try discriminate; lia. Qed.

Lemma Binary_fuel_stable (n m : nat) (v1 v2 : Value) (op : string) (h : Heap) :
  (need v1 v2 <= n)%nat -> (need v1 v2 <= m)%nat ->
  Binary_fuel n v1 op v2 h = Binary_fuel m v1 op v2 h.
Proof.
  revert m v1 v2 op h. induction n as [|n IH]; intros m v1 v2 op h Hn Hm.
  { unfold need in Hn. lia. }
  destruct m as [|m]; [unfold need in Hm; lia|].
  cbn [Binary_fuel]. unfold Binary_body. apply bind_ext_l. unfold Binary_dispatch.
  destruct (binaryOps !! op) as [o|] eqn:Hop; [|reflexivity].
  destruct (binaryOps_regular _ _ Hop) as (Hvec & Hscalar & (name & Hname) & _).
  cbv zeta.
  destruct (decide (op_whichType o (whichType v1) (whichType v2) = vectorType)) as [E|E].
  - rewrite E, Hname.
    assert (1 <= Nat.max (depth v1) (depth v2))%nat as HD.
    { destruct (Hvec _ _ E) as [H|H]; apply whichType_vector_depth in H; lia. }
    destruct (ToType_vector_depth v1 h) as (w1 & E1 & Hw1 & _).
    rewrite !(bind_Ok (ToType v1 vectorType) _ h w1 h E1).
    destruct (ToType_vector_depth v2 h) as (w2 & E2 & Hw2 & _).
    rewrite !(bind_Ok (ToType v2 vectorType) _ h w2 h E2).
    unfold onVectors.
    apply binaryVectorOp_ext with (D := Nat.max (depth v1) (depth v2)); try lia.
    intros a b Ha Hb h'. apply IH; unfold need in *; lia.
  - clear Hname. set (t := op_whichType o (whichType v1) (whichType v2)) in *.
    destruct (op_fn o t) as [f|] eqn:Hf; [|reflexivity].
    unfold bind.
    destruct (ToType v1 _ h) as [[a| |] h1]; try reflexivity.
    destruct (ToType v2 _ h1) as [[b| |] h2]; try reflexivity.
    eapply Hscalar; eauto.
Qed.

(** The equation of [Binary]: the body, with [Binary] itself for the
    calls on the elements. *)
Lemma Binary_unfold (v1 v2 : Value) (op : string) (h : Heap) :
  Binary v1 op v2 h = Binary_body Binary v1 op v2 h.
Proof.
  unfold Binary at 1. cbn [Binary_fuel]. unfold Binary_body.
  apply bind_ext_l. unfold Binary_dispatch.
  destruct (binaryOps !! op) as [o|] eqn:Hop; [|reflexivity].
  destruct (binaryOps_regular _ _ Hop) as (Hvec & Hscalar & (name & Hname) & _).
  cbv zeta.
  destruct (decide (op_whichType o (whichType v1) (whichType v2) = vectorType)) as [E|E].
  - rewrite E, Hname.
    assert (1 <= Nat.max (depth v1) (depth v2))%nat as HD.
    { destruct (Hvec _ _ E) as [H|H]; apply whichType_vector_depth in H; lia. }
    destruct (ToType_vector_depth v1 h) as (w1 & E1 & Hw1 & _).
    rewrite !(bind_Ok (ToType v1 vectorType) _ h w1 h E1).
    destruct (ToType_vector_depth v2 h) as (w2 & E2 & Hw2 & _).
    rewrite !(bind_Ok (ToType v2 vectorType) _ h w2 h E2).
    unfold onVectors.
    apply binaryVectorOp_ext with (D := Nat.max (depth v1) (depth v2)); try lia.
    intros a b Ha Hb h'. unfold Binary.
    apply Binary_fuel_stable; unfold need; lia.
  - clear Hname. set (t := op_whichType o (whichType v1) (whichType v2)) in *.
    destruct (op_fn o t) as [f|] eqn:Hf; [|reflexivity].
    unfold bind.
    destruct (ToType v1 _ h) as [[a| |] h1]; try reflexivity.
    destruct (ToType v2 _ h1) as [[b| |] h2]; try reflexivity.
    eapply Hscalar; eauto.
Qed.

(** [Binary] from a run of its dispatch. *)
Lemma Binary_shrinks (v1 v2 : Value) (op : string) (h h' : Heap) (r : Value) :
  Binary_dispatch Binary v1 op v2 h = (Ok r, h') ->
  Binary v1 op v2 h = shrink r h'.
Proof. intros H. now rewrite Binary_unfold, (Binary_body_run _ _ _ _ _ _ _ H). Qed.

Lemma Binary_ok (v1 v2 : Value) (op : string) (h h' : Heap) (r : Value) :
  Binary_dispatch Binary v1 op v2 h = (Ok r, h') ->
  shrink r h' = (Ok r, h') ->
  Binary v1 op v2 h = (Ok r, h').
Proof. intros H E. now rewrite (Binary_shrinks _ _ _ _ _ _ H). Qed.

Lemma Binary_panic (v1 v2 : Value) (op : string) (h h' : Heap) (e : Error) :
  Binary_dispatch Binary v1 op v2 h = (Panic e, h') ->
  Binary v1 op v2 h = (Panic e, h').
Proof. intros H. now rewrite Binary_unfold, (Binary_body_run _ _ _ _ _ _ _ H). Qed.

(** ** Which rank an operator selects *)

Lemma binaryArithType_rank (t1 t2 : valueType) :
  rank (binaryArithType t1 t2) = Z.max (rank t1) (rank t2).
Proof. destruct t1, t2; reflexivity. Qed.

Lemma divType_rank (t1 t2 : valueType) :
  rank (divType t1 t2) = Z.max (rank bigIntType) (Z.max (rank t1) (rank t2)).
Proof. destruct t1, t2; reflexivity. Qed.

Lemma rationalType_rank (t1 t2 : valueType) :
  rank (rationalType t1 t2) = Z.max (rank bigRatType) (Z.max (rank t1) (rank t2)).
Proof. destruct t1, t2; reflexivity. Qed.

Lemma binaryOps_lookup :
  binaryOps !! "idiv" = Some ops.idiv /\ binaryOps !! "imod" = Some ops.imod /\
  binaryOps !! "div" = Some ops.div /\ binaryOps !! "mod" = Some ops.mod_ /\
  binaryOps !! "**" = Some ops.pow /\ binaryOps !! "<<" = Some ops.lsh /\
  binaryOps !! ">>" = Some ops.rsh /\ binaryOps !! "/" = Some ops.quo /\
  binaryOps !! "max" = Some ops.max /\ binaryOps !! "min" = Some ops.min.
Proof. repeat split; reflexivity. Qed.

(** C1, as it holds: [idiv] and [imod] select the larger of the two
    operand ranks, like the arithmetic operators, and divide two native
    integers natively, with no promotion to BigInt; it is Euclidean
    [div] and [mod], the shifts and the power that select
    max(BigInt, rank a, rank b). *)
Theorem idiv_imod_select_arith_rank (a b : Value) :
  let ta := whichType a in
  let tb := whichType b in
  (binaryOps !! "idiv" = Some ops.idiv /\ binaryOps !! "imod" = Some ops.imod) /\
  rank (op_whichType ops.idiv ta tb) = Z.max (rank ta) (rank tb) /\
  rank (op_whichType ops.imod ta tb) = Z.max (rank ta) (rank tb) /\
  (forall (x y : Z) (h : Heap),
     Binary (Int x) "idiv" (Int y) h =
       (if (y =? 0)%Z then Panic division_by_zero
        else Ok (Int (wrap64 (Z.quot x y))), h) /\
     Binary (Int x) "imod" (Int y) h =
       (if (y =? 0)%Z then Panic modulo_by_zero
        else Ok (Int (Z.rem x y)), h)) /\
  Forall (fun op => rank (op_whichType op ta tb) =
                    Z.max (rank bigIntType) (Z.max (rank ta) (rank tb)))
         [ops.div; ops.mod_; ops.lsh; ops.rsh; ops.pow].
Proof.
  cbv zeta. split; [split; reflexivity|].
  split; [apply binaryArithType_rank|].
  split; [apply binaryArithType_rank|].
  split.
  - intros x y h. split.
    + rewrite Binary_unfold. unfold Binary_body, Binary_dispatch.
      replace (binaryOps !! "idiv") with (Some ops.idiv) by reflexivity.
      cbn. unfold bind, ret, panic. cbn. now destruct (y =? 0)%Z.
    + rewrite Binary_unfold. unfold Binary_body, Binary_dispatch.
      replace (binaryOps !! "imod") with (Some ops.imod) by reflexivity.
      cbn. unfold bind, ret, panic. cbn. now destruct (y =? 0)%Z.
  - repeat (apply List.Forall_cons; [apply divType_rank|]). apply List.Forall_nil.
Qed.

(** C1, as it is stated, fails: two native integers make [idiv] (and
    [imod]) select the native rank, below BigInt, and the division runs
    there. *)
Lemma idiv_selects_native_rank :
  op_whichType ops.idiv (whichType (Int 7)) (whichType (Int 2)) = intType /\
  op_whichType ops.imod (whichType (Int 7)) (whichType (Int 2)) = intType /\
  (rank intType <
     Z.max (rank bigIntType)
           (Z.max (rank (whichType (Int 7))) (rank (whichType (Int 2)))))%Z /\
  Binary (Int 7) "idiv" (Int 2) [] = (Ok (Int 3), []) /\
  Binary (Int 7) "imod" (Int 2) [] = (Ok (Int 1), []).
Proof. repeat split. Qed.

(** ** Reading values *)

Lemma valueQ_BigInt_shrink (h : Heap) (x : Z) :
  valueQ h (BigInt_shrink x) = inject_Z x.
Proof. unfold BigInt_shrink. now destruct (_ && _). Qed.

Lemma ratIsInt_inject (q : Q) : ratIsInt q = true -> (inject_Z (Qnum q) == q)%Q.
Proof.
  unfold ratIsInt. intros H%Pos.eqb_eq. destruct q as [n d]. cbn in *. subst d.
  reflexivity.
Qed.

Lemma mkRat_1 (x : Z) : (mkRat x 1 == inject_Z x)%Q.
Proof.
  unfold mkRat. rewrite Qred_correct. cbn. unfold inject_Z.
  now rewrite Z.mul_1_r.
Qed.

Lemma ratSign_0 (q : Q) : (ratSign q =? 0)%Z = true <-> (q == 0)%Q.
Proof.
  unfold ratSign. rewrite Z.eqb_eq, Z.sgn_null_iff.
  unfold Qeq. cbn. lia.
Qed.

Lemma ToType_bigRat (v : Value) (h : Heap) :
  isScalar v -> allocated h v ->
  exists l q ext,
    ToType v bigRatType h = (Ok (BigRat l), h ++ ext) /\
    (h ++ ext) !! l = Some q /\ (q == valueQ h v)%Q.
Proof.
  intros Hs Ha. destruct v as [x|x|l|x]; cbn.
  - exists (length h), (mkRat x 1), [mkRat x 1]. split; [reflexivity|].
    split; [apply list_lookup_middle; reflexivity | apply mkRat_1].
  - exists (length h), (mkRat x 1), [mkRat x 1]. split; [reflexivity|].
    split; [apply list_lookup_middle; reflexivity | apply mkRat_1].
  - destruct Ha as [q Hq]. exists l, q, []. rewrite app_nil_r.
    split; [reflexivity|]. split; [assumption|]. now rewrite Hq.
  - now destruct Hs.
Qed.

Lemma load_Some (h : Heap) (l : loc) (q : Q) :
  h !! l = Some q -> load l h = (Ok q, h).
Proof. unfold load. now intros ->. Qed.

Lemma store_fresh (h : Heap) (q0 q : Q) :
  store (length h) q (h ++ [q0]) = (Ok tt, h ++ [q]).
Proof.
  unfold store. rewrite list_lookup_middle by reflexivity.
  f_equal. rewrite insert_app_r_alt by lia. now rewrite Nat.sub_diag.
Qed.

(** [binaryBigRatOp] allocates the result, and shrinks it. *)
Lemma binaryBigRatOp_spec (op : Q -> Q -> Q) (la lb : loc) (qa qb : Q) (h : Heap) :
  h !! la = Some qa -> h !! lb = Some qb ->
  let h' := h ++ [op qa qb] in
  binaryBigRatOp (BigRat la) op (BigRat lb) h =
    (Ok (if ratIsInt (op qa qb) then BigInt_shrink (Qnum (op qa qb))
         else BigRat (length h)), h').
Proof.
  intros Ha Hb h'. unfold binaryBigRatOp. cbn [asBigRat].
  rewrite !(bind_Ok (ret _) _ h _ h) by reflexivity.
  rewrite (bind_Ok (bigRatInt64 0) _ h (BigRat (length h)) (h ++ [mkRat 0 1]))
    by reflexivity.
  cbn [asBigRat]. rewrite (bind_Ok (ret _) _ _ (length h) (h ++ [mkRat 0 1])) by reflexivity.
  rewrite (bind_Ok (load la) _ _ qa (h ++ [mkRat 0 1])).
  2:{ apply load_Some. now apply lookup_app_l_Some. }
  rewrite (bind_Ok (load lb) _ _ qb (h ++ [mkRat 0 1])).
  2:{ apply load_Some. now apply lookup_app_l_Some. }
  rewrite (bind_Ok (store _ _) _ _ tt h') by apply store_fresh.
  unfold BigRat_shrink.
  rewrite (bind_Ok (load _) _ _ (op qa qb) h').
  2:{ apply load_Some. apply list_lookup_middle. reflexivity. }
  now destruct (ratIsInt _).
Qed.

Lemma valueQ_shrunk (h : Heap) (q : Q) :
  (valueQ (h ++ [q])
     (if ratIsInt q then BigInt_shrink (Qnum q) else BigRat (length h)) == q)%Q.
Proof.
  destruct (ratIsInt q) eqn:E.
  - rewrite valueQ_BigInt_shrink. now apply ratIsInt_inject.
  - cbn. rewrite list_lookup_middle by reflexivity. reflexivity.
Qed.

Lemma shrink_shrunk (h : Heap) (q : Q) :
  let r := if ratIsInt q then BigInt_shrink (Qnum q) else BigRat (length h) in
  shrink r (h ++ [q]) = (Ok r, h ++ [q]).
Proof.
  cbv zeta. destruct (ratIsInt q) eqn:E; [apply shrink_BigInt_shrink|].
  cbn [shrink]. unfold BigRat_shrink.
  rewrite (bind_Ok _ _ _ _ _ (load_Some _ _ _ (list_lookup_middle h [] q _ eq_refl))).
  now rewrite E.
Qed.

(** Shrinking keeps the value. *)
Lemma shrink_value (v : Value) (h : Heap) :
  allocated h v ->
  exists r, shrink v h = (Ok r, h) /\ (valueQ h r == valueQ h v)%Q.
Proof.
  destruct v as [x|x|l|x]; cbn [shrink allocated].
  - intros _. now exists (Int x).
  - intros _. exists (BigInt_shrink x). split; [reflexivity|].
    now rewrite valueQ_BigInt_shrink.
  - intros [q Hq]. unfold BigRat_shrink. rewrite (bind_Ok _ _ _ _ _ (load_Some _ _ _ Hq)).
    destruct (ratIsInt q) eqn:E.
    + exists (BigInt_shrink (Qnum q)). split; [reflexivity|].
      rewrite valueQ_BigInt_shrink. cbn. rewrite Hq. now apply ratIsInt_inject.
    + now exists (BigRat l).
  - intros _. now exists (Vector x).
Qed.

(** C5: true division selects max(BigRat, rank a, rank b), which is the
    BigRat rank for scalars; it fails with "division by zero" exactly
    when the divisor is zero, and otherwise returns the exact
    quotient. *)
Theorem quo_exact (a b : Value) (h : Heap) :
  isScalar a -> isScalar b -> allocated h a -> allocated h b ->
  binaryOps !! "/" = Some ops.quo /\
  rank (op_whichType ops.quo (whichType a) (whichType b)) =
    Z.max (rank bigRatType) (Z.max (rank (whichType a)) (rank (whichType b))) /\
  op_whichType ops.quo (whichType a) (whichType b) = bigRatType /\
  ((exists h', Binary a "/" b h = (Panic division_by_zero, h')) <->
   (valueQ h b == 0)%Q) /\
  (~ (valueQ h b == 0)%Q ->
   exists r h', Binary a "/" b h = (Ok r, h') /\
                (valueQ h' r == valueQ h a / valueQ h b)%Q).
Proof.
  intros Sa Sb Aa Ab.
  split; [reflexivity|]. split; [apply rationalType_rank|].
  assert (Hw : op_whichType ops.quo (whichType a) (whichType b) = bigRatType).
  { destruct a, b; try reflexivity; now (destruct Sa || destruct Sb). }
  split; [exact Hw|].
  destruct (ToType_bigRat a h Sa Aa) as (la & qa & ea & Ea & Hla & Hqa).
  assert (Ab' : allocated (h ++ ea) b).
  { destruct b; cbn in *; auto. destruct Ab as [q Hq]. exists q.
    now apply lookup_app_l_Some. }
  destruct (ToType_bigRat b (h ++ ea) Sb Ab') as (lb & qb & eb & Eb & Hlb & Hqb).
  assert (Hvb : valueQ (h ++ ea) b = valueQ h b).
  { destruct b; cbn in *; auto. destruct Ab as [q Hq].
    now rewrite (lookup_app_l_Some _ _ _ _ Hq), Hq. }
  rewrite Hvb in Hqb.
  assert (Hla' : (h ++ ea ++ eb) !! la = Some qa).
  { rewrite app_assoc. now apply lookup_app_l_Some. }
  rewrite <- app_assoc in Eb, Hlb.
  assert (Run : Binary a "/" b h =
    (if (ratSign qb =? 0)%Z then (Panic division_by_zero, h ++ ea ++ eb)
     else (Ok (if ratIsInt (ratQuo qa qb) then BigInt_shrink (Qnum (ratQuo qa qb))
               else BigRat (length (h ++ ea ++ eb))),
           (h ++ ea ++ eb) ++ [ratQuo qa qb]))).
  { assert (Disp : Binary_dispatch Binary a "/" b h =
      (if (ratSign qb =? 0)%Z then (Panic division_by_zero, h ++ ea ++ eb)
       else (Ok (if ratIsInt (ratQuo qa qb) then BigInt_shrink (Qnum (ratQuo qa qb))
                 else BigRat (length (h ++ ea ++ eb))),
             (h ++ ea ++ eb) ++ [ratQuo qa qb]))).
    { unfold Binary_dispatch.
      replace (binaryOps !! "/") with (Some ops.quo) by reflexivity.
      cbv zeta. rewrite Hw. cbn [ops.quo op_fn].
      rewrite (bind_Ok _ _ _ _ _ Ea), (bind_Ok _ _ _ _ _ Eb).
      cbn [asBigRat]. rewrite (bind_Ok (ret _) _ _ lb (h ++ ea ++ eb)) by reflexivity.
      rewrite (bind_Ok (load lb) _ _ qb (h ++ ea ++ eb)) by now apply load_Some.
      destruct (ratSign qb =? 0)%Z; [reflexivity|].
      now apply binaryBigRatOp_spec. }
    destruct (ratSign qb =? 0)%Z.
    - now apply Binary_panic.
    - apply (Binary_ok _ _ _ _ _ _ Disp), shrink_shrunk. }
  rewrite Run. split; [split|].
  - intros [h' Hp]. rewrite <- Hqb. apply ratSign_0.
    destruct (ratSign qb =? 0)%Z; [reflexivity | discriminate].
  - intros Hz. rewrite <- Hqb in Hz. apply ratSign_0 in Hz. rewrite Hz. eauto.
  - intros Hnz. destruct (ratSign qb =? 0)%Z eqn:E.
    + apply ratSign_0 in E. rewrite Hqb in E. contradiction.
    + eexists _, _. split; [reflexivity|].
      rewrite valueQ_shrunk. unfold ratQuo. rewrite Qred_correct.
      now rewrite Hqa, Hqb.
Qed.

(** C5 at 7/2. *)
Lemma quo_exact_witness :
  exists r h', Binary (Int 7) "/" (Int 2) [] = (Ok r, h') /\
               (valueQ h' r == valueQ [] (Int 7) / valueQ [] (Int 2))%Q.
Proof.
  destruct (quo_exact (Int 7) (Int 2) []) as (_ & _ & _ & _ & H).
  - discriminate.
  - discriminate.
  - exact I.
  - exact I.
  - apply H. cbv. discriminate.
Defined.

(** ** Power *)

Lemma bigExp_pos (x e : Z) : (0 < e)%Z -> bigExp x e = (x ^ e)%Z.
Proof. unfold bigExp. intros H. now destruct (Z.leb_spec e 0); [lia|]. Qed.

Lemma store_Some (h : Heap) (l : loc) (q0 q : Q) :
  h !! l = Some q0 -> store l q h = (Ok tt, <[l := q]> h).
Proof. unfold store. now intros ->. Qed.

Lemma Exp_Num (lu lv : loc) (h : Heap) (qu qv : Q) :
  h !! lu = Some qu -> h !! lv = Some qv ->
  Exp (Num lu) (Num lu) (Num lv) h =
    (Ok tt, <[lu := Qmake (bigExp (Qnum qu) (Qnum qv)) (Qden qu)]> h).
Proof.
  intros Hu Hv. unfold Exp, readInt, writeInt.
  rewrite (bind_Ok _ _ h (Qnum qu) h).
  2:{ now rewrite (bind_Ok _ _ h qu h) by now apply load_Some. }
  rewrite (bind_Ok _ _ h (Qnum qv) h).
  2:{ now rewrite (bind_Ok _ _ h qv h) by now apply load_Some. }
  rewrite (bind_Ok _ _ h qu h) by now apply load_Some.
  now apply store_Some with qu.
Qed.

Lemma Exp_Denom (lu lv : loc) (h : Heap) (qu qv : Q) :
  h !! lu = Some qu -> h !! lv = Some qv ->
  Exp (Denom lu) (Denom lu) (Num lv) h =
    (Ok tt, <[lu := Qmake (Qnum qu) (Z.to_pos (bigExp (Zpos (Qden qu)) (Qnum qv)))]> h).
Proof.
  intros Hu Hv. unfold Exp, readInt, writeInt.
  rewrite (bind_Ok _ _ h (Zpos (Qden qu)) h).
  2:{ now rewrite (bind_Ok _ _ h qu h) by now apply load_Some. }
  rewrite (bind_Ok _ _ h (Qnum qv) h).
  2:{ now rewrite (bind_Ok _ _ h qv h) by now apply load_Some. }
  rewrite (bind_Ok _ _ h qu h) by now apply load_Some.
  now apply store_Some with qu.
Qed.

Lemma pos_pow_pos (d : positive) (e : Z) : (0 <= e)%Z -> (0 < Zpos d ^ e)%Z.
Proof. intros. apply Z.pow_pos_nonneg; lia. Qed.

Lemma mkRat_pos (a b : Z) : (0 < b)%Z -> (mkRat a b == Qmake a (Z.to_pos b))%Q.
Proof.
  intros Hb. unfold mkRat. rewrite Qred_correct.
  rewrite Z.sgn_pos, Z.mul_1_r, Z.abs_eq by lia. reflexivity.
Qed.

Lemma mkRat_coprime (a b : Z) :
  (0 < b)%Z -> Z.gcd a b = 1%Z -> mkRat a b = Qmake a (Z.to_pos b).
Proof.
  intros Hb Hg. unfold mkRat.
  rewrite Z.sgn_pos, Z.mul_1_r, Z.abs_eq by lia.
  apply Qred_identity. cbn. now rewrite Z2Pos.id.
Qed.

(** The BigRat entry of [pow] at a positive exponent: the numerator and
    then the denominator of the base are raised in place, and the
    result is a new cell. *)
Lemma pow_bigRat_run (f : binaryFn) (rec : BinaryFn) (lu lv : loc) (h : Heap)
    (qu : Q) (e : Z) :
  op_fn ops.pow bigRatType = Some f ->
  h !! lu = Some qu -> h !! lv = Some (inject_Z e) -> (0 < e)%Z ->
  let p := Qmake (Qnum qu ^ e) (Z.to_pos (Zpos (Qden qu) ^ e)) in
  f rec (BigRat lu) (BigRat lv) h =
    (Ok (BigRat (length h)),
     <[lu := p]> h ++ [mkRat (Qnum qu ^ e) (Zpos (Qden qu) ^ e)]).
Proof.
  intros [= <-] Hu Hv He p. cbn [asBigRat].
  rewrite (bind_Ok (ret _) _ h lv h) by reflexivity.
  rewrite (bind_Ok _ _ _ _ _ (load_Some _ _ _ Hv)).
  unfold ratSign. cbn [inject_Z Qnum].
  destruct e as [|e'|e']; try lia. cbn [Z.sgn].
  rewrite (bind_Ok (ret _) _ h lu h) by reflexivity.
  set (e := Z.pos e') in *.
  pose proof (lookup_lt_Some _ _ _ Hu) as Hlen.
  (* the numerator *)
  rewrite (bind_Ok _ _ _ _ _ (Exp_Num lu lv h qu _ Hu Hv)).
  cbn [inject_Z Qnum]. rewrite bigExp_pos by assumption.
  set (h1 := <[lu := Qmake (Qnum qu ^ e) (Qden qu)]> h).
  assert (Hu1 : h1 !! lu = Some (Qmake (Qnum qu ^ e) (Qden qu))).
  { now apply list_lookup_insert_eq. }
  (* the denominator; the exponent is read again, from the cell of the
     exponent, which is the base's own cell when the two are one *)
  assert (exists qv, h1 !! lv = Some qv /\
          Z.to_pos (bigExp (Zpos (Qden qu)) (Qnum qv)) = Z.to_pos (Zpos (Qden qu) ^ e))
    as (qv & Hv1 & Hd).
  { destruct (decide (lu = lv)) as [<-|Hne].
    - eexists. split; [exact Hu1|]. cbn [Qnum].
      assert (qu = inject_Z e) as -> by congruence.
      cbn [inject_Z Qden Qnum]. unfold bigExp.
      assert (0 <= e ^ e)%Z by (apply Z.pow_nonneg; lia).
      destruct (_ <=? 0)%Z; now rewrite !Z.pow_1_l by lia.
    - exists (inject_Z e). split.
      + unfold h1. now rewrite list_lookup_insert_ne.
      + cbn [inject_Z Qnum]. now rewrite bigExp_pos. }
  rewrite (bind_Ok _ _ _ _ _ (Exp_Denom lu lv h1 _ qv Hu1 Hv1)).
  cbn [Qnum Qden]. rewrite Hd. unfold h1. rewrite list_insert_insert_eq.
  fold p. set (h2 := <[lu := p]> h).
  assert (Hu2 : h2 !! lu = Some p) by now apply list_lookup_insert_eq.
  assert (Hl2 : length h2 = length h) by apply length_insert.
  (* the result *)
  rewrite (bind_Ok (bigRatInt64 0) _ h2 (BigRat (length h)) (h2 ++ [mkRat 0 1])).
  2:{ unfold bigRatInt64, bigRatTwoInt64s, newRat, bind, ret. cbn. now rewrite Hl2. }
  cbn [asBigRat]. rewrite (bind_Ok (ret _) _ _ (length h) (h2 ++ [mkRat 0 1])) by reflexivity.
  assert (Hu3 : (h2 ++ [mkRat 0 1]) !! lu = Some p) by now apply lookup_app_l_Some.
  pose proof (pos_pow_pos (Qden qu) e ltac:(lia)) as Hpos.
  rewrite (bind_Ok (SetFrac _ _ _) _ _ tt
             (h2 ++ [mkRat (Qnum qu ^ e) (Zpos (Qden qu) ^ e)])); [reflexivity|].
  unfold SetFrac, readInt.
  rewrite (bind_Ok _ _ _ (Qnum qu ^ e)%Z (h2 ++ [mkRat 0 1])).
  2:{ now rewrite (bind_Ok _ _ _ p _) by now apply load_Some. }
  rewrite (bind_Ok _ _ _ (Zpos (Qden qu) ^ e)%Z (h2 ++ [mkRat 0 1])).
  2:{ rewrite (bind_Ok _ _ _ p _) by now apply load_Some.
      unfold ret, p. cbn [Qden]. now rewrite Z2Pos.id. }
  destruct (Z.eqb_spec (Zpos (Qden qu) ^ e) 0); [lia|].
  rewrite <- Hl2. apply store_fresh.
Qed.

Lemma mkRat_int (x : Z) : mkRat x 1 = inject_Z x.
Proof.
  rewrite mkRat_coprime by (try apply Z.gcd_1_r; lia). reflexivity.
Qed.

(** C7: at the BigInt rank [**] gives 1 for a zero exponent, fails for a
    negative one and is the integer power otherwise; the BigRat entry,
    at a non-negative integral exponent [e], gives the rational
    num(u)^e / den(u)^e, numerator and denominator raised separately
    (the values of the base before the call). *)
Theorem pow_spec :
  binaryOps !! "**" = Some ops.pow /\
  (forall (bu bv : bool) (x y : Z) (h : Heap),
     let u := integer bu x in
     let v := integer bv y in
     op_whichType ops.pow (whichType u) (whichType v) = bigIntType /\
     Binary u "**" v h =
       (match (y ?= 0)%Z with
        | Eq => Ok (Int 1)
        | Lt => Panic negative_exponent_not_implemented
        | Gt => Ok (BigInt_shrink (x ^ y))
        end, h)) /\
  (exists f, op_fn ops.pow bigRatType = Some f /\
     forall (rec : BinaryFn) (lu lv : loc) (h : Heap) (qu : Q) (e : Z),
       h !! lu = Some qu -> h !! lv = Some (inject_Z e) -> (0 <= e)%Z ->
       let p := Qmake (Qnum qu ^ e) (Z.to_pos (Zpos (Qden qu) ^ e)) in
       exists r h',
         f rec (BigRat lu) (BigRat lv) h = (Ok r, h') /\
         (valueQ h' r == p)%Q /\
         (Qred qu = qu -> (0 < e)%Z ->
          exists l, r = BigRat l /\ h' !! l = Some p)) /\
  (forall (lu : loc) (bv : bool) (e : Z) (h : Heap) (qu : Q),
     h !! lu = Some qu -> (0 <= e)%Z ->
     exists r h',
       Binary (BigRat lu) "**" (integer bv e) h = (Ok r, h') /\
       (valueQ h' r == Qmake (Qnum qu ^ e) (Z.to_pos (Zpos (Qden qu) ^ e)))%Q).
Proof.
  assert (PowRat :
     forall (rec : BinaryFn) (lu lv : loc) (h : Heap) (qu : Q) (e : Z) f,
       op_fn ops.pow bigRatType = Some f ->
       h !! lu = Some qu -> h !! lv = Some (inject_Z e) -> (0 <= e)%Z ->
       let p := Qmake (Qnum qu ^ e) (Z.to_pos (Zpos (Qden qu) ^ e)) in
       exists r h',
         f rec (BigRat lu) (BigRat lv) h = (Ok r, h') /\
         (valueQ h' r == p)%Q /\
         (Qred qu = qu -> (0 < e)%Z ->
          exists l, r = BigRat l /\ h' !! l = Some p) /\
         allocated h' r).
  { intros rec lu lv h qu e f Hf Hu Hv He p.
    destruct (Z.eq_dec e 0%Z) as [->|Hne].
    - exists (Int 1), h. injection Hf as <-. split; [|split; [|split]].
      + cbn [asBigRat]. rewrite (bind_Ok (ret _) _ h lv h) by reflexivity.
        now rewrite (bind_Ok _ _ _ _ _ (load_Some _ _ _ Hv)).
      + reflexivity.
      + lia.
      + exact I.
    - assert (0 < e)%Z as Hpos by lia.
      pose proof (pos_pow_pos (Qden qu) e He) as Hd.
      eexists _, _. split; [|split; [|split]].
      + now apply pow_bigRat_run with (qu := qu) (e := e).
      + cbn [valueQ]. rewrite <- (length_insert h lu p) at 1.
        rewrite list_lookup_middle by reflexivity. cbn [default].
        now apply mkRat_pos.
      + intros Hc _. exists (length h). split; [reflexivity|].
        rewrite <- (length_insert h lu p) at 1.
        rewrite list_lookup_middle by reflexivity. f_equal.
        apply mkRat_coprime; [assumption|].
        apply Z.coprime_pow_l, Z.coprime_pow_r; try lia.
        now apply Qred_identity2.
      + cbn [allocated]. rewrite <- (length_insert h lu p) at 1.
        rewrite list_lookup_middle by reflexivity. eauto. }
  split; [reflexivity|]. split; [|split].
  - intros bu bv x y h u v.
    assert (Hw : op_whichType ops.pow (whichType u) (whichType v) = bigIntType).
    { now destruct bu, bv. }
    split; [exact Hw|].
    assert (Disp : Binary_dispatch Binary u "**" v h =
      (match (y ?= 0)%Z with
       | Eq => Ok (Int 1)
       | Lt => Panic negative_exponent_not_implemented
       | Gt => Ok (BigInt_shrink (x ^ y))
       end, h)).
    { unfold Binary_dispatch.
      replace (binaryOps !! "**") with (Some ops.pow) by reflexivity.
      cbv zeta. rewrite Hw. cbn [ops.pow op_fn].
      assert (Hu : ToType u bigIntType h = (Ok (BigInt x), h)) by now destruct bu.
      assert (Hv : ToType v bigIntType h = (Ok (BigInt y), h)) by now destruct bv.
      rewrite (bind_Ok _ _ _ _ _ Hu), (bind_Ok _ _ _ _ _ Hv).
      cbn [asBigInt]. rewrite (bind_Ok (ret _) _ h y h) by reflexivity.
      destruct y as [|y'|y']; reflexivity. }
    destruct (y ?= 0)%Z.
    + now apply (Binary_ok _ _ _ _ _ _ Disp).
    + now apply Binary_panic.
    + apply (Binary_ok _ _ _ _ _ _ Disp), shrink_BigInt_shrink.
  - eexists. split; [reflexivity|]. intros rec lu lv h qu e Hu Hv He p.
    destruct (PowRat rec lu lv h qu e _ eq_refl Hu Hv He) as (r & h' & ? & ? & ? & _).
    eauto.
  - intros lu bv e h qu Hu He.
    assert (Hw : op_whichType ops.pow (whichType (BigRat lu))
                   (whichType (integer bv e)) = bigRatType) by now destruct bv.
    destruct (op_fn ops.pow bigRatType) as [f|] eqn:Hf; [|discriminate].
    destruct (PowRat Binary lu (length h) (h ++ [inject_Z e]) qu e f eq_refl)
      as (r & h' & Hrun & Hval & _ & Hal); try assumption.
    { now apply lookup_app_l_Some. }
    { now apply list_lookup_middle. }
    assert (Disp : Binary_dispatch Binary (BigRat lu) "**" (integer bv e) h = (Ok r, h')).
    { unfold Binary_dispatch.
      replace (binaryOps !! "**") with (Some ops.pow) by reflexivity.
      cbv zeta. rewrite Hw, Hf.
      rewrite (bind_Ok (ToType _ _) _ h (BigRat lu) h) by reflexivity.
      rewrite (bind_Ok (ToType _ _) _ h (BigRat (length h)) (h ++ [inject_Z e])).
      2:{ destruct bv; cbn; unfold bigRatInt64, bigRatTwoInt64s, newRat, bind, ret; cbn;
          now rewrite mkRat_int. }
      exact Hrun. }
    rewrite (Binary_shrinks _ _ _ _ _ _ Disp).
    destruct (shrink_value r h' Hal) as (r' & -> & Hv').
    exists r', h'. split; [reflexivity|]. now rewrite Hv'.
Qed.

(** C7 at (2/3)**2 and at 2**10. *)
Lemma pow_spec_witness :
  Binary (Int 2) "**" (Int 10) [] = (Ok (Int 1024), []) /\
  exists r h',
    Binary (BigRat 0) "**" (Int 2) [Qmake 2 3] = (Ok r, h') /\
    (valueQ h' r == Qmake 4 9)%Q.
Proof.
  destruct pow_spec as (_ & Hint & _ & Hrat). split.
  - exact (proj2 (Hint false false 2 10 [])%Z).
  - apply (Hrat 0%nat false 2%Z [Qmake 2 3] (Qmake 2 3)); [reflexivity | lia].
Defined.

(** ** Vectors *)

(** Shrinking leaves the result of [binaryVectorOp], a vector, as it
    is. *)
Lemma shrink_after_bind {A} (m : HM A) (k : A -> HM Value) (h : Heap) :
  (forall a s, (r <- k a ;; shrink r) s = k a s) ->
  (r <- (x <- m ;; k x) ;; shrink r) h = (x <- m ;; k x) h.
Proof.
  intros H. unfold bind at 1 2 3. destruct (m h) as [[a| |] s]; try reflexivity.
  apply H.
Qed.

Lemma binaryVectorOp_shrink (rec : BinaryFn) (i j : Value) (op : string) (h : Heap) :
  (r <- binaryVectorOp rec i op j ;; shrink r) h = binaryVectorOp rec i op j h.
Proof.
  assert (End_ : forall (A : Type) (f : A -> HM Value) (l : list A) (s : Heap),
    (r <- (n <- mapM f l ;; ret (ValueSlice n)) ;; shrink r) s =
    (n <- mapM f l ;; ret (ValueSlice n)) s).
  { intros A f l s. apply shrink_after_bind. reflexivity. }
  unfold binaryVectorOp.
  apply shrink_after_bind. intros u s. apply shrink_after_bind. intros v s'.
  destruct u as [|u0 [|u1 u]]; try apply End_;
    (destruct v as [|v0 [|v1 v]]; try apply End_);
    apply shrink_after_bind; intros; apply End_.
Qed.

Lemma Binary_vectors (name name' : string) (op : binaryOp) (u v : list Value) (h : Heap) :
  binaryOps !! name = Some op ->
  op_whichType op vectorType vectorType = vectorType ->
  op_fn op vectorType = Some (onVectors name') ->
  Binary (Vector u) name (Vector v) h =
    binaryVectorOp Binary (Vector u) name' (Vector v) h.
Proof.
  intros Hop Hw Hf. rewrite Binary_unfold. unfold Binary_body, Binary_dispatch.
  rewrite Hop. cbv zeta. cbn [whichType]. rewrite Hw, Hf.
  apply (binaryVectorOp_shrink Binary (Vector u) (Vector v) name' h).
Qed.

(** Every operator of the table has a vector entry, which is
    [binaryVectorOp] under some name. *)
Lemma binaryOps_vector_entry (name : string) (op : binaryOp) :
  binaryOps !! name = Some op ->
  op_whichType op vectorType vectorType = vectorType /\
  exists name', op_fn op vectorType = Some (onVectors name').
Proof.
  intros H. now destruct (binaryOps_regular name op H) as (_ & _ & ? & ?).
Qed.

(** C2, where the code departs from it: the vector entry of [max] calls
    [binaryVectorOp] with the name "min", so [max] of two vectors is
    their elementwise [min]. At [1 2] and [2 1] the result is [1 1],
    and the scalar [max] of the elements is 2 and 2. *)
Theorem max_of_vectors_is_min :
  op_fn ops.max vectorType = Some (onVectors "min") /\
  (forall (u v : list Value) (h : Heap),
     Binary (Vector u) "max" (Vector v) h = Binary (Vector u) "min" (Vector v) h) /\
  Binary (Vector [Int 1; Int 2]) "max" (Vector [Int 2; Int 1]) [] =
    (Ok (Vector [Int 1; Int 1]), []) /\
  Binary (Int 1) "max" (Int 2) [] = (Ok (Int 2), []) /\
  Binary (Int 2) "max" (Int 1) [] = (Ok (Int 2), []).
Proof.
  split; [reflexivity|]. split; [|repeat split].
  intros u v h.
  rewrite (Binary_vectors "max" "min" ops.max) by reflexivity.
  now rewrite (Binary_vectors "min" "min" ops.min) by reflexivity.
Qed.

(** C3, where the code departs from it: the BigRat entry of [pow] raises
    the numerator and the denominator of the base through the
    references that [Num] and [Denom] return, so the cell of the base
    holds the power afterwards. A BigRat operand is passed to the entry
    as it is, and the value 1/2 reads 1/4 after [(1/2) ** 2]. *)
Theorem pow_overwrites_bigRat_base :
  (forall (lu : loc) (e : Z) (h : Heap) (qu : Q),
     h !! lu = Some qu -> (0 < e)%Z ->
     exists r h',
       Binary (BigRat lu) "**" (Int e) h = (Ok r, h') /\
       valueQ h (BigRat lu) = qu /\
       valueQ h' (BigRat lu) = Qmake (Qnum qu ^ e) (Z.to_pos (Zpos (Qden qu) ^ e))) /\
  Binary (BigRat 0) "**" (Int 2) [Qmake 1 2] =
    (Ok (BigRat 2), [Qmake 1 4; Qmake 2 1; Qmake 1 4]) /\
  valueQ [Qmake 1 2] (BigRat 0) = Qmake 1 2 /\
  valueQ [Qmake 1 4; Qmake 2 1; Qmake 1 4] (BigRat 0) = Qmake 1 4 /\
  (* the entry of the table itself, on the two operands as BigRats *)
  (exists f, op_fn ops.pow bigRatType = Some f /\
     f Binary (BigRat 0) (BigRat 1) [Qmake 1 2; Qmake 2 1] =
       (Ok (BigRat 2), [Qmake 1 4; Qmake 2 1; Qmake 1 4])).
Proof.
  split; [|repeat split; eexists; split; reflexivity].
  intros lu e h qu Hu He.
  destruct (op_fn ops.pow bigRatType) as [f|] eqn:Hf; [|discriminate].
  pose proof (lookup_lt_Some _ _ _ Hu) as Hlen.
  set (p := Qmake (Qnum qu ^ e) (Z.to_pos (Zpos (Qden qu) ^ e))).
  set (h1 := h ++ [inject_Z e]).
  set (h' := <[lu := p]> h1 ++ [mkRat (Qnum qu ^ e) (Zpos (Qden qu) ^ e)]).
  assert (Disp : Binary_dispatch Binary (BigRat lu) "**" (Int e) h =
                   (Ok (BigRat (length h1)), h')).
  { unfold Binary_dispatch.
    replace (binaryOps !! "**") with (Some ops.pow) by reflexivity.
    cbv zeta. cbn [whichType].
    change (op_whichType ops.pow bigRatType intType) with bigRatType. rewrite Hf.
    rewrite (bind_Ok (ToType _ _) _ h (BigRat lu) h) by reflexivity.
    rewrite (bind_Ok (ToType _ _) _ h (BigRat (length h)) h1).
    2:{ cbn. unfold bigRatInt64, bigRatTwoInt64s, newRat, bind, ret; cbn.
        now rewrite mkRat_int. }
    apply (pow_bigRat_run f Binary lu (length h) h1 qu e Hf);
      [ now apply lookup_app_l_Some | now apply list_lookup_middle | assumption ]. }
  rewrite (Binary_shrinks _ _ _ _ _ _ Disp).
  destruct (shrink_value (BigRat (length h1)) h') as (r' & -> & _).
  { cbn [allocated]. unfold h'. rewrite <- (length_insert h1 lu p) at 1.
    rewrite list_lookup_middle by reflexivity. eauto. }
  exists r', h'. split; [reflexivity|]. cbn [valueQ]. rewrite Hu. split; [reflexivity|].
  unfold h', h1.
  rewrite lookup_app_l by (rewrite length_insert, length_app; lia).
  rewrite list_lookup_insert_eq by (rewrite length_app; lia). reflexivity.
Qed.

Lemma bind_mapM_length {S A} (f : A -> M S Value) (l : list A) s r s' :
  (n <- mapM f l ;; ret (ValueSlice n)) s = (Ok r, s') ->
  exists n, r = Vector n /\ length n = length l.
Proof.
  unfold bind. destruct (mapM f l s) as [[n| |] s1] eqn:E; try discriminate.
  unfold ret. intros [= <- _]. exists n. split; [reflexivity|].
  eapply mapM_length, E.
Qed.

(** The vector entry of every operator of the table is
    [binaryVectorOp] under the operator's own name, but that of [max],
    which names "min". *)
Lemma vector_entries :
  Forall (fun no : string * binaryOp =>
            op_fn (snd no) vectorType =
              Some (onVectors (if decide (fst no = "max") then "min" else fst no)))
         binaryOpsList.
Proof.
  unfold binaryOpsList.
  repeat (apply List.Forall_cons; [reflexivity|]). apply List.Forall_nil.
Qed.

(** C6: for every operator of the table, two vectors are combined by
    [binaryVectorOp]: a left operand of one element is applied against
    every element of the right one, else a right operand of one element
    against every element of the left one, else the lengths must agree,
    and a mismatch is a panic that reports both lengths and leaves no
    result. A result has the length of the longer operand. The operator
    applied to the elements is the operator itself, for every operator
    but [max], where it is [min]: there the code departs from the
    claim, and [5 max 1 2 3] is [1 2 3], where the [max] of 5 and each
    element is 5. *)
Theorem vector_broadcast (name : string) (op : binaryOp) (u v : list Value) (h : Heap) :
  binaryOps !! name = Some op ->
  let applied := if decide (name = "max") then "min" else name in
  op_fn op vectorType = Some (onVectors applied) /\
  Binary (Vector u) name (Vector v) h =
    binaryVectorOp Binary (Vector u) applied (Vector v) h /\
  (forall u0, u = [u0] ->
     Binary (Vector u) name (Vector v) h =
       (n <- mapM (fun vk => Binary u0 applied vk) v ;; ret (Vector n)) h) /\
  (length u <> 1%nat -> forall v0, v = [v0] ->
     Binary (Vector u) name (Vector v) h =
       (n <- mapM (fun uk => Binary uk applied v0) u ;; ret (Vector n)) h) /\
  (length u <> 1%nat -> length v <> 1%nat -> length u <> length v ->
     Binary (Vector u) name (Vector v) h =
       (Panic (length_mismatch (length u) (length v)), h)) /\
  (forall r h', Binary (Vector u) name (Vector v) h = (Ok r, h') ->
     exists n, r = Vector n /\
               length n = if decide (length u = 1%nat) then length v else length u) /\
  (* where the operator is [max] *)
  Binary (Vector [Int 5]) "max" (Vector [Int 1; Int 2; Int 3]) [] =
    (Ok (Vector [Int 1; Int 2; Int 3]), []) /\
  (forall x, x ∈ [1; 2; 3]%Z -> Binary (Int 5) "max" (Int x) [] = (Ok (Int 5), [])).
Proof.
  intros Hop applied.
  assert (Hf : op_fn op vectorType = Some (onVectors applied)).
  { pose proof vector_entries as F. rewrite Forall_forall in F.
    apply (F (name, op)). now apply elem_of_list_to_map_2. }
  clearbody applied.
  destruct (binaryOps_vector_entry name op Hop) as (Hw & _).
  split; [exact Hf|].
  pose proof (Binary_vectors name applied op u v h Hop Hw Hf) as Run.
  split; [exact Run|]. rewrite Run. clear Run.
  unfold binaryVectorOp. cbn [asVector].
  rewrite !(bind_Ok (ret _) _ h _ h) by reflexivity.
  split; [|split; [|split; [|split; [|split]]]].
  - now intros u0 ->.
  - intros Hu v0 ->. destruct u as [|u0 [|u1 u]]; reflexivity.
  - intros Hu Hv Hne.
    destruct u as [|u0 [|u1 u]]; [|now destruct Hu|];
      (destruct v as [|v0 [|v1 v]]; [|now destruct Hv|]);
      try (now destruct Hne);
      unfold bind, sameLength, Len; destruct (decide _); try reflexivity; contradiction.
  - intros r h'.
    destruct u as [|u0 [|u1 u]].
    + destruct v as [|v0 [|v1 v]].
      * unfold bind, sameLength. cbn. intros [= <- _]. now exists [].
      * intros H. apply bind_mapM_length in H. exact H.
      * unfold bind, sameLength, Len. destruct (decide _); discriminate.
    + intros H. apply bind_mapM_length in H. exact H.
    + destruct v as [|v0 [|v1 v]].
      * unfold bind, sameLength, Len. destruct (decide _); discriminate.
      * intros H. apply bind_mapM_length in H. exact H.
      * unfold bind at 1. unfold sameLength, Len.
        destruct (decide _) as [E|E]; [|discriminate]. unfold ret at 1.
        intros H. apply bind_mapM_length in H as (n & -> & Hn).
        exists n. split; [reflexivity|]. rewrite Hn, length_zip.
        cbn [decide]. destruct (decide _); [discriminate|]. lia.
  - vm_compute; reflexivity.
  - intros x Hx. repeat (apply elem_of_cons in Hx as [->|Hx]; [vm_compute; reflexivity|]).
    now apply elem_of_nil in Hx.
Qed.

(** C6 at [1 2 + 1 2 3] and at [5 + 1 2 3]. *)
Lemma vector_broadcast_witness :
  Binary (Vector [Int 1; Int 2]) "+" (Vector [Int 1; Int 2; Int 3]) [] =
    (Panic (length_mismatch 2 3), []) /\
  Binary (Vector [Int 5]) "+" (Vector [Int 1; Int 2; Int 3]) [] =
    (n <- mapM (fun vk => Binary (Int 5) "+" vk) [Int 1; Int 2; Int 3] ;;
     ret (Vector n)) [] /\
  Binary (Vector [Int 5]) "+" (Vector [Int 1; Int 2; Int 3]) [] =
    (Ok (Vector [Int 6; Int 7; Int 8]), []).
Proof.
  split; [|split].
  - destruct (vector_broadcast "+" ops.add [Int 1; Int 2] [Int 1; Int 2; Int 3] []
                eq_refl) as (_ & _ & _ & _ & H & _).
    apply H; cbn; lia.
  - destruct (vector_broadcast "+" ops.add [Int 5] [Int 1; Int 2; Int 3] []
                eq_refl) as (_ & _ & H & _).
    exact (H (Int 5) eq_refl).
  - vm_compute; reflexivity.
Defined.

(** ** Literals are scalars *)

Lemma BigInt_shrink_scalar (x : Z) : isScalar (BigInt_shrink x).
Proof. unfold BigInt_shrink. now destruct (_ && _). Qed.

Lemma BigRat_shrink_scalar (l : loc) (h h' : Heap) (x : Value) :
  BigRat_shrink l h = (Ok x, h') -> isScalar x.
Proof.
  unfold BigRat_shrink, bind. destruct (load l h) as [[q| |] h1]; try discriminate.
  destruct (ratIsInt q); unfold ret; intros [= <- _];
    [apply BigInt_shrink_scalar | discriminate].
Qed.

Lemma binaryBigRatOp_scalar (u v : Value) (op : Q -> Q -> Q) (h h' : Heap) (x : Value) :
  binaryBigRatOp u op v h = (Ok x, h') -> isScalar x.
Proof.
  unfold binaryBigRatOp. intros H.
  repeat (unfold bind at 1 in H;
          match type of H with
          | match ?m ?s with _ => _ end = _ =>
              destruct (m s) as [[?| |] ?]; try discriminate H
          end).
  eapply BigRat_shrink_scalar, H.
Qed.

Section ValueString.
Variable SetIntString : string -> OrErr Z.
Variable SetBigIntString : string -> OrErr Z.
Variable SetBigRatString : string -> OrErr Q.

Lemma ValueString_body_scalar self (s : string) (h h' : Heap) (x : Value) :
  ValueString_body SetIntString SetBigIntString SetBigRatString self s h = (Ok (Good x), h') ->
  isScalar x.
Proof.
  unfold ValueString_body. destruct (ContainsRune s "/").
  - destruct (Split s "/") as [|e0 [|e1 [|]]]; try discriminate.
    unfold bind at 1. destruct (self e0 h) as [[[num|err]| |] h1]; try discriminate.
    unfold bind at 1. destruct (self e1 h1) as [[[den|err]| |] h2]; try discriminate.
    assert (General : forall h2,
      (rden <- ToType den bigRatType;;
       l <- asBigRat rden;;
       q <- load l;;
       (if (ratSign q =? 0)%Z
        then panic zero_denominator_in_rational
        else
         rnum <- ToType num bigRatType;;
         x0 <- binaryBigRatOp rnum ratQuo rden;; ret (Good x0))) h2 = (Ok (Good x), h') ->
      isScalar x).
    { clear. intros h2 H.
      unfold bind at 1 in H. destruct (ToType den bigRatType h2) as [[rden| |] h3]; try discriminate.
      unfold bind at 1 in H. destruct (asBigRat rden h3) as [[l| |] h4]; try discriminate.
      unfold bind at 1 in H. destruct (load l h4) as [[q| |] h5]; try discriminate.
      destruct (ratSign q =? 0)%Z; try discriminate.
      unfold bind at 1 in H. destruct (ToType num bigRatType h5) as [[rnum| |] h6]; try discriminate.
      unfold bind at 1 in H.
      destruct (binaryBigRatOp rnum ratQuo rden h6) as [[x0| |] h7] eqn:E; try discriminate.
      injection H as <- _. eapply binaryBigRatOp_scalar, E. }
    destruct num as [n| | |]; try apply General.
    destruct den as [d| | |]; try apply General.
    intros H.
    unfold bind at 1 in H. destruct (bigRatTwoInt64s n d h2) as [[q| |] h3]; try discriminate.
    unfold bind at 1 in H. destruct (asBigRat q h3) as [[l| |] h4]; try discriminate.
    unfold bind at 1 in H. destruct (BigRat_shrink l h4) as [[x0| |] h5] eqn:E; try discriminate.
    injection H as <- _. eapply BigRat_shrink_scalar, E.
  - destruct (SetIntString s).
    { intros [= <- _]. discriminate. }
    destruct (SetBigIntString s).
    { intros [= <- _]. apply BigInt_shrink_scalar. }
    destruct (SetBigRatString s); [|discriminate].
    intros H.
    unfold bind at 1 in H. destruct (newRat a h) as [[l| |] h4]; try discriminate.
    unfold bind at 1 in H. destruct (BigRat_shrink l h4) as [[x0| |] h5] eqn:E; try discriminate.
    injection H as <- _. eapply BigRat_shrink_scalar, E.
Qed.
End ValueString.

(** ** [Binary] is total *)

Lemma noTimeout_ret {S A} (a : A) : noTimeout (S := S) (ret a).
Proof. intros s. discriminate. Qed.

Lemma noTimeout_panic {S A} (e : Error) : noTimeout (S := S) (A := A) (panic e).
Proof. intros s. discriminate. Qed.

Lemma noTimeout_bind {S A B} (m : M S A) (k : A -> M S B) :
  noTimeout m -> (forall a, noTimeout (k a)) -> noTimeout (bind m k).
Proof.
  intros Hm Hk s. unfold bind. specialize (Hm s).
  destruct (m s) as [[a| |] s1]; [apply Hk | discriminate | contradiction].
Qed.

Lemma noTimeout_load (l : loc) : noTimeout (load l).
Proof. intros h. unfold load. now destruct (h !! l). Qed.

Lemma noTimeout_store (l : loc) (q : Q) : noTimeout (store l q).
Proof. intros h. unfold store. now destruct (h !! l). Qed.

Lemma noTimeout_newRat (q : Q) : noTimeout (newRat q).
Proof. intros h. discriminate. Qed.

Lemma noTimeout_mapM {S A B} (f : A -> M S B) (l : list A) :
  (forall x, x ∈ l -> noTimeout (f x)) -> noTimeout (mapM f l).
Proof.
  induction l as [|a l IH]; intros H; cbn [mapM].
  - apply noTimeout_ret.
  - apply noTimeout_bind; [apply H; constructor|]. intros b.
    apply noTimeout_bind; [|intros; apply noTimeout_ret].
    apply IH. intros x Hx. apply H. now constructor.
Qed.

Ltac no_timeout :=
  repeat first
    [ apply noTimeout_ret | apply noTimeout_panic | apply noTimeout_load
    | apply noTimeout_store | apply noTimeout_newRat
    | apply noTimeout_bind; [|intros]
    | match goal with
      | |- noTimeout (match ?x with _ => _ end) => destruct x
      | |- noTimeout (if ?b then _ else _) => destruct b
      | |- noTimeout (let _ := _ in _) => cbv zeta
      end ].

Lemma scalar_entries_noTimeout :
  Forall (fun no => forall t f, t <> vectorType -> op_fn (snd no) t = Some f ->
                    forall r u v, noTimeout (f r u v)) binaryOpsList.
Proof.
  unfold binaryOpsList.
  repeat (apply List.Forall_cons; [|]); try apply List.Forall_nil.
  all: cbn [snd]; intros [] f Ht; try contradiction; cbn; intros [= <-] r u v.
  all: unfold onInts, onBigInts, onBigRats, binaryBigIntOp, binaryBigRatOp, Exp, SetFrac,
         readInt, writeInt, BigRat_shrink, bigRatInt64, bigRatTwoInt64s, shiftCount,
         asInt, asBigInt, asBigRat.
  all: no_timeout.
Qed.

Lemma ToType_noTimeout (v : Value) (t : valueType) : noTimeout (ToType v t).
Proof.
  destruct v, t; cbn [ToType]; unfold bigRatInt64, bigRatTwoInt64s, bigInt64; no_timeout.
Qed.

Lemma noTimeout_ret_bind {S A B} (a : A) (k : A -> M S B) :
  noTimeout (k a) -> noTimeout (bind (ret a) k).
Proof. intros H s. apply H. Qed.

Lemma noTimeout_panic_bind {S A B} (e : Error) (k : A -> M S B) :
  noTimeout (bind (panic e) k).
Proof. intros s. discriminate. Qed.

Lemma binaryVectorOp_noTimeout (r : BinaryFn) (u v : Value) (op : string) (D : nat) :
  (forall a b, (depth a < D)%nat -> (depth b < D)%nat -> noTimeout (r a op b)) ->
  (depth u <= D)%nat -> (depth v <= D)%nat ->
  noTimeout (binaryVectorOp r u op v).
Proof.
  intros Hr Hu Hv. unfold binaryVectorOp.
  destruct u as [| | |x]; cbn [asVector];
    try apply noTimeout_panic_bind.
  apply noTimeout_ret_bind.
  destruct v as [| | |y]; cbn [asVector];
    try apply noTimeout_panic_bind.
  apply noTimeout_ret_bind.
  assert (Hx : forall e : Value, e ∈ x -> (depth e < D)%nat).
  { intros e He. apply depth_elem in He. lia. }
  assert (Hy : forall e : Value, e ∈ y -> (depth e < D)%nat).
  { intros e He. apply depth_elem in He. lia. }
  assert (Hm : forall (A : Type) (f : A -> HM Value) (l : list A),
             (forall a, a ∈ l -> noTimeout (f a)) ->
             noTimeout (n <- mapM f l ;; ret (ValueSlice n))).
  { intros A f l Hf. apply noTimeout_bind; [now apply noTimeout_mapM|].
    intros; apply noTimeout_ret. }
  destruct x as [|u0 [|u1 x]].
  - destruct y as [|v0 [|v1 y]].
    + apply noTimeout_bind; [unfold sameLength; no_timeout|]. intros _. apply Hm.
      intros a Ha. cbn in Ha. now apply elem_of_nil in Ha.
    + apply Hm. intros a Ha. now apply elem_of_nil in Ha.
    + apply noTimeout_bind; [unfold sameLength; no_timeout|]. intros _. apply Hm.
      intros a Ha. cbn in Ha. now apply elem_of_nil in Ha.
  - apply Hm. intros e He. apply Hr; [apply Hx; constructor | now apply Hy].
  - destruct y as [|v0 [|v1 y]].
    + apply noTimeout_bind; [unfold sameLength; no_timeout|]. intros _. apply Hm.
      intros a Ha. cbn in Ha. now apply elem_of_nil in Ha.
    + apply Hm. intros e He. apply Hr; [now apply Hx | apply Hy; constructor].
    + apply noTimeout_bind; [unfold sameLength; no_timeout|]. intros _. apply Hm.
      intros [a b] He. cbn [fst snd].
      apply elem_of_zip_l in He as Ha. apply elem_of_zip_r in He as Hb.
      apply Hr; [now apply Hx | now apply Hy].
Qed.

Lemma binaryOps_scalar_noTimeout (name : string) (op : binaryOp) :
  binaryOps !! name = Some op ->
  forall t f, t <> vectorType -> op_fn op t = Some f ->
  forall r u v, noTimeout (f r u v).
Proof.
  intros H. apply elem_of_list_to_map_2 in H.
  pose proof scalar_entries_noTimeout as F.
  rewrite Forall_forall in F. apply (F (name, op)), H.
Qed.

Lemma shrink_noTimeout (v : Value) : noTimeout (shrink v).
Proof. destruct v; cbn [shrink]; unfold BigRat_shrink; no_timeout. Qed.

Lemma Binary_fuel_noTimeout (n : nat) (v1 v2 : Value) (op : string) :
  (need v1 v2 <= n)%nat -> noTimeout (Binary_fuel n v1 op v2).
Proof.
  revert v1 v2 op. induction n as [|n IH]; intros v1 v2 op Hn.
  { unfold need in Hn. lia. }
  cbn [Binary_fuel]. unfold Binary_body.
  apply noTimeout_bind; [|intros; apply shrink_noTimeout]. unfold Binary_dispatch.
  destruct (binaryOps !! op) as [o|] eqn:Hop; [|apply noTimeout_panic].
  destruct (binaryOps_regular _ _ Hop) as (Hvec & _ & (name & Hname) & _).
  cbv zeta.
  destruct (decide (op_whichType o (whichType v1) (whichType v2) = vectorType)) as [E|E].
  - rewrite E, Hname.
    assert (1 <= Nat.max (depth v1) (depth v2))%nat as HD.
    { destruct (Hvec _ _ E) as [H|H]; apply whichType_vector_depth in H; lia. }
    intros h.
    destruct (ToType_vector_depth v1 h) as (w1 & E1 & Hw1 & _).
    rewrite (bind_Ok (ToType v1 vectorType) _ h w1 h E1).
    destruct (ToType_vector_depth v2 h) as (w2 & E2 & Hw2 & _).
    rewrite (bind_Ok (ToType v2 vectorType) _ h w2 h E2).
    unfold onVectors.
    apply binaryVectorOp_noTimeout with (D := Nat.max (depth v1) (depth v2)); try lia.
    intros a b Ha Hb. apply IH. unfold need in *. lia.
  - clear Hname. set (t := op_whichType o (whichType v1) (whichType v2)) in *.
    destruct (op_fn o t) as [f|] eqn:Hf; [|apply noTimeout_panic].
    apply noTimeout_bind; [apply ToType_noTimeout|]. intros a.
    apply noTimeout_bind; [apply ToType_noTimeout|]. intros b.
    eapply binaryOps_scalar_noTimeout; eauto.
Qed.

(** [Binary] always returns or panics: the bound on its recursion is
    never reached. *)
Theorem Binary_total (v1 v2 : Value) (op : string) : noTimeout (Binary v1 op v2).
Proof. apply Binary_fuel_noTimeout. reflexivity. Qed.

(** ** [ValueString] is total *)

(** The pieces of [Split] hold no separator. *)
Lemma Split_ContainsRune (s : string) (sep : ascii) (e : string) :
  e ∈ Split s sep -> ContainsRune e sep = false.
Proof.
  revert e. induction s as [|a s IH]; intros e; cbn [Split].
  - intros H. apply list_elem_of_singleton in H. now subst.
  - destruct (Ascii.eqb a sep) eqn:Ea.
    + intros H. apply elem_of_cons in H as [->|H]; [reflexivity | now apply IH].
    + destruct (Split s sep) as [|e0 elems] eqn:Es.
      * intros H. apply list_elem_of_singleton in H. subst. cbn. now rewrite Ea.
      * intros H. apply elem_of_cons in H as [->|H].
        -- cbn. rewrite Ea. apply IH. constructor.
        -- apply IH. now constructor.
Qed.

Section ValueString_total.
Variable SetIntString : string -> OrErr Z.
Variable SetBigIntString : string -> OrErr Z.
Variable SetBigRatString : string -> OrErr Q.

Lemma ValueString_body_noTimeout self (s : string) :
  (forall e, e ∈ Split s "/" -> noTimeout (self e)) ->
  noTimeout (ValueString_body SetIntString SetBigIntString SetBigRatString self s).
Proof.
  intros Hself. unfold ValueString_body.
  destruct (ContainsRune s "/").
  - destruct (Split s "/") as [|e0 [|e1 [|]]]; try apply noTimeout_panic.
    apply noTimeout_bind; [apply Hself; repeat constructor|]. intros [num|err]; [|apply noTimeout_ret].
    apply noTimeout_bind; [apply Hself; repeat constructor|]. intros [den|err]; [|apply noTimeout_ret].
    assert (Hop : forall u v op, noTimeout (binaryBigRatOp u op v)).
    { intros. unfold binaryBigRatOp, BigRat_shrink, bigRatInt64, bigRatTwoInt64s, asBigRat.
      no_timeout. }
    assert (General : noTimeout
      (rden <- ToType den bigRatType;;
       l <- asBigRat rden;;
       q <- load l;;
       (if (ratSign q =? 0)%Z
        then panic zero_denominator_in_rational
        else
         rnum <- ToType num bigRatType;;
         x0 <- binaryBigRatOp rnum ratQuo rden;; ret (Good x0)))).
    { apply noTimeout_bind; [apply ToType_noTimeout|]. intros rden.
      apply noTimeout_bind; [unfold asBigRat; no_timeout|]. intros l.
      apply noTimeout_bind; [apply noTimeout_load|]. intros q.
      destruct (_ =? _)%Z; [apply noTimeout_panic|].
      apply noTimeout_bind; [apply ToType_noTimeout|]. intros rnum.
      apply noTimeout_bind; [apply Hop|]. intros; apply noTimeout_ret. }
    destruct num; try exact General. destruct den; try exact General.
    unfold bigRatTwoInt64s, asBigRat, BigRat_shrink. no_timeout.
  - destruct (SetIntString s); [apply noTimeout_ret|].
    destruct (SetBigIntString s); [apply noTimeout_ret|].
    destruct (SetBigRatString s); [|apply noTimeout_ret].
    unfold BigRat_shrink. no_timeout.
Qed.

(** [ValueString] always returns or panics: the two sides of a rational
    literal are read without a further call. *)
Lemma ValueString_noTimeout (s : string) :
  noTimeout (ValueString SetIntString SetBigIntString SetBigRatString s).
Proof.
  unfold ValueString. apply ValueString_body_noTimeout. intros e He.
  pose proof (Split_ContainsRune s "/" e He) as Hno.
  unfold ValueString_body. rewrite Hno.
  destruct (SetIntString e); [apply noTimeout_ret|].
  destruct (SetBigIntString e); [apply noTimeout_ret|].
  destruct (SetBigRatString e); [|apply noTimeout_ret].
  unfold BigRat_shrink. no_timeout.
Qed.
End ValueString_total.

(** ** More fuel *)

Lemma below_refl {S A} (m : M S A) : below m m.
Proof. now intros s r s' H _. Qed.

Lemma below_timeout {S A} (m : M S A) : below timeout m.
Proof. intros s r s' [= <- _] H. now destruct H. Qed.

Lemma below_trans {S A} (m1 m2 m3 : M S A) : below m1 m2 -> below m2 m3 -> below m1 m3.
Proof. intros H12 H23 s r s' H Hr. apply H23, Hr. apply H12, Hr. exact H. Qed.

Lemma below_bind {S A B} (m m' : M S A) (k k' : A -> M S B) :
  below m m' -> (forall a, below (k a) (k' a)) -> below (bind m k) (bind m' k').
Proof.
  intros Hm Hk s r s'. unfold bind.
  destruct (m s) as [[a| |] s1] eqn:E; intros H Hr.
  - rewrite (Hm s (Ok a) s1 E) by discriminate. now apply Hk.
  - rewrite (Hm s (Panic e) s1 E) by discriminate. exact H.
  - injection H as <- _. now destruct Hr.
Qed.

(** ** The frame of the operators *)

Lemma appends_ret {A} (a : A) : appends (ret a).
Proof. now intros h r h' [= _ <-]. Qed.

Lemma appends_panic {A} (e : Error) : appends (A := A) (panic e).
Proof. now intros h r h' [= _ <-]. Qed.

Lemma appends_timeout {A} : appends (A := A) timeout.
Proof. now intros h r h' [= _ <-]. Qed.

Lemma appends_load (l : loc) : appends (load l).
Proof. intros h r h'. unfold load. now destruct (h !! l); intros [= _ <-]. Qed.

Lemma appends_newRat (q : Q) : appends (newRat q).
Proof. intros h r h' [= _ <-]. now apply prefix_app_r. Qed.

Lemma appends_bind {A B} (m : HM A) (k : A -> HM B) :
  appends m -> (forall a, appends (k a)) -> appends (bind m k).
Proof.
  intros Hm Hk h r h'. unfold bind.
  destruct (m h) as [[a| |] h1] eqn:E; intros H.
  - etransitivity; [eapply Hm, E | eapply Hk, H].
  - injection H as _ <-. eapply Hm, E.
  - injection H as _ <-. eapply Hm, E.
Qed.

Lemma appends_ret_bind {A B} (a : A) (k : A -> HM B) :
  appends (k a) -> appends (bind (ret a) k).
Proof. intros H h r h'. apply H. Qed.

Lemma appends_panic_bind {A B} (e : Error) (k : A -> HM B) :
  appends (bind (panic e) k).
Proof. now intros h r h' [= _ <-]. Qed.

Lemma appends_mapM {A B} (f : A -> HM B) (l : list A) :
  (forall x, x ∈ l -> appends (f x)) -> appends (mapM f l).
Proof.
  induction l as [|a l IH]; intros H; cbn [mapM].
  - apply appends_ret.
  - apply appends_bind; [apply H; constructor|]. intros b.
    apply appends_bind; [|intros; apply appends_ret].
    apply IH. intros x Hx. apply H. now constructor.
Qed.

Ltac appends_tac1 :=
  first
    [ apply appends_ret | apply appends_panic | apply appends_load
    | apply appends_newRat
    | match goal with
      | |- appends (bind _ _) => apply appends_bind; [|intros]
      | |- appends (match ?x with _ => _ end) => destruct x
      | |- appends (if ?b then _ else _) => destruct b
      | |- appends (let _ := _ in _) => cbv zeta
      | |- appends (asInt _) => unfold asInt
      | |- appends (asBigInt _) => unfold asBigInt
      | |- appends (asBigRat _) => unfold asBigRat
      end ].

Ltac appends_tac := repeat appends_tac1.

(** [binaryBigRatOp] writes into the cell that it allocates. *)
Lemma binaryBigRatOp_appends (u v : Value) (op : Q -> Q -> Q) :
  appends (binaryBigRatOp u op v).
Proof.
  unfold binaryBigRatOp.
  destruct u as [| |i|]; cbn [asBigRat]; try apply appends_panic_bind.
  apply appends_ret_bind.
  destruct v as [| |j|]; cbn [asBigRat]; try apply appends_panic_bind.
  apply appends_ret_bind.
  intros h r h'.
  rewrite (bind_Ok (bigRatInt64 0) _ h (BigRat (length h)) (h ++ [mkRat 0 1]))
    by reflexivity.
  cbn [asBigRat]. rewrite (bind_Ok (ret _) _ _ (length h) (h ++ [mkRat 0 1])) by reflexivity.
  unfold bind at 1. destruct (load i _) as [[x| |] h1] eqn:Ei;
    (assert (h1 = h ++ [mkRat 0 1]) as ->
       by (unfold load in Ei; destruct (_ !! i); now injection Ei));
    try (intros [= _ <-]; now apply prefix_app_r).
  unfold bind at 1. destruct (load j _) as [[y| |] h1] eqn:Ej;
    (assert (h1 = h ++ [mkRat 0 1]) as ->
       by (unfold load in Ej; destruct (_ !! j); now injection Ej));
    try (intros [= _ <-]; now apply prefix_app_r).
  rewrite (bind_Ok (store _ _) _ _ tt (h ++ [op x y])) by apply store_fresh.
  intros H. etransitivity; [apply (prefix_app_r h h [op x y]); reflexivity|].
  revert H. unfold BigRat_shrink. generalize (h ++ [op x y]). intros h0 H.
  assert (Hs : appends (BigRat_shrink (length h))) by (unfold BigRat_shrink; appends_tac).
  eapply Hs, H.
Qed.

Lemma ToType_appends (v : Value) (t : valueType) : appends (ToType v t).
Proof.
  destruct v, t; cbn [ToType]; unfold bigRatInt64, bigRatTwoInt64s, bigInt64; appends_tac.
Qed.

Lemma binaryOpsList_framed : Forall framed binaryOpsList.
Proof.
  unfold binaryOpsList.
  repeat (apply List.Forall_cons; [|]); try apply List.Forall_nil.
  all: intros Hname; cbn [fst snd] in *; try (now destruct Hname).
  all: split; [|eexists; split; [reflexivity|discriminate]].
  all: intros [] f Ht; try contradiction; cbn; intros [= <-] r u v.
  all: unfold onInts, onBigInts, onBigRats, binaryBigIntOp, shiftCount.
  all: repeat first [ apply binaryBigRatOp_appends | progress appends_tac1 ].
Qed.
Lemma binaryVectorOp_appends (r : BinaryFn) (u v : Value) (op : string) :
  (forall a b, appends (r a op b)) -> appends (binaryVectorOp r u op v).
Proof.
  intros Hr. unfold binaryVectorOp, sameLength, asVector.
  appends_tac; apply appends_mapM; intros; apply Hr.
Qed.

Lemma shrink_appends (v : Value) : appends (shrink v).
Proof. destruct v; cbn [shrink]; unfold BigRat_shrink; appends_tac. Qed.

Lemma Binary_fuel_appends (n : nat) (name : string) (v1 v2 : Value) :
  name <> "**" -> appends (Binary_fuel n v1 name v2).
Proof.
  revert name v1 v2. induction n as [|n IH]; intros name v1 v2 Hname.
  { apply appends_timeout. }
  cbn [Binary_fuel]. unfold Binary_body.
  apply appends_bind; [|intros; apply shrink_appends]. unfold Binary_dispatch.
  destruct (binaryOps !! name) as [o|] eqn:Hop; [|apply appends_panic].
  apply elem_of_list_to_map_2 in Hop.
  pose proof binaryOpsList_framed as F. rewrite Forall_forall in F.
  destruct (F (name, o) Hop Hname) as (Hscalar & name' & Hvec & Hname').
  cbn [snd] in *. cbv zeta.
  set (t := op_whichType o (whichType v1) (whichType v2)).
  destruct (decide (t = vectorType)) as [E|E].
  - rewrite E, Hvec.
    apply appends_bind; [apply ToType_appends|]. intros a.
    apply appends_bind; [apply ToType_appends|]. intros b.
    apply binaryVectorOp_appends. intros; now apply IH.
  - destruct (op_fn o t) as [f|] eqn:Hf; [|apply appends_panic].
    apply appends_bind; [apply ToType_appends|]. intros a.
    apply appends_bind; [apply ToType_appends|]. intros b.
    now apply (Hscalar t).
Qed.

(** X17. The frame of every operator but the power: evaluating it, on
    scalars or vectors, with a result or a panic, leaves the cell of
    every [big.Rat] as it was, so that both operands read the same
    before and after. The power is the exception. *)
Theorem Binary_frame (name : string) (v1 v2 : Value) (h h' : Heap) (r : Res Value) :
  name <> "**" ->
  Binary v1 name v2 h = (r, h') ->
  (forall l q, h !! l = Some q -> h' !! l = Some q) /\
  (allocated h v1 -> valueQ h' v1 = valueQ h v1) /\
  (allocated h v2 -> valueQ h' v2 = valueQ h v2).
Proof.
  intros Hname Hrun.
  assert (Hp : h `prefix_of` h') by (eapply Binary_fuel_appends; eauto).
  assert (Hl : forall l q, h !! l = Some q -> h' !! l = Some q).
  { intros l q Hq. eapply prefix_lookup_Some; eauto. }
  split; [exact Hl|].
  split; intros Ha;
    match goal with |- valueQ _ ?v = _ => destruct v as [| |l|]; try reflexivity end;
    destruct Ha as [q Hq]; cbn; now rewrite Hq, (Hl _ _ Hq).
Qed.

End value_spec.

(** * Properties of package [parse] *)

Module parse_spec.

Import value value_spec parse.
Local Open Scope go_scope.

(** ** The pushback buffer *)

(** C9: a token pushed back is the next token, and the reader is not
    asked, unless it is an EOF token: the buffer holds "nothing" as an
    EOF token, so [Next] takes a pushed-back EOF for an empty buffer
    and reads the reader's next token. *)
Theorem Back_then_Next (t : scan.Token) (p : Parser) :
  (scan.Typ t ≠ scan.EOF ->
   exists p', (Back t ;; Next) p = (Ok t, p') /\
              lexer p' = lexer p /\ curTok p' = curTok p /\
              peekTok p' = eofToken) /\
  (scan.Typ t = scan.EOF ->
   exists p', (Back t ;; Next) p = (Ok (fst (lex.Next (lexer p))), p') /\
              lexer p' = snd (lex.Next (lexer p)) /\
              curTok p' = fst (lex.Next (lexer p)) /\
              peekTok p' = t).
Proof.
  split; intros Ht.
  - exists (set_peekTok eofToken (set_peekTok t p)). split; [|repeat split].
    unfold Back, Next, bind, modify, gets, ret. cbn.
    destruct (decide _) as [_|E]; [reflexivity | contradiction].
  - exists (set_curTok (fst (lex.Next (lexer p)))
             (set_lexer (snd (lex.Next (lexer p))) (set_peekTok t p))).
    split; [|repeat split].
    unfold Back, Next, bind, modify, gets, ret, lexerNext. cbn.
    destruct (decide _) as [E|_]; [contradiction|].
    change (lexer (set_peekTok t p)) with (lexer p).
    destruct (lex.Next (lexer p)) as [tok l]. reflexivity.
Qed.

(** C9 on a reader that holds one token. *)
Lemma Back_then_Next_witness :
  let p := demo.parser [demo.tok scan.Number "7"] in
  (exists p', (Back (demo.tok scan.Operator "+") ;; Next) p =
                (Ok (demo.tok scan.Operator "+"), p') /\
              lexer p' = lexer p /\ curTok p' = curTok p /\ peekTok p' = eofToken) /\
  (exists p', (Back (demo.tok scan.EOF "pushed") ;; Next) p =
                (Ok (demo.tok scan.Number "7"), p') /\
              lex.tokens (lexer p') = [] /\
              curTok p' = demo.tok scan.Number "7" /\
              peekTok p' = demo.tok scan.EOF "pushed").
Proof.
  intros p. split.
  - apply (proj1 (Back_then_Next (demo.tok scan.Operator "+") p)). discriminate.
  - destruct (proj2 (Back_then_Next (demo.tok scan.EOF "pushed") p) eq_refl)
      as (p' & H1 & H2 & H3 & H4).
    exists p'. rewrite H1, H2, H3, H4. repeat split.
Defined.

Lemma mapM_cons_Ok {S A B} (f : A -> M S B) (a : A) (l : list A) s rs s' :
  mapM f (a :: l) s = (Ok rs, s') ->
  exists b bs s1, f a s = (Ok b, s1) /\ mapM f l s1 = (Ok bs, s') /\ rs = b :: bs.
Proof.
  cbn [mapM]. unfold bind at 1. destruct (f a s) as [[b| |] s1]; try discriminate.
  unfold bind. destruct (mapM f l s1) as [[bs| |] s2] eqn:E; try discriminate.
  unfold ret. intros [= <- <-]. exists b, bs, s1. auto.
Qed.

Lemma isNumber_not_EOF (t : scan.Token) :
  isNumber (scan.Typ t) = true -> scan.Typ t ≠ scan.EOF.
Proof. intros H E. rewrite E in H. discriminate. Qed.

(** [Next] with a token in the buffer. *)
Lemma Next_buffered (p : Parser) :
  scan.Typ (peekTok p) ≠ scan.EOF ->
  Next p = (Ok (peekTok p), set_peekTok eofToken p).
Proof.
  intros H. unfold Next, bind, gets, modify, ret.
  destruct (decide _); [reflexivity | contradiction].
Qed.

(** [Next] with an empty buffer. *)
Lemma Next_empty (p : Parser) :
  scan.Typ (peekTok p) = scan.EOF ->
  Next p = (Ok (fst (lex.Next (lexer p))),
            set_curTok (fst (lex.Next (lexer p)))
              (set_lexer (snd (lex.Next (lexer p))) p)).
Proof.
  intros H. unfold Next, bind, gets, modify, ret, lexerNext.
  destruct (decide _); [contradiction|].
  now destruct (lex.Next (lexer p)).
Qed.

(** [Peek] with an empty buffer. *)
Lemma Peek_empty (p : Parser) :
  scan.Typ (peekTok p) = scan.EOF ->
  Peek p = (Ok (fst (lex.Next (lexer p))),
            set_peekTok (fst (lex.Next (lexer p)))
              (set_lexer (snd (lex.Next (lexer p))) p)).
Proof.
  intros H. unfold Peek, bind, gets, modify, ret, lexerNext.
  destruct (decide _); [contradiction|].
  now destruct (lex.Next (lexer p)).
Qed.

Lemma Peek_buffered (p : Parser) :
  scan.Typ (peekTok p) ≠ scan.EOF -> Peek p = (Ok (peekTok p), p).
Proof.
  intros H. unfold Peek, bind, gets, ret.
  destruct (decide _); [reflexivity | contradiction].
Qed.

Lemma Peek_upcoming_cons (p : Parser) (t : scan.Token) (r : list scan.Token) :
  upcoming p = t :: r -> scan.Typ t ≠ scan.EOF ->
  exists p', Peek p = (Ok t, p') /\ peekTok p' = t /\
             lex.tokens (lexer p') = r /\ mem p' = mem p.
Proof.
  unfold upcoming. intros Hup Ht. destruct (decide (scan.Typ (peekTok p) ≠ scan.EOF)) as [E|E].
  - injection Hup as <- <-. exists p. now rewrite Peek_buffered.
  - cbn in Hup. rewrite Peek_empty by now destruct (decide (scan.Typ (peekTok p) = scan.EOF)).
    unfold lex.Next. rewrite Hup. cbn. eexists. split; [reflexivity|]. now cbn.
Qed.

Lemma Peek_noNumberAhead (p : Parser) :
  noNumberAhead (upcoming p) ->
  exists t p', Peek p = (Ok t, p') /\ isNumber (scan.Typ t) = false /\ mem p' = mem p.
Proof.
  unfold upcoming. intros H. destruct (decide (scan.Typ (peekTok p) ≠ scan.EOF)) as [E|E].
  - exists (peekTok p), p. now rewrite Peek_buffered.
  - rewrite Peek_empty by now destruct (decide (scan.Typ (peekTok p) = scan.EOF)).
    cbn in H. unfold lex.Next. destruct (lex.tokens (lexer p)) as [|t r]; cbn.
    + eexists _, _. split; [reflexivity|]. now cbn.
    + eexists _, _. split; [reflexivity|]. now cbn.
Qed.

(** ** Error recovery *)

Lemma upcoming_empty_buffer (p : Parser) :
  scan.Typ (peekTok p) = scan.EOF -> upcoming p = lex.tokens (lexer p).
Proof.
  intros H. unfold upcoming. destruct (decide _); [contradiction | reflexivity].
Qed.

Lemma upcoming_buffered (p : Parser) :
  scan.Typ (peekTok p) ≠ scan.EOF -> upcoming p = peekTok p :: lex.tokens (lexer p).
Proof.
  intros H. unfold upcoming. destruct (decide _); [reflexivity | contradiction].
Qed.



Lemma Next_cases (p : Parser) :
  exists tok p', Next p = (Ok tok, p') /\
    mem p' = mem p /\ vars p' = vars p /\ lineNum p' = lineNum p /\
    lex.fileName (lexer p') = lex.fileName (lexer p) /\
    ((length (upcoming p') < length (upcoming p))%nat \/
     (upcoming p = [] /\ upcoming p' = [] /\ curTok p' = eofToken)).
Proof.
  destruct (decide (scan.Typ (peekTok p) ≠ scan.EOF)) as [E|E].
  - rewrite Next_buffered by assumption. eexists _, _. split; [reflexivity|].
    repeat split. left.
    rewrite (upcoming_buffered p E), upcoming_empty_buffer by reflexivity.
    cbn. lia.
  - assert (E' : scan.Typ (peekTok p) = scan.EOF).
    { destruct (decide (scan.Typ (peekTok p) = scan.EOF)); [assumption | contradiction]. }
    rewrite (upcoming_empty_buffer p E').
    unfold Next, bind, gets, modify, ret, lexerNext, lex.Next.
    destruct (decide _) as [|_]; [contradiction|].
    destruct (lex.tokens (lexer p)) as [|t r] eqn:Htoks; cbn;
      eexists _, _; (split; [reflexivity|]); repeat split;
      rewrite upcoming_empty_buffer by exact E'; cbn.
    + right. now rewrite Htoks.
    + left. lia.
Qed.

(** The loop of [errorf] ends, at the end of the line, within one more
    turn than there are tokens to come. *)
Lemma flush_ends (fuel : nat) (p : Parser) :
  (length (upcoming p) < fuel)%nat ->
  exists p', flush fuel p = (Ok tt, p') /\ atLineEnd (curTok p') = true /\
    mem p' = mem p /\ vars p' = vars p /\ lineNum p' = lineNum p /\
    lex.fileName (lexer p') = lex.fileName (lexer p).
Proof.
  revert p. induction fuel as [|fuel IH]; intros p Hlen; [lia|].
  cbn [flush]. unfold bind at 1. unfold gets at 1.
  destruct (atLineEnd (curTok p)) eqn:Hend.
  { exists p. now repeat split. }
  destruct (Next_cases p) as (tok & p1 & HNext & Hm & Hv & Hl & Hf & Hcase).
  rewrite (bind_Ok _ _ _ _ _ HNext).
  destruct Hcase as [Hlt|(_ & Hup & Hcur)].
  - destruct (IH p1) as (p' & Hrun & He & Hm' & Hv' & Hl' & Hf'); [lia|].
    exists p'. rewrite Hrun. repeat split; congruence.
  - exists p1. split; [|repeat split; try assumption; now rewrite Hcur].
    destruct fuel; cbn [flush]; unfold bind, gets; now rewrite Hcur.
Qed.

(** [errorf] panics, with the file and the line before the message,
    after it has dropped the rest of the line and emptied the buffer;
    it changes neither the variables nor the memory. *)
Lemma errorf_panics {A} (msg : ParseMsg) (p : Parser) :
  exists p',
    errorf (A := A) msg p =
      (Panic (located (lex.fileName (lexer p)) (lineNum p) msg), p') /\
    peekTok p' = eofToken /\ atLineEnd (curTok p') = true /\
    vars p' = vars p /\ mem p' = mem p.
Proof.
  unfold errorf. unfold bind at 1. unfold gets at 1.
  destruct (flush_ends (S (S (length (lex.tokens (lexer p))))) p)
    as (p1 & Hrun & He & Hm & Hv & Hl & Hf).
  { unfold upcoming. rewrite length_app. destruct (decide _); cbn; lia. }
  rewrite (bind_Ok _ _ _ _ _ Hrun).
  exists (set_peekTok eofToken p1).
  unfold bind, modify, gets, panic, lex.FileName. cbn. rewrite Hl, Hf. now repeat split.
Qed.

Section Parser.

Variable SetIntString : string -> OrErr Z.
Variable SetBigIntString : string -> OrErr Z.
Variable SetBigRatString : string -> OrErr Q.

Abbreviation ValueString := (value.ValueString SetIntString SetBigIntString SetBigRatString).
Abbreviation Number := (parse.Number SetIntString SetBigIntString SetBigRatString).
Abbreviation numbers := (parse.numbers SetIntString SetBigIntString SetBigRatString).
Abbreviation NumberOrVector :=
  (parse.NumberOrVector SetIntString SetBigIntString SetBigRatString).

Lemma Number_Good (t : scan.Token) (p : Parser) (x : Value) (h : Heap) :
  ValueString (scan.Text t) (mem p) = (Ok (Good x), h) ->
  Number t p = (Ok x, set_mem h p).
Proof.
  intros H. unfold parse.Number, bind, inMem. now rewrite H.
Qed.

(** The loop of [NumberOrVector] over a run of number tokens. *)
Lemma numbers_run (rest : list scan.Token) :
  noNumberAhead rest ->
  forall (ts : list scan.Token) (t : scan.Token) (acc : list Value) (p : Parser)
         (fuel : nat) (xs : list Value) (h' : Heap),
    peekTok p = t -> isNumber (scan.Typ t) = true ->
    lex.tokens (lexer p) = ts ++ rest ->
    Forall (fun t => isNumber (scan.Typ t) = true) ts ->
    (length ts < fuel)%nat ->
    mapM (fun t => ValueString (scan.Text t)) (t :: ts) (mem p) = (Ok (map Good xs), h') ->
    exists p2, numbers fuel (scan.Typ t) acc p = (Ok (acc ++ xs), p2) /\ mem p2 = h'.
Proof.
  intros Hrest. induction ts as [|t2 ts IH]; intros t acc p fuel xs h' Hpk Ht Htoks Hall Hfuel Hrun.
  - destruct fuel as [|fuel]; [cbn in Hfuel; lia|].
    apply mapM_cons_Ok in Hrun as (b & bs & h1 & Hb & Hbs & Hxs).
    cbn in Hbs. injection Hbs as <- <-.
    destruct xs as [|x1 [|? ?]]; try discriminate. injection Hxs as <-.
    cbn [parse.numbers]. rewrite Ht.
    rewrite (bind_Ok _ _ _ _ _ (Next_buffered p ltac:(rewrite Hpk; now apply isNumber_not_EOF))).
    rewrite Hpk.
    rewrite (bind_Ok _ _ _ _ _ (Number_Good t (set_peekTok eofToken p) x1 h1 Hb)).
    destruct (Peek_noNumberAhead (set_mem h1 (set_peekTok eofToken p)))
      as (t' & p' & Hpeek & Hnot & Hmem).
    { unfold upcoming. cbn. now rewrite Htoks. }
    rewrite (bind_Ok _ _ _ _ _ Hpeek).
    destruct fuel; cbn [parse.numbers]; rewrite Hnot; eexists; (split; [reflexivity|]);
      now rewrite Hmem.
  - destruct fuel as [|fuel]; [cbn in Hfuel; lia|].
    apply mapM_cons_Ok in Hrun as (b & bs & h1 & Hb & Hbs & Hxs).
    destruct xs as [|x1 xs]; try discriminate. injection Hxs as <- <-.
    inversion Hall as [|? ? Ht2 Hall']; subst.
    cbn [parse.numbers]. rewrite Ht.
    rewrite (bind_Ok _ _ _ _ _ (Next_buffered p ltac:(now apply isNumber_not_EOF))).
    rewrite (bind_Ok _ _ _ _ _ (Number_Good _ (set_peekTok eofToken p) x1 h1 Hb)).
    destruct (Peek_upcoming_cons (set_mem h1 (set_peekTok eofToken p)) t2 (ts ++ rest))
      as (p' & Hpeek & Hpk' & Htoks' & Hmem).
    { unfold upcoming. cbn. now rewrite Htoks. }
    { now apply isNumber_not_EOF. }
    rewrite (bind_Ok _ _ _ _ _ Hpeek).
    destruct (IH t2 (acc ++ [x1]) p' fuel xs h') as (p2 & Hrun & Hm); try assumption.
    + cbn in Hfuel. lia.
    + now rewrite Hmem.
    + exists p2. rewrite Hrun, <- app_assoc. now split.
Qed.

Lemma errorf_not_Ok {A} (msg : ParseMsg) (p p' : Parser) (a : A) :
  errorf msg p <> (Ok a, p').
Proof.
  unfold errorf. unfold bind at 1. unfold gets at 1.
  unfold bind at 1. destruct (flush _ _) as [[[]| |] p1]; try discriminate.
Qed.

Lemma Number_scalar (t : scan.Token) (p p' : Parser) (x : Value) :
  Number t p = (Ok x, p') -> isScalar x.
Proof.
  unfold parse.Number, bind, inMem.
  destruct (ValueString _ _) as [[[y|err]| |] h] eqn:E; try discriminate.
  - unfold ret. intros [= <- _].
    eapply ValueString_body_scalar, E.
  - intros H. now apply errorf_not_Ok in H.
Qed.

(** C10: a number token with no number after it is returned as the
    scalar it reads as; a number token followed by a run of number
    tokens is returned as the vector of their values, in the order of
    the input. *)
Theorem NumberOrVector_run (tok : scan.Token) (p p1 : Parser) (x : Value)
    (ts rest : list scan.Token) (xs : list Value) (h' : Heap) :
  Number tok p = (Ok x, p1) ->
  upcoming p1 = ts ++ rest ->
  Forall (fun t => isNumber (scan.Typ t) = true) ts ->
  noNumberAhead rest ->
  mapM (fun t => ValueString (scan.Text t)) ts (mem p1) = (Ok (map Good xs), h') ->
  isScalar x /\
  exists p2,
    NumberOrVector tok p =
      (Ok (match ts with [] => x | _ => Vector (x :: xs) end), p2) /\
    mem p2 = h'.
Proof.
  intros Hnum Hup Hall Hrest Hrun. split; [eapply Number_scalar, Hnum|].
  unfold parse.NumberOrVector. rewrite (bind_Ok _ _ _ _ _ Hnum).
  destruct ts as [|t ts].
  - cbn in Hrun. injection Hrun as _ <-.
    destruct (Peek_noNumberAhead p1) as (t' & p' & Hpeek & Hnot & Hmem).
    { now rewrite Hup. }
    rewrite (bind_Ok _ _ _ _ _ Hpeek). cbv zeta. rewrite Hnot. cbn [negb].
    now exists p'.
  - inversion Hall as [|? ? Ht Hall']; subst.
    destruct (Peek_upcoming_cons p1 t (ts ++ rest) Hup (isNumber_not_EOF t Ht))
      as (p' & Hpeek & Hpk & Htoks & Hmem).
    rewrite (bind_Ok _ _ _ _ _ Hpeek). cbv zeta. rewrite Ht. cbn [negb].
    unfold bind at 1. unfold gets at 1.
    destruct (numbers_run rest Hrest ts t [x] p'
                (S (length (lex.tokens (lexer p')))) xs h')
      as (p2 & Hloop & Hm); try assumption.
    + rewrite Htoks, length_app. lia.
    + now rewrite Hmem.
    + rewrite (bind_Ok _ _ _ _ _ Hloop). now exists p2.
Qed.

Variable UnaryOp : string -> Value -> HM Value.
Variable special : P unit.

Abbreviation Expr_ := (parse.Expr_ SetIntString SetBigIntString SetBigRatString).
Abbreviation Eval := (parse.Eval UnaryOp).
Abbreviation Line :=
  (parse.Line SetIntString SetBigIntString SetBigRatString UnaryOp special).



Abbreviation Operand := (parse.Operand SetIntString SetBigIntString SetBigRatString).
Abbreviation index := (parse.index SetIntString SetBigIntString SetBigRatString).

Ltac monotone IH :=
  repeat first
    [ apply below_refl
    | solve [apply IH]
    | apply below_bind; [|intros]
    | match goal with
      | |- below (match ?x with _ => _ end) (match ?x with _ => _ end) => destruct x
      | |- below (if ?b then _ else _) (if ?b then _ else _) => destruct b
      end ].

(** More fuel changes no result of the parser. *)
Lemma parser_fuel_step (n : nat) :
  (forall tok, below (Expr_ n tok) (Expr_ (S n) tok)) /\
  (forall tok, below (Operand n tok) (Operand (S n) tok)) /\
  (forall e, below (index n e) (index (S n) e)).
Proof.
  induction n as [|n (IHE & IHO & IHI)].
  - repeat split; intros; apply below_timeout.
  - repeat split.
    + intros tok. cbn [parse.Expr_]. monotone IHO; monotone IHE.
    + intros tok. cbn [parse.Operand]. monotone IHE; monotone IHI.
    + intros e. cbn [parse.index]. monotone IHE; monotone IHI.
Qed.

Lemma Expr_fuel_mono (n m : nat) (tok : scan.Token) :
  (n <= m)%nat -> below (Expr_ n tok) (Expr_ m tok).
Proof.
  induction 1 as [|m _ IH]; [apply below_refl|].
  eapply below_trans; [exact IH|]. apply parser_fuel_step.
Qed.

(** A line that is read with some fuel is read the same with more. *)
Lemma Line_fuel_mono (n m : nat) : (n <= m)%nat -> below (Line n) (Line m).
Proof.
  intros H. unfold parse.Line.
  pose proof (fun tok => Expr_fuel_mono n m tok H) as IH.
  monotone IH.
Qed.

(** ** Lines of operators and operands *)

Lemma Expr_step (f : nat) (tok : scan.Token) :
  Expr_ (S f) tok =
    (expr <- Operand f tok ;;
     t <- Peek ;;
     match scan.Typ t with
     | scan.Newline | scan.EOF | scan.RightParen | scan.RightBrack => ret expr
     | scan.Operator =>
         tok <- Next ;;
         t <- Next ;;
         r <- Expr_ f t ;;
         ret (Binary (scan.Text tok) expr r)
     | _ =>
         t <- Peek ;;
         errorf (unexpected_after_expression (scan.Text t))
     end).
Proof. reflexivity. Qed.










End Parser.

(** ** Concrete runs *)

(** C10 on the tokens [1 2 3 +] and on [1 +]. *)
Lemma NumberOrVector_run_witness :
  let num := demo.tok scan.Number in
  let plus := demo.tok scan.Operator "+" in
  (isScalar (Int 1) /\
   exists p2,
     parse.NumberOrVector demo.SetIntString demo.SetBigIntString demo.SetBigRatString
       (num "1") (demo.parser [num "2"; num "3"; plus]) =
       (Ok (Vector [Int 1; Int 2; Int 3]), p2) /\ mem p2 = []) /\
  (isScalar (Int 1) /\
   exists p2,
     parse.NumberOrVector demo.SetIntString demo.SetBigIntString demo.SetBigRatString
       (num "1") (demo.parser [plus]) = (Ok (Int 1), p2) /\ mem p2 = []).
Proof.
  intros num plus. split.
  - apply (NumberOrVector_run demo.SetIntString demo.SetBigIntString demo.SetBigRatString
             (num "1") (demo.parser [num "2"; num "3"; plus])
             (demo.parser [num "2"; num "3"; plus]) (Int 1)
             [num "2"; num "3"] [plus] [Int 2; Int 3] []).
    + reflexivity.
    + reflexivity.
    + repeat constructor.
    + reflexivity.
    + reflexivity.
  - apply (NumberOrVector_run demo.SetIntString demo.SetBigIntString demo.SetBigRatString
             (num "1") (demo.parser [plus]) (demo.parser [plus]) (Int 1)
             [] [plus] [] []).
    + reflexivity.
    + reflexivity.
    + constructor.
    + reflexivity.
    + reflexivity.
Defined.


(** C3 in a session: after [x := 1/2] and [x ** 2], the line [x] shows
    the cell of [x], which holds 1/4. *)
Example session_pow_overwrites_variable :
  let t := demo.tok in
  let nl := t scan.Newline "nl" in
  let p0 := demo.parser [t scan.Identifier "x"; t scan.Assign ":="; t scan.Rational "1/2"; nl;
                         t scan.Identifier "x"; t scan.Operator "**"; t scan.Number "2"; nl;
                         t scan.Identifier "x"; nl] in
  let r1 := demo.Line 5 p0 in
  let r2 := demo.Line 5 (snd r1) in
  let r3 := demo.Line 5 (snd r2) in
  fst r1 = Ok (None, true) /\
  vars (snd r1) !! "x" = Some (BigRat 0) /\ mem (snd r1) = [Qmake 1 2] /\
  fst r2 = Ok (Some (BigRat 2), true) /\
  fst r3 = Ok (Some (BigRat 0), true) /\
  mem (snd r3) !! 0%nat = Some (Qmake 1 4).
Proof. vm_compute. repeat split. Qed.

(** C4 in a session: the line [2 ** 1/2] yields the native integer 2;
    the BigRat 2/1 that the entry of [pow] leaves in its new cell is
    shrunk by [Binary]. *)
Example session_pow_result_shrunk :
  let t := demo.tok in
  let p0 := demo.parser [t scan.Number "2"; t scan.Operator "**"; t scan.Rational "1/2";
                         t scan.Newline "nl"] in
  let r := demo.Line 5 p0 in
  fst r = Ok (Some (Int 2), true) /\
  mem (snd r) !! 2%nat = Some (inject_Z 2).
Proof. vm_compute. repeat split. Qed.

End parse_spec.

(** * More of package [value] *)

Module value_props.

Import value value_spec.
Local Open Scope go_scope.

(** ** Scalars at a common rank *)

Lemma fits_wrap64 (z : Z) :
  (minInt <= z <= maxInt)%Z -> wrap64 z = z.
Proof.
  unfold minInt, maxInt, intBits, wrap64.
  change (2 ^ (64 - 1))%Z with (2 ^ 63)%Z. intros H.
  rewrite Z.mod_small; lia.
Qed.

Lemma wrap64_fits (z : Z) : (minInt <= wrap64 z <= maxInt)%Z.
Proof.
  unfold minInt, maxInt, intBits, wrap64.
  change (2 ^ (64 - 1))%Z with (2 ^ 63)%Z.
  pose proof (Z.mod_pos_bound (z + 2 ^ 63) (2 ^ 64) ltac:(lia)).
  lia.
Qed.

Lemma BigInt_shrink_fits (z : Z) :
  (minInt <= z <= maxInt)%Z -> BigInt_shrink z = Int z.
Proof.
  intros H. unfold BigInt_shrink.
  destruct (Z.leb_spec minInt z), (Z.leb_spec z maxInt); cbn; try reflexivity; lia.
Qed.

Lemma BigInt_shrink_big (z : Z) :
  ~ (minInt <= z <= maxInt)%Z -> BigInt_shrink z = BigInt z.
Proof.
  intros H. unfold BigInt_shrink.
  destruct (Z.leb_spec minInt z), (Z.leb_spec z maxInt); cbn; try reflexivity; lia.
Qed.

(** Two integers at the BigInt rank: the entry receives them as
    BigInts, and the store is not touched. *)
Lemma integers_run (name : string) (o : binaryOp) (f : binaryFn)
    (bu bv : bool) (x y : Z) (h : Heap) :
  binaryOps !! name = Some o ->
  op_whichType o (whichType (integer bu x)) (whichType (integer bv y)) = bigIntType ->
  op_fn o bigIntType = Some f ->
  Binary_dispatch Binary (integer bu x) name (integer bv y) h =
    f Binary (BigInt x) (BigInt y) h.
Proof.
  intros Hop Hw Hf. unfold Binary_dispatch.
  rewrite Hop. cbv zeta. rewrite Hw, Hf.
  assert (Hu : ToType (integer bu x) bigIntType h = (Ok (BigInt x), h)) by now destruct bu.
  assert (Hv : ToType (integer bv y) bigIntType h = (Ok (BigInt y), h)) by now destruct bv.
  now rewrite (bind_Ok _ _ _ _ _ Hu), (bind_Ok _ _ _ _ _ Hv).
Qed.

(** Two scalars at the BigRat rank: the entry receives two cells that
    hold their values; the cell of a BigRat operand is its own. *)
Lemma rationals_run (name : string) (o : binaryOp) (f : binaryFn)
    (a b : Value) (h : Heap) :
  binaryOps !! name = Some o ->
  op_whichType o (whichType a) (whichType b) = bigRatType ->
  op_fn o bigRatType = Some f ->
  isScalar a -> isScalar b -> allocated h a -> allocated h b ->
  exists la lb qa qb ext,
    Binary_dispatch Binary a name b h = f Binary (BigRat la) (BigRat lb) (h ++ ext) /\
    (h ++ ext) !! la = Some qa /\ (h ++ ext) !! lb = Some qb /\
    (qa == valueQ h a)%Q /\ (qb == valueQ h b)%Q.
Proof.
  intros Hop Hw Hf Sa Sb Aa Ab.
  destruct (ToType_bigRat a h Sa Aa) as (la & qa & ea & Ea & Hla & Hqa).
  assert (Ab' : allocated (h ++ ea) b).
  { destruct b; cbn in *; auto. destruct Ab as [q Hq]. exists q.
    now apply lookup_app_l_Some. }
  destruct (ToType_bigRat b (h ++ ea) Sb Ab') as (lb & qb & eb & Eb & Hlb & Hqb).
  assert (Hvb : valueQ (h ++ ea) b = valueQ h b).
  { destruct b; cbn in *; auto. destruct Ab as [q Hq].
    now rewrite (lookup_app_l_Some _ _ _ _ Hq), Hq. }
  rewrite Hvb in Hqb. rewrite <- app_assoc in Eb, Hlb.
  exists la, lb, qa, qb, (ea ++ eb). split; [|repeat split; try assumption].
  - unfold Binary_dispatch. rewrite Hop. cbv zeta. rewrite Hw, Hf.
    now rewrite (bind_Ok _ _ _ _ _ Ea), (bind_Ok _ _ _ _ _ Eb).
  - rewrite app_assoc. now apply lookup_app_l_Some.
Qed.

(** A run of the dispatch that panics or gives a shrunk integer is the
    run of [Binary]. *)
Lemma Binary_cases (v1 v2 : Value) (op : string) (h : Heap) (c : bool) (e : Error) (z : Z) :
  Binary_dispatch Binary v1 op v2 h = (if c then Panic e else Ok (BigInt_shrink z), h) ->
  Binary v1 op v2 h = (if c then Panic e else Ok (BigInt_shrink z), h).
Proof.
  destruct c; intros H; [now apply Binary_panic|].
  apply (Binary_ok _ _ _ _ _ _ H), shrink_BigInt_shrink.
Qed.

(** ** The native path and the BigInt path *)

Lemma wrap64_overflow (z : Z) : ~ fits z -> wrap64 z <> z.
Proof. intros H E. apply H. unfold fits. rewrite <- E. apply wrap64_fits. Qed.

(** X1. Addition, subtraction and multiplication of two native integers
    agree with the same operation on BigInts when the exact result fits
    the native range; when it does not, the native path wraps around
    where the BigInt path is exact. *)
Theorem native_arith_wraps (x y : Z) (h : Heap) :
  Forall (fun '(name, op) =>
    Binary (Int x) name (Int y) h = (Ok (Int (wrap64 (op x y))), h) /\
    Binary (BigInt x) name (BigInt y) h = (Ok (BigInt_shrink (op x y)), h) /\
    (fits (op x y) ->
       Binary (Int x) name (Int y) h = Binary (BigInt x) name (BigInt y) h) /\
    (~ fits (op x y) ->
       wrap64 (op x y) <> op x y /\
       Binary (BigInt x) name (BigInt y) h = (Ok (BigInt (op x y)), h)))
    [("+", Z.add); ("-", Z.sub); ("*", Z.mul)].
Proof.
  assert (G : forall name op,
    Binary (Int x) name (Int y) h = (Ok (Int (wrap64 (op x y))), h) ->
    Binary (BigInt x) name (BigInt y) h = (Ok (BigInt_shrink (op x y)), h) ->
    Binary (Int x) name (Int y) h = (Ok (Int (wrap64 (op x y))), h) /\
    Binary (BigInt x) name (BigInt y) h = (Ok (BigInt_shrink (op x y)), h) /\
    (fits (op x y) ->
       Binary (Int x) name (Int y) h = Binary (BigInt x) name (BigInt y) h) /\
    (~ fits (op x y) ->
       wrap64 (op x y) <> op x y /\
       Binary (BigInt x) name (BigInt y) h = (Ok (BigInt (op x y)), h))).
  { intros name op H1 H2. split; [exact H1|]. split; [exact H2|]. split.
    - intros Hf. now rewrite H1, H2, fits_wrap64, BigInt_shrink_fits.
    - intros Hf. split; [now apply wrap64_overflow|].
      now rewrite H2, BigInt_shrink_big. }
  repeat (apply List.Forall_cons;
          [apply G; [reflexivity|];
           apply Binary_ok; [reflexivity | apply shrink_BigInt_shrink]|]).
  apply List.Forall_nil.
Qed.

(** ** Division *)

Lemma euclid (x y : Z) :
  y <> 0%Z ->
  (x = bigDiv x y * y + bigMod x y /\ 0 <= bigMod x y < Z.abs y)%Z.
Proof.
  intros Hy. unfold bigDiv, bigMod.
  pose proof (Z.div_mod x (Z.abs y) ltac:(lia)) as E.
  pose proof (Z.mod_pos_bound x (Z.abs y) ltac:(lia)) as B.
  split; [|exact B].
  destruct y as [|p|p]; cbn [Z.sgn Z.abs] in *; lia.
Qed.

(** X2. Euclidean [div] and [mod] of two integers, native or big, run
    at the BigInt rank: a zero divisor is a panic, "division by zero"
    for [div] and "modulo by zero" for [mod]; otherwise the two results
    are the quotient and the remainder with x = q*y + m and
    0 <= m < |y|, shrunk. The store is not touched. *)
Theorem euclidean_div_mod (bu bv : bool) (x y : Z) (h : Heap) :
  let u := integer bu x in
  let v := integer bv y in
  (y = 0%Z ->
     Binary u "div" v h = (Panic division_by_zero, h) /\
     Binary u "mod" v h = (Panic modulo_by_zero, h)) /\
  (y <> 0%Z ->
     exists q m,
       Binary u "div" v h = (Ok (BigInt_shrink q), h) /\
       Binary u "mod" v h = (Ok (BigInt_shrink m), h) /\
       (x = q * y + m /\ 0 <= m < Z.abs y)%Z).
Proof.
  intros u v.
  assert (Hd : Binary u "div" v h =
                 (if (Z.sgn y =? 0)%Z then Panic division_by_zero
                  else Ok (BigInt_shrink (bigDiv x y)), h)).
  { unfold u, v. apply Binary_cases. erewrite (integers_run "div" ops.div _ bu bv x y h eq_refl);
      [| now destruct bu, bv | reflexivity].
    cbn [asBigInt]. rewrite (bind_Ok (ret _) _ h y h) by reflexivity.
    now destruct (Z.sgn y =? 0)%Z. }
  assert (Hm : Binary u "mod" v h =
                 (if (Z.sgn y =? 0)%Z then Panic modulo_by_zero
                  else Ok (BigInt_shrink (bigMod x y)), h)).
  { unfold u, v. apply Binary_cases. erewrite (integers_run "mod" ops.mod_ _ bu bv x y h eq_refl);
      [| now destruct bu, bv | reflexivity].
    cbn [asBigInt]. rewrite (bind_Ok (ret _) _ h y h) by reflexivity.
    now destruct (Z.sgn y =? 0)%Z. }
  rewrite Hd, Hm. split.
  - intros ->. now cbn.
  - intros Hy. exists (bigDiv x y), (bigMod x y).
    replace (Z.sgn y =? 0)%Z with false
      by (symmetry; apply Z.eqb_neq; now rewrite Z.sgn_null_iff).
    repeat split; apply (euclid x y Hy).
Qed.

(** X2 at -7 and 2: quotient -4, remainder 1. *)
Lemma euclidean_div_mod_witness :
  exists q m,
    Binary (Int (-7)) "div" (Int 2) [] = (Ok (BigInt_shrink q), []) /\
    Binary (Int (-7)) "mod" (Int 2) [] = (Ok (BigInt_shrink m), []) /\
    (-7 = q * 2 + m /\ 0 <= m < Z.abs 2)%Z.
Proof.
  apply (proj2 (euclidean_div_mod false false (-7) 2 [])). discriminate.
Defined.

(** X3. Truncating [idiv] and [imod]: a zero divisor is a panic at
    either rank; at the BigInt rank the results are the quotient toward
    zero and the remainder with the sign of the dividend, shrunk; two
    native integers are divided natively, which agrees with the BigInt
    path on every pair in range but the least integer divided by -1,
    where the native quotient wraps to the least integer. *)
Theorem truncating_idiv_imod (bu bv : bool) (x y : Z) (h : Heap) :
  let u := integer bu x in
  let v := integer bv y in
  (y = 0%Z ->
     Binary u "idiv" v h = (Panic division_by_zero, h) /\
     Binary u "imod" v h = (Panic modulo_by_zero, h)) /\
  (y <> 0%Z -> bu || bv = true ->
     exists q r,
       Binary u "idiv" v h = (Ok (BigInt_shrink q), h) /\
       Binary u "imod" v h = (Ok (BigInt_shrink r), h) /\
       (x = q * y + r /\ Z.abs r < Z.abs y /\ 0 <= r * x)%Z) /\
  (y <> 0%Z -> bu = false -> bv = false ->
     Binary u "idiv" v h = (Ok (Int (wrap64 (Z.quot x y))), h) /\
     Binary u "imod" v h = (Ok (Int (Z.rem x y)), h) /\
     (fits x -> fits y ->
        Binary u "imod" v h = Binary (BigInt x) "imod" (BigInt y) h /\
        (~ (x = minInt /\ y = (-1)%Z) ->
           Binary u "idiv" v h = Binary (BigInt x) "idiv" (BigInt y) h) /\
        (x = minInt -> y = (-1)%Z ->
           Binary u "idiv" v h = (Ok (Int minInt), h) /\
           Binary (BigInt x) "idiv" (BigInt y) h = (Ok (BigInt (- minInt)), h)))).
Proof.
  intros u v.
  assert (Big : forall bu bv, bu || bv = true ->
     Binary (integer bu x) "idiv" (integer bv y) h =
       (if (Z.sgn y =? 0)%Z then Panic division_by_zero
        else Ok (BigInt_shrink (Z.quot x y)), h) /\
     Binary (integer bu x) "imod" (integer bv y) h =
       (if (Z.sgn y =? 0)%Z then Panic modulo_by_zero
        else Ok (BigInt_shrink (Z.rem x y)), h)).
  { intros bu' bv' Hb. split.
    - apply Binary_cases. erewrite (integers_run "idiv" ops.idiv _ bu' bv' x y h eq_refl);
        [| destruct bu', bv'; try reflexivity; discriminate | reflexivity].
      cbn [asBigInt]. rewrite (bind_Ok (ret _) _ h y h) by reflexivity.
      now destruct (Z.sgn y =? 0)%Z.
    - apply Binary_cases. erewrite (integers_run "imod" ops.imod _ bu' bv' x y h eq_refl);
        [| destruct bu', bv'; try reflexivity; discriminate | reflexivity].
      cbn [asBigInt]. rewrite (bind_Ok (ret _) _ h y h) by reflexivity.
      now destruct (Z.sgn y =? 0)%Z. }
  assert (Native :
     Binary (Int x) "idiv" (Int y) h =
       (if (y =? 0)%Z then Panic division_by_zero
        else Ok (Int (wrap64 (Z.quot x y))), h) /\
     Binary (Int x) "imod" (Int y) h =
       (if (y =? 0)%Z then Panic modulo_by_zero else Ok (Int (Z.rem x y)), h)).
  { split; rewrite Binary_unfold; unfold Binary_body, Binary_dispatch.
    - replace (binaryOps !! "idiv") with (Some ops.idiv) by reflexivity.
      cbn. unfold bind, ret, panic. cbn. now destruct (y =? 0)%Z.
    - replace (binaryOps !! "imod") with (Some ops.imod) by reflexivity.
      cbn. unfold bind, ret, panic. cbn. now destruct (y =? 0)%Z. }
  assert (Hsgn : y <> 0%Z -> (Z.sgn y =? 0)%Z = false).
  { intros Hy. apply Z.eqb_neq. now rewrite Z.sgn_null_iff. }
  subst u v. split; [|split].
  - intros ->. destruct bu, bv; try (now apply Big); apply Native.
  - intros Hy Hb. exists (Z.quot x y), (Z.rem x y).
    destruct (Big bu bv Hb) as [-> ->]. rewrite (Hsgn Hy).
    split; [reflexivity|]. split; [reflexivity|].
    pose proof (Z.quot_rem' x y). pose proof (Z.rem_bound_abs x y Hy).
    pose proof (Z.rem_sign_mul x y Hy). repeat split; lia.
  - intros Hy -> ->. cbn [integer].
    destruct Native as [-> ->].
    destruct (Z.eqb_spec y 0) as [|_]; [contradiction|].
    split; [reflexivity|]. split; [reflexivity|].
    intros Fx Fy.
    destruct (Big true true eq_refl) as [Hq Hr]. cbn [integer] in Hq, Hr.
    rewrite Hq, Hr, (Hsgn Hy).
    pose proof (Z.quot_rem' x y) as E. pose proof (Z.rem_bound_abs x y Hy) as B.
    pose proof (Z.rem_sign_mul x y Hy) as S.
    unfold fits, minInt, maxInt, intBits in *.
    change (2 ^ (64 - 1))%Z with 9223372036854775808%Z in *.
    split; [|split].
    + rewrite BigInt_shrink_fits; [reflexivity|].
      unfold minInt, maxInt, intBits. change (2 ^ (64 - 1))%Z with 9223372036854775808%Z. lia.
    + intros Hedge.
      assert (Hq' : (- 9223372036854775808 <= Z.quot x y <= 9223372036854775808 - 1)%Z).
      { destruct (Z.eq_dec y (-1)%Z) as [->|Hy1].
        - change (-1)%Z with (- (1))%Z. rewrite Z.quot_opp_r, Z.quot_1_r by lia. lia.
        - destruct (Z.eq_dec y 1%Z) as [->|Hy2]; [rewrite Z.quot_1_r; lia|].
          assert (Z.abs (Z.quot x y) < 9223372036854775808)%Z; [|lia].
          rewrite <- Z.quot_abs by assumption.
          apply Z.quot_lt_upper_bound; lia. }
      rewrite fits_wrap64, BigInt_shrink_fits; try reflexivity;
        unfold minInt, maxInt, intBits;
        change (2 ^ (64 - 1))%Z with 9223372036854775808%Z; lia.
    + intros -> ->. split; reflexivity.
Qed.

(** X3 at the least integer and -1, and at -7 and 2. *)
Lemma truncating_idiv_imod_witness :
  (exists q r,
     Binary (BigInt (-7)) "idiv" (Int 2) [] = (Ok (BigInt_shrink q), []) /\
     Binary (BigInt (-7)) "imod" (Int 2) [] = (Ok (BigInt_shrink r), []) /\
     (-7 = q * 2 + r /\ Z.abs r < Z.abs 2 /\ 0 <= r * -7)%Z) /\
  Binary (Int minInt) "idiv" (Int (-1)) [] = (Ok (Int minInt), []).
Proof.
  destruct (truncating_idiv_imod true false (-7) 2 []) as (_ & H & _).
  destruct (truncating_idiv_imod false false minInt (-1) []) as (_ & _ & H').
  split.
  - apply H; [discriminate | reflexivity].
  - destruct H' as (_ & _ & H'); [discriminate | reflexivity | reflexivity |].
    destruct H' as (_ & _ & H'); [cbv; split; discriminate | cbv; split; discriminate |].
    now apply H'.
Defined.

(** ** What is undefined for rationals *)

(** X4. The truncating and the Euclidean division and modulus, the
    bitwise operators and the shifts have no entry at the BigRat rank:
    with a BigRat among two scalar operands they panic, "not implemented
    on type", before either operand is converted. *)
Theorem undefined_at_rational_rank (name : string) (a b : Value) (h : Heap) :
  name ∈ ["idiv"; "imod"; "div"; "mod"; "&"; "|"; "^"; "<<"; ">>"] ->
  isScalar a -> isScalar b ->
  whichType a = bigRatType \/ whichType b = bigRatType ->
  Binary a name b h = (Panic (binary_not_implemented_on_type name bigRatType), h).
Proof.
  intros Hname Sa Sb Hrat.
  rewrite Binary_unfold. unfold Binary_body, Binary_dispatch.
  repeat (apply elem_of_cons in Hname as [->|Hname];
          [ destruct a, b; first [ now destruct Sa | now destruct Sb
                                 | now destruct Hrat | reflexivity ] |]).
  now apply elem_of_nil in Hname.
Qed.

(** X4 at [1/2 idiv 3]. *)
Lemma undefined_at_rational_rank_witness :
  Binary (BigRat 0) "idiv" (Int 3) [Qmake 1 2] =
    (Panic (binary_not_implemented_on_type "idiv" bigRatType), [Qmake 1 2]).
Proof.
  apply undefined_at_rational_rank.
  - repeat constructor.
  - discriminate.
  - discriminate.
  - now left.
Defined.

(** ** Shifts *)

Lemma shiftCount_BigInt (c : Z) (h : Heap) :
  shiftCount (BigInt c) h =
    (if decide (fits c)
     then if decide (0 <= c < maxInt)%Z then Ok c else Panic (illegal_shift_count c)
     else Panic illegal_shift_count_type, h).
Proof.
  unfold shiftCount. destruct (decide (fits c)) as [F|F].
  - rewrite (BigInt_shrink_fits c F). rewrite Z.geb_leb.
    destruct (decide (0 <= c < maxInt)%Z) as [B|B];
      destruct (Z.ltb_spec c 0), (Z.leb_spec maxInt c); try lia; reflexivity.
  - now rewrite (BigInt_shrink_big c F).
Qed.

(** X5. The shifts of an integer, native or big, run at the BigInt
    rank: by a count from 0 to below the greatest native integer,
    [<<] multiplies by the power of two and [>>] divides by it, rounding
    down, and the result is shrunk; a negative count, or the greatest
    native integer itself, is the panic "illegal shift count"; a count
    outside the native range is the panic "illegal shift count type". *)
Theorem shift_counts (bu bv : bool) (x c : Z) (h : Heap) :
  let u := integer bu x in
  let v := integer bv c in
  ((0 <= c < maxInt)%Z ->
     Binary u "<<" v h = (Ok (BigInt_shrink (x * 2 ^ c)), h) /\
     Binary u ">>" v h = (Ok (BigInt_shrink (x / 2 ^ c)), h)) /\
  (fits c -> (c < 0 \/ c = maxInt)%Z ->
     Binary u "<<" v h = (Panic (illegal_shift_count c), h) /\
     Binary u ">>" v h = (Panic (illegal_shift_count c), h)) /\
  (~ fits c ->
     Binary u "<<" v h = (Panic illegal_shift_count_type, h) /\
     Binary u ">>" v h = (Panic illegal_shift_count_type, h)).
Proof.
  intros u v. subst u v.
  assert (L : Binary (integer bu x) "<<" (integer bv c) h =
    (c' <- shiftCount (BigInt c) ;; ret (BigInt_shrink (Z.shiftl x c'))) h).
  { rewrite Binary_unfold. unfold Binary_body.
    erewrite bind_ext_l
      by (erewrite (integers_run "<<" ops.lsh _ bu bv x c h eq_refl);
          [reflexivity | now destruct bu, bv | reflexivity]).
    transitivity
      ((r <- (c' <- shiftCount (BigInt c) ;; ret (BigInt_shrink (Z.shiftl x c'))) ;;
        shrink r) h); [reflexivity|].
    apply shrink_after_bind. intros a s. apply shrink_BigInt_shrink. }
  assert (R : Binary (integer bu x) ">>" (integer bv c) h =
    (c' <- shiftCount (BigInt c) ;; ret (BigInt_shrink (Z.shiftr x c'))) h).
  { rewrite Binary_unfold. unfold Binary_body.
    erewrite bind_ext_l
      by (erewrite (integers_run ">>" ops.rsh _ bu bv x c h eq_refl);
          [reflexivity | now destruct bu, bv | reflexivity]).
    transitivity
      ((r <- (c' <- shiftCount (BigInt c) ;; ret (BigInt_shrink (Z.shiftr x c'))) ;;
        shrink r) h); [reflexivity|].
    apply shrink_after_bind. intros a s. apply shrink_BigInt_shrink. }
  rewrite L, R. unfold bind. rewrite shiftCount_BigInt.
  split; [|split].
  - intros B. assert (F : fits c) by (unfold fits, minInt, maxInt, intBits in *; lia).
    destruct (decide (fits c)); [|contradiction].
    destruct (decide (0 <= c < maxInt)%Z); [|contradiction].
    unfold ret. now rewrite Z.shiftl_mul_pow2, Z.shiftr_div_pow2 by lia.
  - intros F B. destruct (decide (fits c)); [|contradiction].
    destruct (decide (0 <= c < maxInt)%Z); [lia|]. now split.
  - intros F. destruct (decide (fits c)); [contradiction|]. now split.
Qed.

(** X5 at [1 << 70], [-5 >> 1] and [1 << -1]. *)
Lemma shift_counts_witness :
  (Binary (Int 1) "<<" (Int 70) [] = (Ok (BigInt_shrink (1 * 2 ^ 70)), []) /\
   Binary (Int (-5)) ">>" (Int 1) [] = (Ok (BigInt_shrink (-5 / 2 ^ 1)), [])) /\
  Binary (Int 1) "<<" (Int (-1)) [] = (Panic (illegal_shift_count (-1)), []).
Proof.
  split; [split|].
  - apply (proj1 (shift_counts false false 1 70 [])).
    cbv. split; [discriminate | reflexivity].
  - apply (proj1 (shift_counts false false (-5) 1 [])).
    cbv. split; [discriminate | reflexivity].
  - apply (proj1 (proj2 (shift_counts false false 1 (-1) []))).
    + cbv. split; discriminate.
    + left. reflexivity.
Defined.

(** ** Exact arithmetic above the native rank *)

Lemma minimal_BigInt_shrink (h : Heap) (x : Z) : minimal h (BigInt_shrink x).
Proof.
  destruct (decide (fits x)) as [F|F].
  - now rewrite BigInt_shrink_fits.
  - now rewrite BigInt_shrink_big.
Qed.

Lemma minimal_shrunk (h : Heap) (q : Q) :
  minimal (h ++ [q])
    (if ratIsInt q then BigInt_shrink (Qnum q) else BigRat (length h)).
Proof.
  destruct (ratIsInt q) eqn:E.
  - apply minimal_BigInt_shrink.
  - exists q. split; [apply list_lookup_middle; reflexivity | exact E].
Qed.

Lemma scalar_ranks (a b : Value) :
  isScalar a -> isScalar b ->
  (exists x y, a = Int x /\ b = Int y) \/
  (exists bu bv x y, a = integer bu x /\ b = integer bv y /\ bu || bv = true) \/
  (whichType a = bigRatType \/ whichType b = bigRatType).
Proof.
  intros Sa Sb. destruct a as [x|x|l|?]; [| | |now destruct Sa];
    (destruct b as [y|y|l'|?]; [| | |now destruct Sb]); auto.
  - left. eauto.
  - right. left. now exists false, true, x, y.
  - right. left. now exists true, false, x, y.
  - right. left. now exists true, true, x, y.
Qed.

Section Arithmetic.

Variable name : string.
Variable o : binaryOp.
Variable zop : Z -> Z -> Z.
Variable rop qop : Q -> Q -> Q.

Hypothesis Hop : binaryOps !! name = Some o.
Hypothesis Hwhich : op_whichType o = binaryArithType.
Hypothesis Hint :
  op_fn o intType = Some (onInts (fun x y => ret (valueInt64 (wrap64 (zop x y))))).
Hypothesis HbigInt : op_fn o bigIntType = Some (fun _ u v => binaryBigIntOp u zop v).
Hypothesis HbigRat : op_fn o bigRatType = Some (fun _ u v => binaryBigRatOp u rop v).
Hypothesis Hz : forall x y, (inject_Z (zop x y) == qop (inject_Z x) (inject_Z y))%Q.
Hypothesis Hr : forall p q, (rop p q == qop p q)%Q.
Hypothesis Hq : Proper (Qeq ==> Qeq ==> Qeq) qop.

Lemma arithmetic_run (a b : Value) (h : Heap) :
  isScalar a -> isScalar b -> allocated h a -> allocated h b ->
  exists r h',
    Binary a name b h = (Ok r, h') /\
    minimal h' r /\
    (whichType a <> intType \/ whichType b <> intType ->
     (valueQ h' r == qop (valueQ h a) (valueQ h b))%Q).
Proof using All.
  intros Sa Sb Aa Ab.
  destruct (scalar_ranks a b Sa Sb)
    as [(x & y & -> & ->)|[(bu & bv & x & y & -> & -> & Hb)|Hrat]].
  - exists (Int (wrap64 (zop x y))), h. split; [|split].
    + rewrite Binary_unfold. unfold Binary_body, Binary_dispatch. rewrite Hop. cbv zeta.
      rewrite Hwhich. cbn [whichType]. change (binaryArithType intType intType) with intType.
      rewrite Hint. reflexivity.
    + apply wrap64_fits.
    + intros [H|H]; now destruct H.
  - exists (BigInt_shrink (zop x y)), h. split; [|split].
    + apply Binary_ok; [|apply shrink_BigInt_shrink].
      erewrite (integers_run name o _ bu bv x y h Hop); [| |exact HbigInt].
      * reflexivity.
      * rewrite Hwhich. destruct bu, bv; try reflexivity; discriminate.
    + apply minimal_BigInt_shrink.
    + intros _. rewrite valueQ_BigInt_shrink, Hz.
      now destruct bu, bv.
  - assert (Hw : op_whichType o (whichType a) (whichType b) = bigRatType).
    { rewrite Hwhich. destruct a, b; try reflexivity;
        first [now destruct Sa | now destruct Sb | destruct Hrat; discriminate]. }
    destruct (rationals_run name o _ a b h Hop Hw HbigRat Sa Sb Aa Ab)
      as (la & lb & qa & qb & ext & Hrun & Hla & Hlb & Hqa & Hqb).
    rewrite (binaryBigRatOp_spec rop la lb qa qb (h ++ ext) Hla Hlb) in Hrun.
    eexists _, _. split; [apply (Binary_ok _ _ _ _ _ _ Hrun), shrink_shrunk|].
    split; [apply minimal_shrunk|].
    intros _. now rewrite valueQ_shrunk, Hr, Hqa, Hqb.
Qed.

End Arithmetic.

(** X6. [+], [-] and [*] of two scalars return a value of the lowest
    rank that holds it, and above the native rank (an operand is a
    BigInt or a BigRat) the result is exact: its value is the sum, the
    difference or the product of the values of the operands. *)
Theorem arithmetic_exact_minimal (a b : Value) (h : Heap) :
  isScalar a -> isScalar b -> allocated h a -> allocated h b ->
  Forall (fun '(name, qop) =>
    exists r h',
      Binary a name b h = (Ok r, h') /\
      minimal h' r /\
      (whichType a <> intType \/ whichType b <> intType ->
       (valueQ h' r == qop (valueQ h a) (valueQ h b))%Q))
    [("+", Qplus); ("-", Qminus); ("*", Qmult)].
Proof.
  intros Sa Sb Aa Ab.
  repeat (apply List.Forall_cons; [|]); try apply List.Forall_nil.
  - apply (arithmetic_run "+" ops.add Z.add ratAdd Qplus
             eq_refl eq_refl eq_refl eq_refl eq_refl); try assumption.
    + intros. now rewrite inject_Z_plus.
    + intros. apply Qred_correct.
    + apply Qplus_comp.
  - apply (arithmetic_run "-" ops.sub Z.sub ratSub Qminus
             eq_refl eq_refl eq_refl eq_refl eq_refl); try assumption.
    + intros. unfold Z.sub, Qminus. now rewrite inject_Z_plus, inject_Z_opp.
    + intros. apply Qred_correct.
    + apply Qminus_comp.
  - apply (arithmetic_run "*" ops.mul Z.mul ratMul Qmult
             eq_refl eq_refl eq_refl eq_refl eq_refl); try assumption.
    + intros. now rewrite inject_Z_mult.
    + intros. apply Qred_correct.
    + apply Qmult_comp.
Qed.

(** X6 at [1/2 + 1/2], whose result is the native integer 1. *)
Lemma arithmetic_exact_minimal_witness :
  exists r h',
    Binary (BigRat 0) "+" (BigRat 0) [Qmake 1 2] = (Ok r, h') /\
    minimal h' r /\
    (whichType (BigRat 0) <> intType \/ whichType (BigRat 0) <> intType ->
     (valueQ h' r == Qplus (valueQ [Qmake 1 2] (BigRat 0)) (valueQ [Qmake 1 2] (BigRat 0)))%Q).
Proof.
  pose proof (arithmetic_exact_minimal (BigRat 0) (BigRat 0) [Qmake 1 2]) as H.
  apply List.Forall_inv in H; [exact H | discriminate | discriminate | now eexists | now eexists].
Defined.

(** ** Comparisons *)

Lemma Qcompare_inject_Z (x y : Z) : (inject_Z x ?= inject_Z y)%Q = (x ?= y)%Z.
Proof. unfold Qcompare, inject_Z. cbn. now rewrite !Z.mul_1_r. Qed.

Lemma prefix_app_ext (h ext : Heap) : h `prefix_of` h ++ ext.
Proof. now exists ext. Qed.

(** A comparison of the table at two scalars: the test of the entry is
    applied to the order of the values. *)
Lemma comparison_run (name : string) (test : Z -> bool) (int : Z -> Z -> bool)
    (a b : Value) (h : Heap) :
  binaryOps !! name = Some (ops.comparison name test int) ->
  (forall x y, int x y = test (cmpZ x y)) ->
  isScalar a -> isScalar b -> allocated h a -> allocated h b ->
  exists h',
    Binary a name b h = (Ok (toInt (test (cmpQ (valueQ h a) (valueQ h b)))), h') /\
    h `prefix_of` h'.
Proof.
  intros Hop Hint Sa Sb Aa Ab.
  destruct (scalar_ranks a b Sa Sb)
    as [(x & y & -> & ->)|[(bu & bv & x & y & -> & -> & Hb)|Hrat]].
  - exists h. split; [|reflexivity].
    apply Binary_ok; [|apply shrink_toInt].
    unfold Binary_dispatch. rewrite Hop. cbn.
    unfold bind, ret. cbn. rewrite Hint. unfold cmpQ, cmpZ.
    now rewrite Qcompare_inject_Z.
  - exists h. split; [|reflexivity].
    apply Binary_ok; [|apply shrink_toInt].
    erewrite (integers_run name _ _ bu bv x y h Hop); [| |reflexivity].
    + cbn. unfold bind, ret. cbn. unfold cmpQ, cmpZ.
      replace (valueQ h (integer bu x)) with (inject_Z x) by now destruct bu.
      replace (valueQ h (integer bv y)) with (inject_Z y) by now destruct bv.
      now rewrite Qcompare_inject_Z.
    + cbn [ops.comparison op_whichType]. destruct bu, bv; try reflexivity; discriminate.
  - assert (Hw : op_whichType (ops.comparison name test int) (whichType a) (whichType b)
                 = bigRatType).
    { cbn [ops.comparison op_whichType]. destruct a, b; try reflexivity;
        first [now destruct Sa | now destruct Sb | destruct Hrat; discriminate]. }
    destruct (rationals_run name _ _ a b h Hop Hw eq_refl Sa Sb Aa Ab)
      as (la & lb & qa & qb & ext & Hrun & Hla & Hlb & Hqa & Hqb).
    exists (h ++ ext). split; [|apply prefix_app_ext].
    apply Binary_ok; [|apply shrink_toInt].
    rewrite Hrun. unfold onBigRats. cbn [asBigRat].
    unfold bind at 1. unfold ret at 1. unfold bind at 1. unfold ret at 1.
    rewrite (bind_Ok _ _ _ _ _ (load_Some _ _ _ Hla)).
    rewrite (bind_Ok _ _ _ _ _ (load_Some _ _ _ Hlb)).
    unfold ret, cmpQ. now rewrite (Qcompare_comp qa _ Hqa qb _ Hqb).
Qed.

(** X7. The six comparisons of two scalars of any ranks give the native
    1 when the relation holds between the values of the operands and
    the native 0 when it does not, whatever the ranks at which the two
    values are held; no cell of the store is changed. *)
Theorem comparisons_decide_order (a b : Value) (h : Heap) :
  isScalar a -> isScalar b -> allocated h a -> allocated h b ->
  Forall (fun '(name, holds) =>
    exists h',
      Binary a name b h =
        (Ok (Int (if holds (valueQ h a ?= valueQ h b)%Q : bool then 1 else 0)), h') /\
      h `prefix_of` h')
    [ ("==", fun c => match c with Eq => true | _ => false end);
      ("!=", fun c => match c with Eq => false | _ => true end);
      ("<",  fun c => match c with Lt => true | _ => false end);
      ("<=", fun c => match c with Gt => false | _ => true end);
      (">",  fun c => match c with Gt => true | _ => false end);
      (">=", fun c => match c with Lt => false | _ => true end) ].
Proof.
  intros Sa Sb Aa Ab.
  repeat (apply List.Forall_cons; [|]); try apply List.Forall_nil.
  - destruct (comparison_run "==" _ _ a b h eq_refl) as (h' & -> & P); try assumption.
    { intros x y. unfold cmpZ. destruct (Z.eqb_spec x y) as [->|N].
      - now rewrite Z.compare_refl.
      - destruct (Z.compare_spec x y); try reflexivity; contradiction. }
    exists h'. split; [|exact P]. unfold cmpQ. now destruct (_ ?= _)%Q.
  - destruct (comparison_run "!=" _ _ a b h eq_refl) as (h' & -> & P); try assumption.
    { intros x y. unfold cmpZ. destruct (Z.eqb_spec x y) as [->|N].
      - now rewrite Z.compare_refl.
      - destruct (Z.compare_spec x y); try reflexivity; contradiction. }
    exists h'. split; [|exact P]. unfold cmpQ. now destruct (_ ?= _)%Q.
  - destruct (comparison_run "<" _ _ a b h eq_refl) as (h' & -> & P); try assumption.
    { intros x y. unfold cmpZ, Z.ltb. now destruct (x ?= y)%Z. }
    exists h'. split; [|exact P]. unfold cmpQ. now destruct (_ ?= _)%Q.
  - destruct (comparison_run "<=" _ _ a b h eq_refl) as (h' & -> & P); try assumption.
    { intros x y. unfold cmpZ, Z.leb. now destruct (x ?= y)%Z. }
    exists h'. split; [|exact P]. unfold cmpQ. now destruct (_ ?= _)%Q.
  - destruct (comparison_run ">" _ _ a b h eq_refl) as (h' & -> & P); try assumption.
    { intros x y. unfold cmpZ, Z.gtb. now destruct (x ?= y)%Z. }
    exists h'. split; [|exact P]. unfold cmpQ. now destruct (_ ?= _)%Q.
  - destruct (comparison_run ">=" _ _ a b h eq_refl) as (h' & -> & P); try assumption.
    { intros x y. unfold cmpZ, Z.geb. now destruct (x ?= y)%Z. }
    exists h'. split; [|exact P]. unfold cmpQ. now destruct (_ ?= _)%Q.
Qed.

(** X7 at [1/2 < 1]. *)
Lemma comparisons_decide_order_witness :
  exists h',
    Binary (BigRat 0) "<" (Int 1) [Qmake 1 2] = (Ok (Int 1), h') /\
    [Qmake 1 2] `prefix_of` h'.
Proof.
  assert (H := comparisons_decide_order (BigRat 0) (Int 1) [Qmake 1 2]
                 ltac:(discriminate) ltac:(discriminate) ltac:(now eexists) I).
  do 2 apply List.Forall_inv_tail in H.
  apply List.Forall_inv in H. exact H.
Defined.

(** ** Minimum and maximum *)

Lemma cmpZ_lt (x y : Z) : (cmpZ x y <? 0)%Z = (x <? y)%Z.
Proof. unfold cmpZ, Z.ltb. now destruct (x ?= y)%Z. Qed.

Lemma cmpZ_gt (x y : Z) : (cmpZ x y >? 0)%Z = (x >? y)%Z.
Proof. unfold cmpZ, Z.gtb. now destruct (x ?= y)%Z. Qed.

Lemma cmpQ_lt (p q : Q) : (cmpQ p q <? 0)%Z = true <-> (p < q)%Q.
Proof.
  unfold cmpQ. rewrite Qlt_alt. destruct (p ?= q)%Q; cbn; split; congruence.
Qed.

Lemma cmpQ_gt (p q : Q) : (cmpQ p q >? 0)%Z = true <-> (q < p)%Q.
Proof.
  unfold cmpQ. rewrite Qgt_alt. destruct (p ?= q)%Q; cbn; split; congruence.
Qed.

(** [min] or [max] at two scalars: the entry picks the first operand,
    as converted to the common rank, where its test holds of the two
    values, and the second one otherwise. *)
(** What [shrink] returns is held at the lowest rank. *)
Lemma shrink_minimal (v r : Value) (h h' : Heap) :
  shrink v h = (Ok r, h') -> inRange v -> h' = h /\ minimal h r.
Proof.
  destruct v as [x|x|l|x]; cbn [shrink inRange].
  - intros [= <- <-] F. now split.
  - intros [= <- <-] _. split; [reflexivity | apply minimal_BigInt_shrink].
  - unfold BigRat_shrink, bind, load. destruct (h !! l) as [q|] eqn:Hq; [|discriminate].
    destruct (ratIsInt q) eqn:E; intros [= <- <-] _; (split; [reflexivity|]).
    + apply minimal_BigInt_shrink.
    + now exists q.
  - intros [= <- <-] _. now split.
Qed.

(** [Binary] from a result of its dispatch: the same value, at the
    lowest rank. *)
Lemma Binary_shrunk (v1 v2 : Value) (op : string) (h h0 : Heap) (r0 : Value) :
  Binary_dispatch Binary v1 op v2 h = (Ok r0, h0) ->
  allocated h0 r0 ->
  exists r,
    Binary v1 op v2 h = (Ok r, h0) /\
    (inRange r0 -> minimal h0 r) /\
    (valueQ h0 r == valueQ h0 r0)%Q.
Proof.
  intros Disp Hal. rewrite (Binary_shrinks _ _ _ _ _ _ Disp).
  destruct (shrink_value r0 h0 Hal) as (r & E & Hv).
  exists r. split; [exact E|]. split; [|exact Hv].
  intros Hr. now destruct (shrink_minimal _ _ _ _ E Hr).
Qed.

Lemma selection_run (name : string) (o : binaryOp) (zt bt : Z -> Z -> bool)
    (qt : Q -> Q -> bool) (a b : Value) (h : Heap) :
  binaryOps !! name = Some o ->
  op_whichType o = binaryArithType ->
  op_fn o intType = Some (fun _ u v =>
    i <- asInt u ;; j <- asInt v ;; if zt i j then ret u else ret v) ->
  op_fn o bigIntType = Some (fun _ u v =>
    i <- asBigInt u ;; j <- asBigInt v ;; if bt i j then ret u else ret v) ->
  op_fn o bigRatType = Some (fun _ u v =>
    i <- asBigRat u ;; j <- asBigRat v ;;
    x <- load i ;; y <- load j ;; if qt x y then ret u else ret v) ->
  (forall x y, bt x y = zt x y) ->
  (forall x y, qt (inject_Z x) (inject_Z y) = zt x y) ->
  Proper (Qeq ==> Qeq ==> Logic.eq) qt ->
  isScalar a -> isScalar b -> allocated h a -> allocated h b ->
  inRange a -> inRange b ->
  exists r h',
    Binary a name b h = (Ok r, h') /\ h `prefix_of` h' /\
    minimal h' r /\
    (valueQ h' r == if qt (valueQ h a) (valueQ h b) then valueQ h a else valueQ h b)%Q.
Proof.
  intros Hop Hwhich Hint HbigInt HbigRat Hbt Hzq Hq Sa Sb Aa Ab Ra Rb.
  destruct (scalar_ranks a b Sa Sb)
    as [(x & y & -> & ->)|[(bu & bv & x & y & -> & -> & Hb)|Hrat]].
  - destruct (Binary_shrunk (Int x) (Int y) name h h (if zt x y then Int x else Int y))
      as (r & Hrun & Hmin & Hv).
    + unfold Binary_dispatch. rewrite Hop. cbv zeta.
      rewrite Hwhich. cbn [whichType].
      change (binaryArithType intType intType) with intType. rewrite Hint.
      cbn. unfold bind, ret. cbn. now destruct (zt x y).
    + now destruct (zt x y).
    + exists r, h. split; [exact Hrun|]. split; [reflexivity|]. split.
      * apply Hmin. now destruct (zt x y).
      * rewrite Hv. cbn [valueQ]. rewrite Hzq. now destruct (zt x y).
  - destruct (Binary_shrunk (integer bu x) (integer bv y) name h h
                (if zt x y then BigInt x else BigInt y)) as (r & Hrun & Hmin & Hv).
    + erewrite (integers_run name o _ bu bv x y h Hop); [| |exact HbigInt].
      * cbn. unfold bind, ret. cbn. rewrite Hbt. now destruct (zt x y).
      * rewrite Hwhich. destruct bu, bv; try reflexivity; discriminate.
    + now destruct (zt x y).
    + exists r, h. split; [exact Hrun|]. split; [reflexivity|]. split.
      * apply Hmin. now destruct (zt x y).
      * rewrite Hv.
        replace (valueQ h (integer bu x)) with (inject_Z x) by now destruct bu.
        replace (valueQ h (integer bv y)) with (inject_Z y) by now destruct bv.
        rewrite Hzq. now destruct (zt x y).
  - assert (Hw : binaryArithType (whichType a) (whichType b) = bigRatType).
    { destruct a, b; try reflexivity;
        first [now destruct Sa | now destruct Sb | destruct Hrat; discriminate]. }
    assert (Hw' : op_whichType o (whichType a) (whichType b) = bigRatType)
      by now rewrite Hwhich.
    destruct (rationals_run name o _ a b h Hop Hw' HbigRat Sa Sb Aa Ab)
      as (la & lb & qa & qb & ext & Hdisp & Hla & Hlb & Hqa & Hqb).
    destruct (Binary_shrunk a b name h (h ++ ext) (if qt qa qb then BigRat la else BigRat lb))
      as (r & Hrun & Hmin & Hv).
    + rewrite Hdisp. cbn [asBigRat].
      unfold bind at 1. unfold ret at 1. unfold bind at 1. unfold ret at 1.
      rewrite (bind_Ok _ _ _ _ _ (load_Some _ _ _ Hla)).
      rewrite (bind_Ok _ _ _ _ _ (load_Some _ _ _ Hlb)).
      now destruct (qt qa qb).
    + destruct (qt qa qb); cbn [allocated]; eauto.
    + exists r, (h ++ ext). split; [exact Hrun|]. split; [apply prefix_app_ext|]. split.
      * apply Hmin. now destruct (qt qa qb).
      * rewrite Hv, <- (Hq qa _ Hqa qb _ Hqb).
        destruct (qt qa qb); cbn [valueQ]; [rewrite Hla | rewrite Hlb]; assumption.
Qed.

(** X8. [min] and [max] of two scalars return the lesser, or the
    greater, of the two values: the value of the result is the value of
    one of the operands, and it is held at the lowest rank that holds
    it, the operand chosen by the table's entry being shrunk ([1 min
    3/2] is the native 1). No cell of the store is changed. *)
Theorem min_max_select (a b : Value) (h : Heap) :
  isScalar a -> isScalar b -> allocated h a -> allocated h b ->
  inRange a -> inRange b ->
  (exists r h',
     Binary a "min" b h = (Ok r, h') /\ h `prefix_of` h' /\
     minimal h' r /\
     (valueQ h' r == valueQ h a \/ valueQ h' r == valueQ h b)%Q /\
     (valueQ h' r <= valueQ h a /\ valueQ h' r <= valueQ h b)%Q) /\
  (exists r h',
     Binary a "max" b h = (Ok r, h') /\ h `prefix_of` h' /\
     minimal h' r /\
     (valueQ h' r == valueQ h a \/ valueQ h' r == valueQ h b)%Q /\
     (valueQ h a <= valueQ h' r /\ valueQ h b <= valueQ h' r)%Q).
Proof.
  intros Sa Sb Aa Ab Ra Rb. split.
  - destruct (selection_run "min" ops.min Z.ltb (fun i j => (cmpZ i j <? 0)%Z)
                (fun p q => (cmpQ p q <? 0)%Z) a b h
                eq_refl eq_refl eq_refl eq_refl eq_refl)
      as (r & h' & Hrun & P & W & V); try assumption.
    + apply cmpZ_lt.
    + intros x y. unfold cmpQ. rewrite Qcompare_inject_Z. apply cmpZ_lt.
    + intros p p' Hp q q' Hq. unfold cmpQ. now rewrite (Qcompare_comp p p' Hp q q' Hq).
    + exists r, h'. repeat (split; [assumption|]).
      destruct (cmpQ (valueQ h a) (valueQ h b) <? 0)%Z eqn:E.
      * apply cmpQ_lt in E. split; [now left|]. rewrite V. split; [apply Qle_refl|].
        now apply Qlt_le_weak.
      * split; [now right|]. rewrite V. split; [|apply Qle_refl].
        apply Qnot_lt_le. intros L. apply cmpQ_lt in L. congruence.
  - destruct (selection_run "max" ops.max Z.gtb (fun i j => (cmpZ i j >? 0)%Z)
                (fun p q => (cmpQ p q >? 0)%Z) a b h
                eq_refl eq_refl eq_refl eq_refl eq_refl)
      as (r & h' & Hrun & P & W & V); try assumption.
    + apply cmpZ_gt.
    + intros x y. unfold cmpQ. rewrite Qcompare_inject_Z. apply cmpZ_gt.
    + intros p p' Hp q q' Hq. unfold cmpQ. now rewrite (Qcompare_comp p p' Hp q q' Hq).
    + exists r, h'. repeat (split; [assumption|]).
      destruct (cmpQ (valueQ h a) (valueQ h b) >? 0)%Z eqn:E.
      * apply cmpQ_gt in E. split; [now left|]. rewrite V. split; [apply Qle_refl|].
        now apply Qlt_le_weak.
      * split; [now right|]. rewrite V. split; [|apply Qle_refl].
        apply Qnot_lt_le. intros L. apply cmpQ_gt in L. congruence.
Qed.

(** X8 at [1 min 3/2]: the result is the native integer 1. *)
Lemma min_max_select_witness :
  exists h',
    Binary (Int 1) "min" (BigRat 0) [Qmake 3 2] = (Ok (Int 1), h') /\
    [Qmake 3 2] `prefix_of` h' /\
    minimal h' (Int 1) /\
    (valueQ h' (Int 1) <= valueQ [Qmake 3 2] (Int 1) /\
     valueQ h' (Int 1) <= valueQ [Qmake 3 2] (BigRat 0))%Q.
Proof.
  destruct (proj1 (min_max_select (Int 1) (BigRat 0) [Qmake 3 2]
                     ltac:(discriminate) ltac:(discriminate) I ltac:(now eexists)
                     ltac:(cbv; split; discriminate) I))
    as (r & h' & Hrun & P & Hmin & _ & Hle).
  assert (E : Binary (Int 1) "min" (BigRat 0) [Qmake 3 2] =
              (Ok (Int 1), [Qmake 3 2; Qmake 1 1])) by reflexivity.
  rewrite E in Hrun. injection Hrun as <- <-.
  exists [Qmake 3 2; Qmake 1 1]. now repeat split.
Defined.

(** ** Results at the lowest rank *)

Local Open Scope Z_scope.

Lemma inRange_BigInt_shrink (z : Z) : inRange (BigInt_shrink z).
Proof.
  destruct (decide (fits z)) as [F|F].
  - now rewrite BigInt_shrink_fits.
  - now rewrite BigInt_shrink_big.
Qed.

Lemma rem_fits (x y : Z) : fits x -> fits (Z.rem x y).
Proof.
  unfold fits, minInt, maxInt, intBits. change (2 ^ (64 - 1))%Z with (2 ^ 63)%Z.
  intros F. destruct (Z.eq_dec y 0) as [->|Hy].
  - rewrite Z.rem_0_r_ext by reflexivity. lia.
  - pose proof (Z.rem_abs x y Hy) as A.
    pose proof (Z.rem_le (Z.abs x) (Z.abs y) ltac:(lia) ltac:(lia)) as L.
    pose proof (Z.rem_sign_mul x y Hy) as S. nia.
Qed.

(** The bits of a number within [-2^n, 2^n) are its sign from [n] on. *)
Lemma range_bits (n z : Z) :
  (0 <= n)%Z ->
  (- 2 ^ n <= z < 2 ^ n)%Z <->
  (forall i, (n <= i)%Z -> Z.testbit z i = (z <? 0)%Z).
Proof.
  intros Hn.
  assert (Pos : forall a, (0 <= a)%Z ->
            (a < 2 ^ n)%Z <-> (forall i, (n <= i)%Z -> Z.testbit a i = false)).
  { intros a Ha. split.
    - intros Hlt i Hi. destruct (Z.eq_dec a 0) as [->|Hne]; [apply Z.bits_0|].
      apply Z.bits_above_log2; [lia|].
      assert (Z.log2 a < n)%Z by (apply Z.log2_lt_pow2; lia). lia.
    - intros Hb. destruct (Z.eq_dec a 0) as [->|Hne].
      + apply Z.pow_pos_nonneg; lia.
      + apply Z.log2_lt_pow2; [lia|].
        destruct (Z.lt_ge_cases (Z.log2 a) n) as [|Hge]; [assumption|].
        specialize (Hb (Z.log2 a) Hge). rewrite Z.bit_log2 in Hb by lia. discriminate Hb. }
  destruct (Z.ltb_spec z 0) as [Hz|Hz].
  - assert (E : z = Z.lnot (Z.lnot z)) by now rewrite Z.lnot_involutive.
    pose proof (Pos (Z.lnot z) ltac:(unfold Z.lnot; lia)) as P.
    unfold Z.lnot in P at 1. split.
    + intros R i Hi. rewrite E, Z.lnot_spec by lia.
      rewrite (proj1 P); [reflexivity | lia | assumption].
    + intros Hb. assert (Z.pred (- z) < 2 ^ n)%Z; [|lia].
      change (Z.pred (- z)) with (Z.lnot z). unfold Z.lnot in P. apply P.
      intros i Hi. change (Z.pred (- z)) with (Z.lnot z).
      rewrite Z.lnot_spec by lia. now rewrite Hb.
  - pose proof (Pos z Hz) as P. pose proof (Z.pow_pos_nonneg 2 n ltac:(lia) Hn).
    split.
    + intros R. apply P. lia.
    + intros Hb. split; [lia|]. now apply P.
Qed.

Lemma fits_bits (z : Z) : fits z <-> (forall i, (63 <= i)%Z -> Z.testbit z i = (z <? 0)%Z).
Proof.
  rewrite <- (range_bits 63 z) by lia.
  unfold fits, minInt, maxInt, intBits. change (2 ^ (64 - 1))%Z with (2 ^ 63)%Z. lia.
Qed.

Lemma land_fits (x y : Z) : fits x -> fits y -> fits (Z.land x y).
Proof.
  rewrite !fits_bits. intros Hx Hy i Hi.
  rewrite Z.land_spec, Hx, Hy by assumption.
  destruct (Z.ltb_spec x 0), (Z.ltb_spec y 0), (Z.ltb_spec (Z.land x y) 0);
    try reflexivity; pose proof (Z.land_neg x y); lia.
Qed.

Lemma lor_fits (x y : Z) : fits x -> fits y -> fits (Z.lor x y).
Proof.
  rewrite !fits_bits. intros Hx Hy i Hi.
  rewrite Z.lor_spec, Hx, Hy by assumption.
  destruct (Z.ltb_spec x 0), (Z.ltb_spec y 0), (Z.ltb_spec (Z.lor x y) 0);
    try reflexivity; pose proof (Z.lor_neg x y); lia.
Qed.

Lemma lxor_fits (x y : Z) : fits x -> fits y -> fits (Z.lxor x y).
Proof.
  rewrite !fits_bits. intros Hx Hy i Hi.
  rewrite Z.lxor_spec, Hx, Hy by assumption.
  destruct (Z.ltb_spec x 0), (Z.ltb_spec y 0), (Z.ltb_spec (Z.lxor x y) 0);
    try reflexivity; pose proof (Z.lxor_nonneg x y); lia.
Qed.


Lemma inRange_toInt (t : bool) : inRange (toInt t).
Proof. destruct t; cbv; split; discriminate. Qed.

Lemma BigRat_shrink_inRange (l : loc) (h h' : Heap) (r : Value) :
  BigRat_shrink l h = (Ok r, h') -> inRange r.
Proof.
  unfold BigRat_shrink, bind. destruct (load l h) as [[q| |] h1]; try discriminate.
  destruct (ratIsInt q); unfold ret; intros [= <- _];
    [apply inRange_BigInt_shrink | exact I].
Qed.

Lemma binaryBigRatOp_inRange (u v : Value) (op : Q -> Q -> Q) (h h' : Heap) (r : Value) :
  binaryBigRatOp u op v h = (Ok r, h') -> inRange r.
Proof.
  unfold binaryBigRatOp. intros H.
  repeat (unfold bind at 1 in H;
          match type of H with
          | match ?m ?s with _ => _ end = _ =>
              destruct (m s) as [[?| |] ?]; try discriminate H
          end).
  eapply BigRat_shrink_inRange, H.
Qed.

Lemma ranged_ret (v : Value) : inRange v -> ranged (ret v).
Proof. now intros H h r h' [= <- _]. Qed.

Lemma ranged_panic (e : Error) : ranged (panic e).
Proof. intros h r h'. discriminate. Qed.

Lemma ranged_bind {A} (m : HM A) (k : A -> HM Value) :
  (forall a, ranged (k a)) -> ranged (bind m k).
Proof.
  intros Hk h r h'. unfold bind. destruct (m h) as [[a| |] h1]; try discriminate.
  apply Hk.
Qed.

Lemma ranged_asInt (u : Value) (k : Z -> HM Value) :
  (forall x, u = Int x -> ranged (k x)) -> ranged (bind (asInt u) k).
Proof.
  intros Hk h r h'. destruct u; try discriminate. now apply Hk.
Qed.

Lemma ranged_bigRatInt64 (x : Z) (k : Value -> HM Value) :
  (forall l, ranged (k (BigRat l))) -> ranged (bind (bigRatInt64 x) k).
Proof. intros Hk h r h'. apply Hk. Qed.

Lemma ranged_BigRat_shrink (l : loc) : ranged (BigRat_shrink l).
Proof. intros h r h'. apply BigRat_shrink_inRange. Qed.

Lemma ranged_binaryBigRatOp (u v : Value) (op : Q -> Q -> Q) :
  ranged (binaryBigRatOp u op v).
Proof. intros h r h'. apply binaryBigRatOp_inRange. Qed.

Lemma inRange_one : inRange one.
Proof. cbv; split; discriminate. Qed.

Ltac ranged_tac1 :=
  first
    [ apply ranged_panic
    | apply ranged_binaryBigRatOp
    | apply ranged_asInt; intros ? ->
    | apply ranged_bigRatInt64; intros ?
    | match goal with
      | |- ranged (bind _ _) => apply ranged_bind; intros ?
      | |- ranged (match ?x with _ => _ end) => destruct x
      | |- ranged (if ?b then _ else _) => destruct b
      | |- ranged (let _ := _ in _) => cbv zeta
      | |- ranged (ret _) => apply ranged_ret
      end ].

Ltac in_range :=
  first
    [ exact I | assumption | apply inRange_BigInt_shrink | apply inRange_toInt
    | apply inRange_one | apply wrap64_fits
    | apply rem_fits; assumption | apply land_fits; assumption
    | apply lor_fits; assumption | apply lxor_fits; assumption ].

(** The scalar entries of the table return a native integer in range,
    where the native operands are. *)
Lemma entries_inRange :
  Forall (fun no => forall t f, t <> vectorType -> op_fn (snd no) t = Some f ->
            forall rec u v, inRange u -> inRange v -> ranged (f rec u v))
         binaryOpsList.
Proof.
  unfold binaryOpsList.
  repeat (apply List.Forall_cons; [|]); try apply List.Forall_nil.
  all: cbn [snd]; intros [] f Ht; try contradiction; cbn; intros [= <-] rec u v Ru Rv.
  all: unfold onInts, onBigInts, onBigRats, binaryBigIntOp.
  all: repeat ranged_tac1.
  all: in_range.
Qed.

Lemma ToType_inRange (v w : Value) (t : valueType) (h h' : Heap) :
  ToType v t h = (Ok w, h') -> inRange v -> inRange w.
Proof.
  destruct v, t; cbn [ToType]; unfold bigRatInt64, bigRatTwoInt64s, bigInt64, newRat,
    bind, ret, panic; cbn; intros [= <- _] R; solve [exact R | exact I].
Qed.

(** The BigRat entry of [pow] at a non-negative integral exponent: its
    raw result. *)
Lemma pow_bigRat_result (f : binaryFn) (rec : BinaryFn) (lu lv : loc) (h : Heap)
    (qu : Q) (e : Z) :
  op_fn ops.pow bigRatType = Some f ->
  h !! lu = Some qu -> h !! lv = Some (inject_Z e) -> 0 <= e ->
  exists r0 h0,
    f rec (BigRat lu) (BigRat lv) h = (Ok r0, h0) /\
    allocated h0 r0 /\ inRange r0 /\
    (valueQ h0 r0 == Qmake (Qnum qu ^ e) (Z.to_pos (Zpos (Qden qu) ^ e)))%Q.
Proof.
  intros Hf Hu Hv He. destruct (Z.eq_dec e 0) as [->|Hne].
  - exists (Int 1), h. injection Hf as <-. split; [|split; [|split]].
    + cbn [asBigRat]. rewrite (bind_Ok (ret _) _ h lv h) by reflexivity.
      now rewrite (bind_Ok _ _ _ _ _ (load_Some _ _ _ Hv)).
    + exact I.
    + cbv; split; discriminate.
    + reflexivity.
  - assert (Hpos : 0 < e) by lia.
    pose proof (pos_pow_pos (Qden qu) e He) as Hd.
    set (p := Qmake (Qnum qu ^ e) (Z.to_pos (Zpos (Qden qu) ^ e))).
    eexists _, _. split; [|split; [|split]].
    + now apply pow_bigRat_run with (qu := qu) (e := e).
    + cbn [allocated]. rewrite <- (length_insert h lu p) at 1.
      rewrite list_lookup_middle by reflexivity. eauto.
    + exact I.
    + cbn [valueQ]. rewrite <- (length_insert h lu p) at 1.
      rewrite list_lookup_middle by reflexivity. cbn [default].
      now apply mkRat_pos.
Qed.

(** C4: what [Binary] returns for two scalars is held at the lowest
    rank that holds it, whatever the operator: a native integer in
    range, a BigInt out of it, a BigRat that is no integer. The native
    operands are taken in range, as an [int64] is. This holds of [**]
    at the BigRat rank too, whose entry returns its new cell as it is:
    the raw result is shrunk by [Binary], so that [2 ** 1/2], where
    the entry leaves the BigRat 2/1, is the native 2. *)
Theorem Binary_result_minimal :
  (forall (name : string) (a b : Value) (h h' : Heap) (r : Value),
     isScalar a -> isScalar b -> inRange a -> inRange b ->
     Binary a name b h = (Ok r, h') -> minimal h' r) /\
  (forall (lu : loc) (bv : bool) (e : Z) (h : Heap) (qu : Q),
     h !! lu = Some qu -> 0 <= e ->
     exists r h',
       Binary (BigRat lu) "**" (integer bv e) h = (Ok r, h') /\
       minimal h' r /\
       (valueQ h' r == Qmake (Qnum qu ^ e) (Z.to_pos (Zpos (Qden qu) ^ e)))%Q) /\
  (let h' := [Qmake 1 2; Qmake 2 1; Qmake 2 1] in
   Binary (Int 2) "**" (BigRat 0) [Qmake 1 2] = (Ok (Int 2), h') /\
   exists f, op_fn ops.pow bigRatType = Some f /\
     f Binary (BigRat 1) (BigRat 0) [Qmake 1 2; Qmake 2 1] = (Ok (BigRat 2), h') /\
     shrink (BigRat 2) h' = (Ok (Int 2), h')).
Proof.
  split; [|split].
  - intros name a b h h' r Sa Sb Ra Rb H.
    rewrite Binary_unfold in H. unfold Binary_body, bind in H.
    destruct (Binary_dispatch Binary a name b h) as [[r0| |] h0] eqn:D; try discriminate H.
    enough (inRange r0) as R0 by now destruct (shrink_minimal _ _ _ _ H R0) as [-> ?].
    unfold Binary_dispatch in D.
    destruct (binaryOps !! name) as [o|] eqn:Hop; [|discriminate D].
    destruct (binaryOps_regular _ _ Hop) as (Hvec & _).
    apply elem_of_list_to_map_2 in Hop.
    pose proof entries_inRange as F. rewrite Forall_forall in F.
    specialize (F (name, o) Hop). cbn [snd] in F. cbv zeta in D.
    set (t := op_whichType o (whichType a) (whichType b)) in *.
    assert (Ht : t <> vectorType).
    { intros E. destruct (Hvec _ _ E); contradiction. }
    destruct (op_fn o t) as [f|] eqn:Hf; [|discriminate D].
    unfold bind at 1 in D.
    destruct (ToType a t h) as [[a'| |] h1] eqn:Ea; try discriminate D.
    unfold bind at 1 in D.
    destruct (ToType b t h1) as [[b'| |] h2] eqn:Eb; try discriminate D.
    apply (F t f Ht Hf Binary a' b') with (h := h2) (h' := h0); [| |exact D].
    + eapply ToType_inRange; eauto.
    + eapply ToType_inRange; eauto.
  - intros lu bv e h qu Hu He.
    destruct (op_fn ops.pow bigRatType) as [f|] eqn:Hf; [|discriminate].
    destruct (pow_bigRat_result f Binary lu (length h) (h ++ [inject_Z e]) qu e Hf)
      as (r0 & h0 & Hrun & Hal & Hin & Hval); try assumption.
    { now apply lookup_app_l_Some. }
    { now apply list_lookup_middle. }
    destruct (Binary_shrunk (BigRat lu) (integer bv e) "**" h h0 r0) as (r & Hb & Hmin & Hv).
    + unfold Binary_dispatch.
      replace (binaryOps !! "**") with (Some ops.pow) by reflexivity.
      assert (Hw : op_whichType ops.pow (whichType (BigRat lu))
                     (whichType (integer bv e)) = bigRatType) by now destruct bv.
      cbv zeta. rewrite Hw, Hf.
      rewrite (bind_Ok (ToType _ _) _ h (BigRat lu) h) by reflexivity.
      rewrite (bind_Ok (ToType _ _) _ h (BigRat (length h)) (h ++ [inject_Z e])).
      2:{ destruct bv; cbn; unfold bigRatInt64, bigRatTwoInt64s, newRat, bind, ret; cbn;
          now rewrite mkRat_int. }
      exact Hrun.
    + exact Hal.
    + exists r, h0. split; [exact Hb|]. split; [now apply Hmin|]. now rewrite Hv.
  - cbv zeta. split; [vm_compute; reflexivity|]. eexists; split; [reflexivity|]. split; vm_compute; reflexivity.
Qed.

(** C4 at [1/2 + 1/2], which is the native 1, and at [(2/3) ** 2]. *)
Lemma Binary_result_minimal_witness :
  minimal (snd (Binary (BigRat 0) "+" (BigRat 0) [Qmake 1 2])) (Int 1) /\
  exists r h',
    Binary (BigRat 0) "**" (Int 2) [Qmake 2 3] = (Ok r, h') /\
    minimal h' r /\ (valueQ h' r == Qmake 4 9)%Q.
Proof.
  destruct Binary_result_minimal as (Hmin & Hpow & _). split.
  - apply (Hmin "+" (BigRat 0) (BigRat 0) [Qmake 1 2]); try exact I; try discriminate.
    vm_compute; reflexivity.
  - apply (Hpow 0%nat false 2 [Qmake 2 3] (Qmake 2 3)); [reflexivity | lia].
Defined.

Local Close Scope Z_scope.

(** ** Rational literals *)

Lemma Split_length (a b : string) (sep : ascii) :
  length (Split (a +:+ String sep b) sep) =
    (length (Split a sep) + length (Split b sep))%nat.
Proof.
  assert (N : forall s, Split s sep <> []).
  { intros s. induction s as [|c s IH]; cbn; [discriminate|].
    destruct (Ascii.eqb c sep); [discriminate|]. now destruct (Split s sep). }
  induction a as [|c a IH].
  - change (Split ("" +:+ String sep b) sep) with (Split (String sep b) sep).
    cbn. now rewrite Ascii.eqb_refl.
  - change (String c a +:+ String sep b) with (String c (a +:+ String sep b)).
    cbn. destruct (Ascii.eqb c sep); cbn; [now rewrite IH|].
    specialize (N a) as Na. specialize (N (a +:+ String sep b)) as Nab.
    destruct (Split a sep), (Split (a +:+ String sep b) sep); try contradiction.
    cbn in *. lia.
Qed.

Lemma Split_length_pos (s : string) (sep : ascii) : (1 <= length (Split s sep))%nat.
Proof.
  induction s as [|c s IH]; cbn; [lia|].
  destruct (Ascii.eqb c sep); cbn; [lia|].
  destruct (Split s sep); cbn in *; lia.
Qed.

Lemma Split_none (s : string) (sep : ascii) :
  ContainsRune s sep = false -> Split s sep = [s].
Proof.
  induction s as [|c s IH]; cbn; [reflexivity|].
  destruct (Ascii.eqb c sep); [discriminate|]. intros H. now rewrite IH.
Qed.

Lemma Split_two (a b : string) (sep : ascii) :
  ContainsRune a sep = false -> ContainsRune b sep = false ->
  Split (a +:+ String sep b) sep = [a; b].
Proof.
  intros Ha Hb. induction a as [|c a IH].
  - change (Split ("" +:+ String sep b) sep) with (Split (String sep b) sep).
    cbn. now rewrite Ascii.eqb_refl, Split_none.
  - change (String c a +:+ String sep b) with (String c (a +:+ String sep b)).
    cbn in *. destruct (Ascii.eqb c sep); [discriminate|]. now rewrite IH.
Qed.

Lemma ContainsRune_app (a b : string) (sep : ascii) :
  ContainsRune (a +:+ String sep b) sep = true.
Proof.
  induction a as [|c a IH].
  - change ("" +:+ String sep b)%string with (String sep b).
    cbn. now rewrite Ascii.eqb_refl.
  - change (String c a +:+ String sep b) with (String c (a +:+ String sep b)).
    cbn. now destruct (Ascii.eqb c sep).
Qed.

Lemma mkRat_value (n d : Z) :
  d <> 0%Z -> (mkRat n d == inject_Z n / inject_Z d)%Q.
Proof.
  intros Hd. unfold mkRat. rewrite Qred_correct.
  destruct d as [|p|p]; [contradiction| |];
    unfold Qeq, Qdiv, Qmult, Qinv, inject_Z; reflexivity.
Qed.

Lemma valueQ_prefix (h h' : Heap) (v : Value) :
  allocated h v -> h `prefix_of` h' -> valueQ h' v = valueQ h v /\ allocated h' v.
Proof.
  intros A P. destruct v; cbn in *; auto.
  destruct A as [q Hq]. rewrite (prefix_lookup_Some _ _ _ _ Hq P), Hq. eauto.
Qed.

Section Literals.

Variable SetIntString : string -> OrErr Z.
Variable SetBigIntString : string -> OrErr Z.
Variable SetBigRatString : string -> OrErr Q.

Let literal := ValueString SetIntString SetBigIntString SetBigRatString.

(** One side of a rational literal: a scalar whose cell, if it has one,
    is live; the store has grown by that cell at most. *)
Lemma literal_side (s : string) (h h' : Heap) (x : Value) :
  ContainsRune s "/" = false ->
  literal s h = (Ok (Good x), h') ->
  isScalar x /\ allocated h' x /\ h `prefix_of` h'.
Proof using Type.
  intros Hs. unfold literal, ValueString, ValueString_body. rewrite Hs.
  destruct (SetIntString s) as [i|].
  { intros [= <- <-]. split; [discriminate|]. split; [exact I | reflexivity]. }
  destruct (SetBigIntString s) as [b|].
  { intros [= <- <-]. split; [apply BigInt_shrink_scalar|]. split; [|reflexivity].
    unfold BigInt_shrink. now destruct (_ && _). }
  destruct (SetBigRatString s) as [r|]; [|discriminate].
  unfold newRat, BigRat_shrink, bind, load. rewrite list_lookup_middle by reflexivity.
  destruct (ratIsInt r); unfold ret; intros [= <- <-].
  - split; [apply BigInt_shrink_scalar|]. split; [|apply prefix_app_ext].
    unfold BigInt_shrink. now destruct (_ && _).
  - split; [discriminate|]. split; [|apply prefix_app_ext].
    cbn. rewrite list_lookup_middle by reflexivity. eauto.
Qed.

(** The general path of [ValueString], for a numerator and a
    denominator of any scalar ranks. *)
Lemma mix_run (num den : Value) (h : Heap) :
  isScalar num -> isScalar den -> allocated h num -> allocated h den ->
  exists h1,
    h `prefix_of` h1 /\
    ((valueQ h den == 0)%Q ->
       (rden <- ToType den bigRatType ;;
        l <- asBigRat rden ;;
        q <- load l ;;
        if (ratSign q =? 0)%Z then panic zero_denominator_in_rational
        else
          rnum <- ToType num bigRatType ;;
          x <- binaryBigRatOp rnum ratQuo rden ;;
          ret (Good x)) h = (Panic zero_denominator_in_rational, h1)) /\
    (~ (valueQ h den == 0)%Q ->
       exists r h',
         (rden <- ToType den bigRatType ;;
          l <- asBigRat rden ;;
          q <- load l ;;
          if (ratSign q =? 0)%Z then panic zero_denominator_in_rational
          else
            rnum <- ToType num bigRatType ;;
            x <- binaryBigRatOp rnum ratQuo rden ;;
            ret (Good x)) h = (Ok (Good r), h') /\
         h `prefix_of` h' /\ minimal h' r /\
         (valueQ h' r == valueQ h num / valueQ h den)%Q).
Proof.
  intros Sn Sd An Ad.
  destruct (ToType_bigRat den h Sd Ad) as (ld & qd & ed & Ed & Hld & Hqd).
  assert (Pd : h `prefix_of` h ++ ed) by apply prefix_app_ext.
  destruct (valueQ_prefix h (h ++ ed) num An Pd) as [Vn An'].
  destruct (ToType_bigRat num (h ++ ed) Sn An') as (ln & qn & en & En & Hln & Hqn).
  rewrite Vn in Hqn. exists (h ++ ed). split; [exact Pd|].
  rewrite (bind_Ok _ _ _ _ _ Ed). cbn [asBigRat].
  rewrite (bind_Ok (ret _) _ _ ld (h ++ ed)) by reflexivity.
  rewrite (bind_Ok _ _ _ _ _ (load_Some _ _ _ Hld)).
  split.
  - intros Z. rewrite <- Hqd in Z. apply ratSign_0 in Z. now rewrite Z.
  - intros NZ. destruct (ratSign qd =? 0)%Z eqn:E.
    { apply ratSign_0 in E. rewrite Hqd in E. contradiction. }
    rewrite (bind_Ok _ _ _ _ _ En).
    assert (Hld' : ((h ++ ed) ++ en) !! ld = Some qd) by now apply lookup_app_l_Some.
    rewrite (bind_Ok _ _ _ _ _ (binaryBigRatOp_spec ratQuo ln ld qn qd _ Hln Hld')).
    eexists _, _. split; [reflexivity|]. split; [|split].
    + rewrite <- !app_assoc. apply prefix_app_ext.
    + apply minimal_shrunk.
    + rewrite valueQ_shrunk. unfold ratQuo. now rewrite Qred_correct, Hqn, Hqd.
Qed.

(** X9. A literal with a slash is read as numerator and denominator.
    With two slashes or more it panics, "bad rat". With one, and sides
    that read as the scalars [num] and [den]: a zero denominator
    panics, "zero denominator in rational"; otherwise the value is the
    quotient of the two, held at the lowest rank that holds it. A
    numerator that does not read gives its error back, with no panic. *)
Theorem rational_literal (e0 e1 : string) (h : Heap) :
  ContainsRune e0 "/" = false -> ContainsRune e1 "/" = false ->
  (forall e2, literal (e0 +:+ "/" +:+ e1 +:+ "/" +:+ e2) h = (Panic bad_rat, h)) /\
  (forall err h0, literal e0 h = (Ok (Bad err), h0) ->
     literal (e0 +:+ "/" +:+ e1) h = (Ok (Bad err), h0)) /\
  (forall num den h0 h1,
     literal e0 h = (Ok (Good num), h0) ->
     literal e1 h0 = (Ok (Good den), h1) ->
     ((valueQ h1 den == 0)%Q ->
        exists h', literal (e0 +:+ "/" +:+ e1) h = (Panic zero_denominator_in_rational, h')) /\
     (~ (valueQ h1 den == 0)%Q ->
        exists r h',
          literal (e0 +:+ "/" +:+ e1) h = (Ok (Good r), h') /\
          minimal h' r /\
          (valueQ h' r == valueQ h0 num / valueQ h1 den)%Q)).
Proof using Type.
  intros H0 H1.
  assert (Inner : forall s, ContainsRune s "/" = false ->
    ValueString_body SetIntString SetBigIntString SetBigRatString (fun _ => timeout) s
    = literal s).
  { intros s Hs. unfold literal, ValueString, ValueString_body. now rewrite Hs. }
  split; [|split].
  - intros e2. unfold literal, ValueString. unfold ValueString_body at 1.
    change ("/" +:+ e1 +:+ "/" +:+ e2) with (String "/" (e1 +:+ String "/" e2)).
    rewrite ContainsRune_app.
    pose proof (Split_length e0 (e1 +:+ String "/" e2) "/") as L.
    rewrite (Split_length e1 e2) in L.
    pose proof (Split_length_pos e0 "/"). pose proof (Split_length_pos e1 "/").
    pose proof (Split_length_pos e2 "/").
    destruct (Split (e0 +:+ String "/" (e1 +:+ String "/" e2)) "/") as [|? [|? [|? ?]]];
      cbn in L; try lia; reflexivity.
  - intros err h0 E. unfold literal at 1, ValueString. unfold ValueString_body at 1.
    change ("/" +:+ e1) with (String "/" e1).
    rewrite ContainsRune_app, (Split_two e0 e1 "/" H0 H1), (Inner e0 H0).
    unfold bind at 1. now rewrite E.
  - intros num den h0 h1 E0 E1.
    destruct (literal_side e0 h h0 num H0 E0) as (Sn & An & P0).
    destruct (literal_side e1 h0 h1 den H1 E1) as (Sd & Ad & P1).
    destruct (valueQ_prefix h0 h1 num An P1) as [Vn An1].
    assert (Run : literal (e0 +:+ "/" +:+ e1) h =
      match num, den with
      | Int n, Int d =>
          (q <- bigRatTwoInt64s n d ;; l <- asBigRat q ;;
           x <- BigRat_shrink l ;; ret (Good x)) h1
      | _, _ =>
          (rden <- ToType den bigRatType ;;
           l <- asBigRat rden ;;
           q <- load l ;;
           if (ratSign q =? 0)%Z then panic zero_denominator_in_rational
           else
             rnum <- ToType num bigRatType ;;
             x <- binaryBigRatOp rnum ratQuo rden ;;
             ret (Good x)) h1
      end).
    { unfold literal at 1, ValueString. unfold ValueString_body at 1.
      change ("/" +:+ e1) with (String "/" e1).
      rewrite ContainsRune_app, (Split_two e0 e1 "/" H0 H1), (Inner e0 H0), (Inner e1 H1).
      rewrite (bind_Ok _ _ _ _ _ E0), (bind_Ok _ _ _ _ _ E1).
      destruct num, den; reflexivity. }
    rewrite Run. rewrite <- Vn.
    destruct (mix_run num den h1 Sn Sd An1 Ad) as (h2 & P2 & Zero & Good_).
    assert (General :
      ((valueQ h1 den == 0)%Q ->
        exists h',
          (rden <- ToType den bigRatType ;;
           l <- asBigRat rden ;;
           q <- load l ;;
           if (ratSign q =? 0)%Z then panic zero_denominator_in_rational
           else
             rnum <- ToType num bigRatType ;;
             x <- binaryBigRatOp rnum ratQuo rden ;;
             ret (Good x)) h1 = (Panic zero_denominator_in_rational, h')) /\
      (~ (valueQ h1 den == 0)%Q ->
        exists r h',
          (rden <- ToType den bigRatType ;;
           l <- asBigRat rden ;;
           q <- load l ;;
           if (ratSign q =? 0)%Z then panic zero_denominator_in_rational
           else
             rnum <- ToType num bigRatType ;;
             x <- binaryBigRatOp rnum ratQuo rden ;;
             ret (Good x)) h1 = (Ok (Good r), h') /\
          minimal h' r /\ (valueQ h' r == valueQ h1 num / valueQ h1 den)%Q)).
    { split.
      - intros Z. exists h2. now apply Zero.
      - intros NZ. destruct (Good_ NZ) as (r & h' & R & _ & Mi & V). now exists r, h'. }
    destruct num as [n| | |]; try exact General.
    destruct den as [d| | |]; try exact General.
    clear General Zero Good_. cbn [valueQ]. unfold bigRatTwoInt64s. split.
    + intros Z. exists h1. assert (d = 0%Z) as ->.
      { unfold Qeq, inject_Z in Z. cbn in Z. lia. }
      reflexivity.
    + intros NZ. assert (Hd : d <> 0%Z).
      { intros ->. now apply NZ. }
      destruct (Z.eqb_spec d 0) as [|_]; [contradiction|].
      exists (if ratIsInt (mkRat n d) then BigInt_shrink (Qnum (mkRat n d))
              else BigRat (length h1)), (h1 ++ [mkRat n d]).
      split; [|split].
      * unfold newRat, BigRat_shrink, bind, ret, asBigRat, load. cbn.
        rewrite list_lookup_middle by reflexivity. now destruct (Qden (mkRat n d)).
      * apply minimal_shrunk.
      * rewrite valueQ_shrunk. now apply mkRat_value.
Qed.

End Literals.

(** X9 at the literal [6/4] over the decimal readers: the rational 3/2. *)
Lemma rational_literal_witness :
  exists r h',
    ValueString demo.SetIntString demo.SetBigIntString demo.SetBigRatString "6/4" []
      = (Ok (Good r), h') /\
    minimal h' r /\ (valueQ h' r == valueQ [] (Int 6) / valueQ [] (Int 4))%Q.
Proof.
  destruct (rational_literal demo.SetIntString demo.SetBigIntString demo.SetBigRatString
              "6" "4" [] eq_refl eq_refl) as (_ & _ & H).
  destruct (H (Int 6) (Int 4) [] [] eq_refl eq_refl) as (_ & H').
  apply H'. discriminate.
Defined.

(** ** Printing vectors *)

Lemma append_nil_r (s : string) : s +:+ "" = s.
Proof.
  induction s as [|a s IH]; [reflexivity|].
  change (String a s +:+ "") with (String a (s +:+ "")). now rewrite IH.
Qed.

Lemma append_assoc (s t u : string) : (s +:+ t) +:+ u = s +:+ t +:+ u.
Proof.
  induction s as [|a s IH]; [reflexivity|].
  change (String a ((s +:+ t) +:+ u) = String a (s +:+ t +:+ u)). now rewrite IH.
Qed.

Section Printing.

Variable str : Value -> string.

Lemma loop_index (l : list Value) (i : nat) (b : string) :
  fst (fold_left (writeElem str) l (i, b)) = (i + length l)%nat.
Proof using Type.
  revert i b. induction l as [|e l IH]; intros i b; cbn [fold_left length fst].
  - lia.
  - destruct (writeElem str (i, b) e) as [i' b'] eqn:E. rewrite IH.
    unfold writeElem in E. injection E as <- _. lia.
Qed.

Lemma loop_buffer (l : list Value) (i : nat) (b : string) :
  (0 < i)%nat -> snd (fold_left (writeElem str) l (i, b)) = b +:+ afterFirst str l.
Proof using Type.
  revert i b. induction l as [|e l IH]; intros i b Hi.
  - cbn. now rewrite append_nil_r.
  - unfold afterFirst. cbn [fold_left]. unfold writeElem at 2 4.
    destruct i as [|i]; [lia|]. cbn [Nat.ltb Nat.leb].
    rewrite !IH by lia. now rewrite !append_assoc.
Qed.

Lemma String_cons (e : Value) (l : list Value) :
  Vector_String str (e :: l) = str e +:+ afterFirst str l.
Proof using Type.
  unfold Vector_String. cbn [fold_left].
  change (writeElem str (0%nat, "") e) with (1%nat, str e).
  apply loop_buffer. lia.
Qed.

Lemma rest_app (u v : list Value) : afterFirst str (u ++ v) = afterFirst str u +:+ afterFirst str v.
Proof using Type.
  unfold afterFirst at 1. rewrite fold_left_app.
  destruct (fold_left (writeElem str) u (1%nat, "")) as [i b] eqn:E.
  pose proof (loop_index u 1 "") as Hi. rewrite E in Hi. cbn in Hi.
  rewrite loop_buffer by lia. unfold afterFirst at 2. now rewrite E.
Qed.

Lemma rest_cons (e : Value) (l : list Value) :
  afterFirst str (e :: l) = " " +:+ Vector_String str (e :: l).
Proof using Type.
  rewrite String_cons. unfold afterFirst at 1. cbn [fold_left].
  change (writeElem str (1%nat, "") e) with (2%nat, " " +:+ str e).
  rewrite loop_buffer by lia. now rewrite append_assoc.
Qed.

Lemma String_app (u v : list Value) :
  u <> [] -> v <> [] ->
  Vector_String str (u ++ v) = Vector_String str u +:+ " " +:+ Vector_String str v.
Proof using Type.
  intros Hu Hv. destruct u as [|e u]; [contradiction|]. destruct v as [|e' v]; [contradiction|].
  change ((e :: u) ++ e' :: v) with (e :: (u ++ e' :: v)).
  rewrite !(String_cons e), rest_app, rest_cons. now rewrite append_assoc.
Qed.

End Printing.

(** X18. A vector prints as its elements in order with one space
    between two: the empty vector as the empty string, a vector of one
    element as the element, and two vectors put end to end as the two
    strings with a space between. Nothing marks a vector inside a
    vector: a non-empty vector among the elements prints as its
    elements would in its place. An empty vector among the elements
    still gets its space. *)
Theorem Vector_String_joins (scalarString : Value -> string) (u v w : list Value) :
  let str := Value_String scalarString in
  str (Vector []) = "" /\
  (forall e, str (Vector [e]) = str e) /\
  (u <> [] -> v <> [] -> str (Vector (u ++ v)) = str (Vector u) +:+ " " +:+ str (Vector v)) /\
  (v <> [] -> str (Vector (u ++ Vector v :: w)) = str (Vector (u ++ v ++ w))) /\
  (forall a b, str (Vector [a; Vector []; b]) = str a +:+ "  " +:+ str b).
Proof.
  intros str. split; [reflexivity|]. split; [|split; [|split]].
  - intros e. cbn [str Value_String]. rewrite String_cons. apply append_nil_r.
  - intros Hu Hv. cbn [str Value_String]. now apply String_app.
  - intros Hv. cbn [str Value_String]. fold str.
    assert (One : forall l, Vector_String str (Vector v :: l) = Vector_String str (v ++ l)).
    { intros l. destruct v as [|e v']; [contradiction|].
      change ((e :: v') ++ l) with (e :: (v' ++ l)).
      rewrite !String_cons, rest_app. cbn [str Value_String]. fold str.
      now rewrite String_cons, append_assoc. }
    destruct u as [|e u]; [apply One|].
    assert (Hne : forall l, Vector v :: l <> []) by discriminate.
    assert (Hne' : v ++ w <> []) by (destruct v; [contradiction | discriminate]).
    rewrite !(String_app str (e :: u)) by (try apply Hne; try exact Hne'; discriminate).
    now rewrite One.
  - intros a b. cbn [str Value_String]. fold str.
    rewrite String_cons, rest_cons, String_cons, rest_cons, String_cons.
    change (str (Vector [])) with "". change (afterFirst str []) with "".
    rewrite append_nil_r. reflexivity.
Qed.

(** X18 at the vector [1 (2 3) 4], which prints as [1 2 3 4] does. *)
Lemma Vector_String_joins_witness :
  let str := Value_String (fun _ => "n") in
  str (Vector ([Int 1] ++ Vector [Int 2; Int 3] :: [Int 4])) =
  str (Vector ([Int 1] ++ [Int 2; Int 3] ++ [Int 4])).
Proof.
  intros str.
  apply (Vector_String_joins _ [Int 1] [Int 2; Int 3] [Int 4]). discriminate.
Defined.

(** X17 at [1/2 * (3 1/2)], a scalar against a vector that holds the
    same cell. *)
Lemma Binary_frame_witness :
  let h := [Qmake 1 2] in
  let run := Binary (BigRat 0) "*" (Vector [Int 3; BigRat 0]) h in
  (forall l q, h !! l = Some q -> snd run !! l = Some q) /\
  (allocated h (BigRat 0) -> valueQ (snd run) (BigRat 0) = valueQ h (BigRat 0)) /\
  (allocated h (Vector [Int 3; BigRat 0]) ->
   valueQ (snd run) (Vector [Int 3; BigRat 0]) = valueQ h (Vector [Int 3; BigRat 0])).
Proof.
  intros h run.
  apply (Binary_frame "*" (BigRat 0) (Vector [Int 3; BigRat 0]) h (snd run) (fst run)).
  - discriminate.
  - apply surjective_pairing.
Defined.

End value_props.

(** * Properties of package [config] *)

Module config_props.

Import config.

Lemma append_slash_not_empty (s : string) : String.eqb (s +:+ "/" +:+ s) "" = false.
Proof. now destruct s. Qed.

(** X10. After [SetFormat s] the rational format is [s/s], never the
    default: it is never empty. The format is [s], or the default "%v"
    for the empty [s]; so setting the empty format restores the default
    of [Format] but leaves [RatFormat] at "/". The origin and the
    debugging flags are as before. *)
Theorem SetFormat_formats (s : string) (c : Config) :
  RatFormat (SetFormat s c) = s +:+ "/" +:+ s /\
  Format (SetFormat s c) = (if decide (s = "") then "%v" else s) /\
  (Format (SetFormat "" c) = "%v" /\ RatFormat (SetFormat "" c) = "/") /\
  Origin (SetFormat s c) = Origin c /\
  (forall k, Debug k (SetFormat s c) = Debug k c).
Proof.
  repeat split.
  - unfold RatFormat. cbn [SetFormat ratFormat]. now rewrite append_slash_not_empty.
  - unfold Format. cbn [SetFormat format].
    destruct (decide (s = "")) as [->|N]; [reflexivity|].
    destruct (String.eqb_spec s ""); [contradiction | reflexivity].
Qed.

(** X11. A debugging flag reads as it was last set, and [false] if it
    never was; setting a flag changes no other flag, and neither the
    origin nor the formats; the origin reads as it was last set, and
    setting it changes no flag. *)
Theorem flags_and_origin (k : string) (state : bool) (o : Z) (c : Config) :
  Debug k (SetDebug k state c) = state /\
  (forall k', k' <> k -> Debug k' (SetDebug k state c) = Debug k' c) /\
  (debug c = ∅ -> forall k', Debug k' c = false) /\
  Origin (SetDebug k state c) = Origin c /\
  Format (SetDebug k state c) = Format c /\
  RatFormat (SetDebug k state c) = RatFormat c /\
  Origin (SetOrigin o c) = o /\
  (forall k', Debug k' (SetOrigin o c) = Debug k' c) /\
  (forall state', SetDebug k state' (SetDebug k state c) = SetDebug k state' c).
Proof.
  repeat split.
  - unfold Debug, SetDebug. cbn. now rewrite lookup_insert_eq.
  - intros k' N. unfold Debug, SetDebug. cbn. now rewrite lookup_insert_ne.
  - intros E k'. unfold Debug. now rewrite E, lookup_empty.
  - intros state'. unfold SetDebug. cbn. now rewrite insert_insert_eq.
Qed.

End config_props.

(** * More of the parser *)

Module parse_props.

Import value value_spec parse parse_spec.
Local Open Scope go_scope.

(** ** What [errorf] drops *)

(** The loop of [errorf]: it tests the last token that [Next] took
    from the reader, and takes tokens until that one ends a line. *)
Lemma flush_run (fuel : nat) (p : Parser) :
  (length (upcoming p) < fuel)%nat ->
  exists p',
    flush fuel p = (Ok tt, p') /\
    lex.tokens (lexer p') =
      (if atLineEnd (curTok p) then lex.tokens (lexer p)
       else afterLine (lex.tokens (lexer p))) /\
    (atLineEnd (curTok p) = true -> p' = p) /\
    sameSetting p p' /\ mem p' = mem p /\ out p' = out p.
Proof.
  revert p. induction fuel as [|fuel IH]; intros p Hlen; [lia|].
  cbn [flush]. unfold bind at 1. unfold gets at 1.
  destruct (atLineEnd (curTok p)) eqn:Hend.
  { exists p. now repeat split. }
  destruct (decide (scan.Typ (peekTok p) ≠ scan.EOF)) as [E|E].
  - rewrite (bind_Ok _ _ _ _ _ (Next_buffered p E)).
    destruct (IH (set_peekTok eofToken p)) as (p' & Hrun & Htoks & _ & Hs & Hm & Ho).
    { rewrite (upcoming_buffered p E) in Hlen.
      rewrite upcoming_empty_buffer by reflexivity. cbn in *. lia. }
    exists p'. rewrite Hrun. cbn in Htoks. rewrite Hend in Htoks.
    split; [reflexivity|]. split; [exact Htoks|]. split; [discriminate|].
    split; [exact Hs|]. split; [exact Hm | exact Ho].
  - assert (E' : scan.Typ (peekTok p) = scan.EOF).
    { destruct (decide (scan.Typ (peekTok p) = scan.EOF)); [assumption | contradiction]. }
    rewrite (upcoming_empty_buffer p E') in Hlen.
    rewrite (bind_Ok _ _ _ _ _ (Next_empty p E')). unfold lex.Next.
    destruct (lex.tokens (lexer p)) as [|t r] eqn:Htoks; cbn [fst snd].
    + exists (set_curTok {| scan.Typ := scan.EOF; scan.Text := "" |} (set_lexer (lexer p) p)).
      split; [now destruct fuel|]. cbn. rewrite Htoks.
      split; [reflexivity|]. split; [discriminate|]. now repeat split.
    + set (p1 := set_curTok t
                   (set_lexer {| lex.fileName := lex.fileName (lexer p); lex.tokens := r |} p)).
      destruct (IH p1) as (p' & Hrun & Htoks' & _ & Hs & Hm & Ho).
      { rewrite upcoming_empty_buffer by exact E'. cbn in *. lia. }
      exists p'. rewrite Hrun. cbn in Htoks'. cbn [afterLine].
      split; [reflexivity|]. split; [exact Htoks'|]. split; [discriminate|].
      split; [exact Hs|]. split; [exact Hm | exact Ho].
Qed.

(** X12. [errorf] panics with the file name and the line number before
    the message, and empties the buffer whatever it holds. What it
    drops of the reader's tokens hangs on [curTok], the last token that
    [Next] took from the reader, not on a token taken from the buffer:
    nothing when [curTok] ends a line, and else the tokens up to and
    including the first one that ends a line. Variables, counters,
    configuration and memory are left as they are. *)
Theorem errorf_flushes {A} (msg : ParseMsg) (p : Parser) :
  exists p',
    errorf (A := A) msg p =
      (Panic (located (lex.fileName (lexer p)) (lineNum p) msg), p') /\
    peekTok p' = eofToken /\
    lex.tokens (lexer p') =
      (if atLineEnd (curTok p) then lex.tokens (lexer p)
       else afterLine (lex.tokens (lexer p))) /\
    (atLineEnd (curTok p) = true -> p' = set_peekTok eofToken p) /\
    sameSetting p p' /\ mem p' = mem p.
Proof.
  unfold errorf. unfold bind at 1. unfold gets at 1.
  destruct (flush_run (S (S (length (lex.tokens (lexer p))))) p)
    as (p1 & Hrun & Htoks & Hsame & Hs & Hm & Ho).
  { unfold upcoming. rewrite length_app. destruct (decide _); cbn; lia. }
  rewrite (bind_Ok _ _ _ _ _ Hrun).
  exists (set_peekTok eofToken p1).
  destruct Hs as (Hv & Hl & He & Hc & Hf).
  unfold bind, modify, gets, panic, lex.FileName. cbn. rewrite Hl, Hf.
  split; [reflexivity|]. split; [reflexivity|]. split; [exact Htoks|].
  split; [now intros ->%Hsame|]. now repeat split.
Qed.

(** An unclosed parenthesis: the newline of the first line reaches
    [Operand] through the buffer, so [curTok] is still the [1] when
    [errorf] runs, and the second line is dropped too. *)
Example errorf_drops_next_line :
  let t := demo.tok in
  let nl := t scan.Newline "nl" in
  let p0 := demo.parser [t scan.LeftParen "("; t scan.Number "1"; nl;
                         t scan.Number "2"; nl; t scan.Number "3"; nl] in
  let r1 := demo.Line 5 p0 in
  let r2 := demo.Line 5 (snd r1) in
  fst r1 = Panic (located "<stdin>" 1 (expected_right_paren "nl")) /\
  fst r2 = Ok (Some (Int 3), true).
Proof. vm_compute. repeat split. Qed.

(** ** What a failed line leaves *)

Lemma sameSetting_refl (p : Parser) : sameSetting p p.
Proof. now repeat split. Qed.

Lemma sameSetting_trans (p q r : Parser) :
  sameSetting p q -> sameSetting q r -> sameSetting p r.
Proof.
  intros (? & ? & ? & ? & ?) (? & ? & ? & ? & ?). repeat split; congruence.
Qed.

Lemma keeps_ret {A} (a : A) : keeps (ret a).
Proof. intros p r p' [= <- <-]. apply sameSetting_refl. Qed.

Lemma keeps_bind {A B} (m : P A) (k : A -> P B) :
  keeps m -> (forall a, keeps (k a)) -> keeps (bind m k).
Proof.
  intros Hm Hk p r p'. unfold bind.
  destruct (m p) as [[a| |] p1] eqn:E; intros H.
  - eapply sameSetting_trans; [eapply Hm, E | eapply Hk, H].
  - injection H as <- <-. eapply Hm, E.
  - injection H as <- <-. eapply Hm, E.
Qed.

Lemma keeps_gets {A} (f : Parser -> A) : keeps (gets f).
Proof. intros p r p' [= <- <-]. apply sameSetting_refl. Qed.

Lemma keeps_timeout {A} : keeps (timeout (A := A)).
Proof. intros p r p' [= <- <-]. apply sameSetting_refl. Qed.

Lemma keeps_Next : keeps Next.
Proof.
  intros p r p'. destruct (decide (scan.Typ (peekTok p) ≠ scan.EOF)) as [E|E].
  - rewrite (Next_buffered p E). intros [= <- <-]. now repeat split.
  - rewrite Next_empty
      by (destruct (decide (scan.Typ (peekTok p) = scan.EOF)); [assumption | contradiction]).
    intros [= <- <-]. unfold lex.Next. destruct (lex.tokens (lexer p)); now repeat split.
Qed.

Lemma keeps_Peek : keeps Peek.
Proof.
  intros p r p'. destruct (decide (scan.Typ (peekTok p) ≠ scan.EOF)) as [E|E].
  - rewrite (Peek_buffered p E). intros [= <- <-]. now repeat split.
  - rewrite Peek_empty
      by (destruct (decide (scan.Typ (peekTok p) = scan.EOF)); [assumption | contradiction]).
    intros [= <- <-]. unfold lex.Next. destruct (lex.tokens (lexer p)); now repeat split.
Qed.

Lemma keeps_errorf {A} (msg : ParseMsg) : keeps (errorf (A := A) msg).
Proof.
  intros p r p'. unfold errorf. unfold bind at 1. unfold gets at 1.
  destruct (flush_run (S (S (length (lex.tokens (lexer p))))) p)
    as (p1 & Hrun & _ & _ & Hs & _).
  { unfold upcoming. rewrite length_app. destruct (decide _); cbn; lia. }
  rewrite (bind_Ok _ _ _ _ _ Hrun).
  unfold bind, modify, gets, panic. cbn. intros [= <- <-]. exact Hs.
Qed.

Lemma keeps_inMem {A} (m : HM A) : keeps (inMem m).
Proof.
  intros p r p'. unfold inMem. destruct (m (mem p)) as [r1 h].
  intros [= <- <-]. now repeat split.
Qed.

Lemma keeps_set_out (f : Parser -> list Expr) : keeps (modify (fun p => set_out (f p) p)).
Proof. intros p r p' [= <- <-]. now repeat split. Qed.

Ltac keeps_tac IH :=
  repeat first
    [ apply keeps_ret | apply keeps_gets | apply keeps_timeout
    | apply keeps_Next | apply keeps_Peek | apply keeps_errorf | apply keeps_inMem
    | apply keeps_set_out
    | solve [apply IH]
    | apply keeps_bind; [|intros]
    | match goal with
      | |- keeps (match ?x with _ => _ end) => destruct x
      | |- keeps (if ?b then _ else _) => destruct b
      | |- keeps (let '(_, _) := ?x in _) => destruct x
      end ].

Section Keeps.

Variable SetIntString : string -> OrErr Z.
Variable SetBigIntString : string -> OrErr Z.
Variable SetBigRatString : string -> OrErr Q.
Variable UnaryOp : string -> Value -> HM Value.
Variable special : P unit.

Lemma keeps_Number (tok : scan.Token) :
  keeps (parse.Number SetIntString SetBigIntString SetBigRatString tok).
Proof. unfold parse.Number. keeps_tac keeps_Next. Qed.

Lemma keeps_numbers (fuel : nat) (typ : scan.Type_) (v : list Value) :
  keeps (parse.numbers SetIntString SetBigIntString SetBigRatString fuel typ v).
Proof.
  revert typ v. induction fuel as [|fuel IH]; intros typ v; cbn [parse.numbers].
  - keeps_tac keeps_Next.
  - keeps_tac keeps_Number; keeps_tac IH.
Qed.

Lemma keeps_NumberOrVector (tok : scan.Token) :
  keeps (parse.NumberOrVector SetIntString SetBigIntString SetBigRatString tok).
Proof.
  unfold parse.NumberOrVector. keeps_tac keeps_Number; keeps_tac keeps_numbers.
Qed.

Lemma keeps_parser (n : nat) :
  (forall tok, keeps (parse.Expr_ SetIntString SetBigIntString SetBigRatString n tok)) /\
  (forall tok, keeps (parse.Operand SetIntString SetBigIntString SetBigRatString n tok)) /\
  (forall e, keeps (parse.index SetIntString SetBigIntString SetBigRatString n e)).
Proof.
  induction n as [|n (IHE & IHO & IHI)].
  - split; [|split]; intros ?; apply keeps_timeout.
  - split; [|split].
    + intros tok. cbn [parse.Expr_]. keeps_tac IHO; keeps_tac IHE.
    + intros tok. cbn [parse.Operand].
      keeps_tac keeps_NumberOrVector; keeps_tac IHE; keeps_tac IHI.
    + intros e. cbn [parse.index]. keeps_tac IHE; keeps_tac IHI.
Qed.

Lemma keeps_assignment (tok : scan.Token) : keeps (assignment tok).
Proof. unfold assignment. keeps_tac keeps_Next. Qed.

Lemma keepsUnlessOk_keeps {A} (m : P A) : keeps m -> keepsUnlessOk m.
Proof. intros H p r p' E. destruct (H p r p' E) as [Hv Hs]. now split. Qed.

Lemma keepsUnlessOk_bind {A B} (m : P A) (k : A -> P B) :
  keeps m -> (forall a, keepsUnlessOk (k a)) -> keepsUnlessOk (bind m k).
Proof.
  intros Hm Hk p r p'. unfold bind.
  destruct (m p) as [[a| |] p1] eqn:E; intros H.
  - destruct (Hm _ _ _ E) as (Hv & Hl & He & Hc & Hf).
    destruct (Hk a _ _ _ H) as ((Hl' & He' & Hc' & Hf') & Hv').
    split; [repeat split; congruence|]. intros N. rewrite (Hv' N). exact Hv.
  - injection H as <- <-. destruct (Hm _ _ _ E) as [Hv Hs]. now split.
  - injection H as <- <-. destruct (Hm _ _ _ E) as [Hv Hs]. now split.
Qed.

(** X13. A line that fails, by a panic of the parser or of the
    evaluation, binds no variable: [Line] assigns only after the
    expression is evaluated. And no line, failed or not, changes the
    line number, the error count, the configuration or the file name:
    nothing in the parser counts lines or errors. The parser's
    [special], which is given, is taken to keep them too. *)
Theorem Line_failure_keeps (fuel : nat) (p p' : Parser) (r : Res (option Value * bool)) :
  keeps special ->
  parse.Line SetIntString SetBigIntString SetBigRatString UnaryOp special fuel p = (r, p') ->
  (lineNum p' = lineNum p /\ errorCount p' = errorCount p /\
   config p' = config p /\ lex.fileName (lexer p') = lex.fileName (lexer p)) /\
  ((forall a, r <> Ok a) -> vars p' = vars p).
Proof using Type.
  intros Hspecial. revert p r p'.
  change (keepsUnlessOk
    (parse.Line SetIntString SetBigIntString SetBigRatString UnaryOp special fuel)).
  unfold parse.Line.
  apply keepsUnlessOk_bind; [apply keeps_Next|]. intros tok.
  assert (Tail : keepsUnlessOk
    (a <- assignment tok ;;
     let '(variable, isAssignment, tok) := a in
     x <- parse.Expr_ SetIntString SetBigIntString SetBigRatString fuel tok ;;
     tok <- Next ;;
     (if negb (atLineEnd tok)
      then errorf (unexpected_quoted (scan.Text tok)) else ret tt) ;;
     dbg <- gets (fun p => config.Debug "parse" (config p)) ;;
     (if dbg : bool then modify (fun p => set_out (out p ++ [x]) p) else ret tt) ;;
     expr <- inMem (parse.Eval UnaryOp x) ;;
     modify (fun p => set_vars (<["_" := expr]> (vars p)) p) ;;
     (if negb (String.eqb variable "")
      then modify (fun p => set_vars (<[variable := expr]> (vars p)) p)
      else ret tt) ;;
     if isAssignment : bool then ret (None, true)
     else ret (Some expr, true))).
  { apply keepsUnlessOk_bind; [apply keeps_assignment|]. intros [[variable isAssignment] tok'].
    apply keepsUnlessOk_bind; [apply keeps_parser|]. intros x.
    apply keepsUnlessOk_bind; [apply keeps_Next|]. intros nl.
    apply keepsUnlessOk_bind; [destruct (negb _); [apply keeps_errorf | apply keeps_ret]|].
    intros _.
    apply keepsUnlessOk_bind; [apply keeps_gets|]. intros dbg.
    apply keepsUnlessOk_bind; [destruct dbg; [apply keeps_set_out | apply keeps_ret]|].
    intros _.
    apply keepsUnlessOk_bind; [apply keeps_inMem|]. intros expr.
    intros q r q' H. split.
    - unfold bind, modify, ret in H.
      destruct (negb (String.eqb variable "")), isAssignment;
        injection H as <- <-; now repeat split.
    - intros N. exfalso. unfold bind, modify, ret in H.
      destruct (negb (String.eqb variable "")), isAssignment;
        injection H as <- <-; now eapply N. }
  destruct (scan.Typ tok); try exact Tail; apply keepsUnlessOk_keeps.
  - apply keeps_ret.
  - apply keeps_errorf.
  - apply keeps_ret.
  - apply keeps_bind; [exact Hspecial | intros; apply keeps_ret].
Qed.

End Keeps.

(** X13 at the line [y + 1] with [y] undefined, after [x := 5]. *)
Lemma Line_failure_keeps_witness :
  let t := demo.tok in
  let p0 := demo.parser [t scan.Identifier "x"; t scan.Assign ":="; t scan.Number "5";
                         t scan.Newline "nl";
                         t scan.Identifier "y"; t scan.Operator "+"; t scan.Number "1";
                         t scan.Newline "nl"] in
  let p1 := snd (demo.Line 5 p0) in
  let r2 := demo.Line 5 p1 in
  fst r2 = Panic (located "<stdin>" 1 (undefined "y")) /\
  vars (snd r2) = vars p1 /\ lineNum (snd r2) = 1%Z.
Proof.
  intros t p0 p1 r2.
  destruct (Line_failure_keeps demo.SetIntString demo.SetBigIntString demo.SetBigRatString
              demo.UnaryOp demo.special 5 p1 (snd r2) (fst r2)) as ((Hl & _) & Hv).
  - intros p r p' [= <- <-]. now repeat split.
  - unfold r2, demo.Line. apply surjective_pairing.
  - assert (E : fst r2 = Panic (located "<stdin>" 1 (undefined "y")))
      by (vm_compute; reflexivity).
    split; [exact E|]. split.
    + apply Hv. rewrite E. discriminate.
    + rewrite Hl. vm_compute. reflexivity.
Defined.

(** ** Expressions associate to the right *)

Section Chains.

Variable SetIntString : string -> OrErr Z.
Variable SetBigIntString : string -> OrErr Z.
Variable SetBigRatString : string -> OrErr Q.

(** [Operand] at a defined variable that no bracket follows: the
    variable's value; the token after it is left in the buffer. *)
Lemma Operand_variable (f : nat) (x : string) (v : Value) (p : Parser)
    (hd : scan.Token) (tl : list scan.Token) :
  scan.Typ (peekTok p) = scan.EOF ->
  lex.tokens (lexer p) = hd :: tl ->
  scan.Typ hd <> scan.LeftBrack ->
  vars p !! x = Some v ->
  parse.Operand SetIntString SetBigIntString SetBigRatString (S (S f))
    {| scan.Typ := scan.Identifier; scan.Text := x |} p =
    (Ok (Val v),
     set_peekTok hd
       (set_lexer {| lex.fileName := lex.fileName (lexer p); lex.tokens := tl |} p)).
Proof using Type.
  intros Hbuf Htoks Hhd Hx. cbn [parse.Operand scan.Typ scan.Text].
  unfold bind at 1. unfold gets at 1. rewrite Hx.
  cbn [parse.index]. unfold bind at 1.
  rewrite (Peek_empty p Hbuf). unfold lex.Next. rewrite Htoks. cbn [fst snd].
  destruct (decide (scan.Typ hd = scan.LeftBrack)); [contradiction | reflexivity].
Qed.

(** A sequence of variables and operators, [x1 op1 x2 op2 ... xn], is
    read as [x1 op1 (x2 op2 (... xn))]; the token that closes it is
    left in the buffer. *)
Lemma Expr_chain (rest : list (string * string * Value)) :
  forall (x : string) (v : Value) (p : Parser) (t : scan.Token)
         (post : list scan.Token) (fuel : nat),
  scan.Typ (peekTok p) = scan.EOF ->
  lex.tokens (lexer p) = chain rest ++ t :: post ->
  closes (scan.Typ t) = true ->
  vars p !! x = Some v ->
  Forall (fun '(_, y, w) => vars p !! y = Some w) rest ->
  (length rest + 3 <= fuel)%nat ->
  exists p',
    parse.Expr_ SetIntString SetBigIntString SetBigRatString fuel
      {| scan.Typ := scan.Identifier; scan.Text := x |} p =
      (Ok (rightAssoc (Val v) (map (fun '(op, _, w) => (op, Val w)) rest)), p') /\
    peekTok p' = t /\ lex.tokens (lexer p') = post /\
    vars p' = vars p /\ mem p' = mem p.
Proof using Type.
  induction rest as [|[[op y] w] rest IH]; intros x v p t post fuel Hbuf Htoks Ht Hx Hall Hfuel.
  - destruct fuel as [|[|[|f]]]; try (cbn in Hfuel; lia).
    cbn [chain flat_map app] in Htoks.
    assert (Hnb : scan.Typ t <> scan.LeftBrack) by (intros E; rewrite E in Ht; discriminate).
    assert (Hne : scan.Typ t ≠ scan.EOF) by (intros E; rewrite E in Ht; discriminate).
    rewrite Expr_step.
    rewrite (bind_Ok _ _ _ _ _ (Operand_variable f x v p t post Hbuf Htoks Hnb Hx)).
    set (p1 := set_peekTok t _).
    rewrite (bind_Ok _ _ _ _ _ (Peek_buffered p1 Hne)).
    change (peekTok p1) with t.
    exists p1. split; [|now repeat split].
    destruct (scan.Typ t); try discriminate Ht; reflexivity.
  - destruct fuel as [|[|[|f]]]; try (cbn in Hfuel; lia).
    cbn [chain flat_map app] in Htoks. fold (chain rest) in Htoks.
    inversion Hall as [|? ? Hy Hall']; subst.
    rewrite Expr_step.
    rewrite (bind_Ok _ _ _ _ _
      (Operand_variable f x v p {| scan.Typ := scan.Operator; scan.Text := op |}
         ({| scan.Typ := scan.Identifier; scan.Text := y |} :: chain rest ++ t :: post)
         Hbuf Htoks ltac:(discriminate) Hx)).
    set (p1 := set_peekTok _ _).
    rewrite (bind_Ok _ _ _ _ _ (Peek_buffered p1 ltac:(discriminate))).
    change (scan.Typ (peekTok p1)) with scan.Operator. cbv iota.
    rewrite (bind_Ok _ _ _ _ _ (Next_buffered p1 ltac:(discriminate))).
    rewrite (bind_Ok _ _ _ _ _ (Next_empty (set_peekTok eofToken p1) eq_refl)).
    set (p3 := set_curTok _ _).
    change (fst (lex.Next (lexer (set_peekTok eofToken p1))))
      with {| scan.Typ := scan.Identifier; scan.Text := y |}.
    destruct (IH y w p3 t post (S (S f))) as (p' & Hrun & Hpk & Hpost & Hv & Hm);
      try assumption; try reflexivity.
    { cbn in Hfuel |- *. lia. }
    rewrite (bind_Ok _ _ _ _ _ Hrun).
    exists p'. split; [reflexivity|]. now repeat split.
Qed.

End Chains.

(** ** The buffer does not show *)

(** X15. Seen from outside, the parser reads one sequence of tokens,
    the buffered token and then the reader's: [Peek] returns the first
    of them and leaves the sequence as it is, so peeking again gives
    the same; [Next] returns the first and leaves the rest, whether a
    [Peek] came before it or not. Only [curTok] tells the two apart:
    a token that [Peek] read and [Next] took from the buffer is never
    recorded there. *)
Theorem buffer_transparent (p : Parser) (t : scan.Token) (rest : list scan.Token) :
  upcoming p = t :: rest -> scan.Typ t ≠ scan.EOF ->
  (exists p1, Peek p = (Ok t, p1) /\ upcoming p1 = t :: rest /\
              Peek p1 = (Ok t, p1) /\ curTok p1 = curTok p) /\
  (exists p2, Next p = (Ok t, p2) /\ upcoming p2 = rest) /\
  (exists p3, (Peek ;; Next) p = (Ok t, p3) /\ upcoming p3 = rest /\
              curTok p3 = curTok p).
Proof.
  intros Hup Ht.
  destruct (decide (scan.Typ (peekTok p) ≠ scan.EOF)) as [E|E].
  - rewrite (upcoming_buffered p E) in Hup. injection Hup as Hpk Htoks.
    assert (Hn : Next p = (Ok t, set_peekTok eofToken p))
      by now rewrite (Next_buffered p E), Hpk.
    assert (Hp : Peek p = (Ok t, p)) by now rewrite (Peek_buffered p E), Hpk.
    split; [|split].
    + exists p. rewrite (upcoming_buffered p E), Hpk, Htoks. now repeat split.
    + exists (set_peekTok eofToken p). split; [exact Hn|].
      now rewrite upcoming_empty_buffer by reflexivity.
    + exists (set_peekTok eofToken p). rewrite (bind_Ok _ _ _ _ _ Hp).
      split; [exact Hn|]. split; [|reflexivity].
      now rewrite upcoming_empty_buffer by reflexivity.
  - assert (E' : scan.Typ (peekTok p) = scan.EOF).
    { destruct (decide (scan.Typ (peekTok p) = scan.EOF)); [assumption | contradiction]. }
    rewrite (upcoming_empty_buffer p E') in Hup.
    set (l := {| lex.fileName := lex.fileName (lexer p); lex.tokens := rest |}).
    assert (Hp : Peek p = (Ok t, set_peekTok t (set_lexer l p))).
    { rewrite (Peek_empty p E'). unfold lex.Next. now rewrite Hup. }
    assert (Hn : Next p = (Ok t, set_curTok t (set_lexer l p))).
    { rewrite (Next_empty p E'). unfold lex.Next. now rewrite Hup. }
    split; [|split].
    + exists (set_peekTok t (set_lexer l p)). split; [exact Hp|].
      split; [now rewrite upcoming_buffered by exact Ht|].
      split; [now rewrite Peek_buffered by exact Ht | reflexivity].
    + exists (set_curTok t (set_lexer l p)). split; [exact Hn|].
      now rewrite upcoming_empty_buffer by exact E'.
    + exists (set_peekTok eofToken (set_peekTok t (set_lexer l p))).
      rewrite (bind_Ok _ _ _ _ _ Hp).
      split; [now rewrite Next_buffered by exact Ht|].
      split; [|reflexivity]. now rewrite upcoming_empty_buffer by reflexivity.
Qed.

(** X15 on a new parser over the tokens [7 +]. *)
Lemma buffer_transparent_witness :
  let seven := demo.tok scan.Number "7" in
  let plus := demo.tok scan.Operator "+" in
  let p := demo.parser [seven; plus] in
  (exists p1, Peek p = (Ok seven, p1) /\ upcoming p1 = [seven; plus] /\
              Peek p1 = (Ok seven, p1) /\ curTok p1 = curTok p) /\
  (exists p2, Next p = (Ok seven, p2) /\ upcoming p2 = [plus]) /\
  (exists p3, (Peek ;; Next) p = (Ok seven, p3) /\ upcoming p3 = [plus] /\
              curTok p3 = curTok p).
Proof.
  intros seven plus p.
  apply (buffer_transparent p seven [plus]); [reflexivity | discriminate].
Defined.

(** ** Indexing nests to the left *)

Section Indexing.

Variable SetIntString : string -> OrErr Z.
Variable SetBigIntString : string -> OrErr Z.
Variable SetBigRatString : string -> OrErr Q.

(** An expression that is one variable, before a token that closes
    it. *)
Lemma Expr_variable (f : nat) (x : string) (v : Value) (p : Parser)
    (t : scan.Token) (post : list scan.Token) :
  scan.Typ (peekTok p) = scan.EOF ->
  lex.tokens (lexer p) = t :: post ->
  closes (scan.Typ t) = true ->
  vars p !! x = Some v ->
  parse.Expr_ SetIntString SetBigIntString SetBigRatString (S (S (S f)))
    {| scan.Typ := scan.Identifier; scan.Text := x |} p =
    (Ok (Val v),
     set_peekTok t
       (set_lexer {| lex.fileName := lex.fileName (lexer p); lex.tokens := post |} p)).
Proof using Type.
  intros Hbuf Htoks Ht Hx.
  assert (Hnb : scan.Typ t <> scan.LeftBrack) by (intros E; rewrite E in Ht; discriminate).
  assert (Hne : scan.Typ t ≠ scan.EOF) by (intros E; rewrite E in Ht; discriminate).
  rewrite Expr_step.
  rewrite (bind_Ok _ _ _ _ _
    (Operand_variable SetIntString SetBigIntString SetBigRatString f x v p t post
       Hbuf Htoks Hnb Hx)).
  set (p1 := set_peekTok t _).
  rewrite (bind_Ok _ _ _ _ _ (Peek_buffered p1 Hne)).
  change (peekTok p1) with t.
  destruct (scan.Typ t); try discriminate Ht; reflexivity.
Qed.

Lemma Peek_reads (p : Parser) (hd : scan.Token) (tl : list scan.Token) :
  scan.Typ (peekTok p) = scan.EOF ->
  lex.tokens (lexer p) = hd :: tl ->
  Peek p = (Ok hd, set_peekTok hd
    (set_lexer {| lex.fileName := lex.fileName (lexer p); lex.tokens := tl |} p)).
Proof. intros E H. rewrite (Peek_empty p E). unfold lex.Next. now rewrite H. Qed.

Lemma Next_reads (p : Parser) (hd : scan.Token) (tl : list scan.Token) :
  scan.Typ (peekTok p) = scan.EOF ->
  lex.tokens (lexer p) = hd :: tl ->
  Next p = (Ok hd, set_curTok hd
    (set_lexer {| lex.fileName := lex.fileName (lexer p); lex.tokens := tl |} p)).
Proof. intros E H. rewrite (Next_empty p E). unfold lex.Next. now rewrite H. Qed.

Lemma index_step (f : nat) (e : Expr) :
  parse.index SetIntString SetBigIntString SetBigRatString (S f) e =
    (t <- Peek ;;
     if decide (scan.Typ t = scan.LeftBrack) then
       Next ;;
       t <- Next ;;
       index_ <- parse.Expr_ SetIntString SetBigIntString SetBigRatString f t ;;
       tok <- Next ;;
       (if decide (scan.Typ tok ≠ scan.RightBrack)
        then errorf (expected_right_bracket (scan.Text tok)) else ret tt) ;;
       parse.index SetIntString SetBigIntString SetBigRatString f (Binary "[]" e index_)
     else ret e).
Proof using Type. reflexivity. Qed.

Lemma index_run (ixs : list (string * Value)) :
  forall (e : Expr) (p : Parser) (t : scan.Token) (post : list scan.Token) (fuel : nat),
  scan.Typ (peekTok p) = scan.EOF ->
  lex.tokens (lexer p) = brackets ixs ++ t :: post ->
  closes (scan.Typ t) = true ->
  Forall (fun '(y, w) => vars p !! y = Some w) ixs ->
  (length ixs + 4 <= fuel)%nat ->
  exists p',
    parse.index SetIntString SetBigIntString SetBigRatString fuel e p =
      (Ok (fold_left (fun e '(_, w) => Binary "[]" e (Val w)) ixs e), p') /\
    peekTok p' = t /\ lex.tokens (lexer p') = post /\
    vars p' = vars p /\ mem p' = mem p.
Proof using Type.
  induction ixs as [|[y w] ixs IH]; intros e p t post fuel Hbuf Htoks Ht Hall Hfuel.
  - destruct fuel as [|f]; [cbn in Hfuel; lia|].
    cbn [brackets flat_map app] in Htoks.
    rewrite index_step. cbn [fold_left].
    rewrite (bind_Ok _ _ _ _ _ (Peek_reads p t post Hbuf Htoks)).
    destruct (decide (scan.Typ t = scan.LeftBrack)) as [E|_].
    { rewrite E in Ht. discriminate. }
    eexists. split; [reflexivity|]. now repeat split.
  - destruct fuel as [|[|[|[|f]]]]; try (cbn in Hfuel; lia).
    cbn [brackets flat_map app] in Htoks. fold (brackets ixs) in Htoks.
    inversion Hall as [|? ? Hy Hall']; subst.
    rewrite index_step. cbn [fold_left].
    rewrite (bind_Ok _ _ _ _ _ (Peek_reads p _ _ Hbuf Htoks)).
    cbn [scan.Typ].
    destruct (decide (scan.LeftBrack = scan.LeftBrack)) as [_|N]; [|contradiction].
    set (p1 := set_peekTok _ _).
    rewrite (bind_Ok _ _ _ _ _ (Next_buffered p1 ltac:(discriminate))).
    rewrite (bind_Ok _ _ _ _ _
      (Next_reads (set_peekTok eofToken p1)
         {| scan.Typ := scan.Identifier; scan.Text := y |}
         ({| scan.Typ := scan.RightBrack; scan.Text := "]" |} :: brackets ixs ++ t :: post)
         eq_refl eq_refl)).
    set (p3 := set_curTok _ _).
    rewrite (bind_Ok _ _ _ _ _
      (Expr_variable f y w p3 {| scan.Typ := scan.RightBrack; scan.Text := "]" |}
         (brackets ixs ++ t :: post) eq_refl eq_refl eq_refl Hy)).
    set (p4 := set_peekTok _ _).
    rewrite (bind_Ok _ _ _ _ _ (Next_buffered p4 ltac:(discriminate))).
    change (scan.Typ (peekTok p4)) with scan.RightBrack.
    destruct (decide (scan.RightBrack ≠ scan.RightBrack)) as [N|_]; [contradiction|].
    rewrite (bind_Ok (ret tt) _ _ tt (set_peekTok eofToken p4)) by reflexivity.
    destruct (IH (Binary "[]" e (Val w)) (set_peekTok eofToken p4) t post (S (S (S f))))
      as (p' & Hrun & Hpk & Hpost & Hv & Hm); try assumption; try reflexivity.
    { cbn in Hfuel |- *. lia. }
    exists p'. split; [exact Hrun|]. now repeat split.
Qed.

(** X16. A variable followed by indexings, [x[y1][y2]...[yn]] with
    variables as indexes, is read as the operator "[]" nested to the
    left, [((x [] y1) [] y2) ... [] yn]; the token that follows the
    last bracket is left in the buffer. *)
Theorem Operand_index_left (ixs : list (string * Value)) (x : string) (v : Value)
    (p : Parser) (t : scan.Token) (post : list scan.Token) (fuel : nat) :
  scan.Typ (peekTok p) = scan.EOF ->
  lex.tokens (lexer p) = brackets ixs ++ t :: post ->
  closes (scan.Typ t) = true ->
  vars p !! x = Some v ->
  Forall (fun '(y, w) => vars p !! y = Some w) ixs ->
  (length ixs + 5 <= fuel)%nat ->
  exists p',
    parse.Operand SetIntString SetBigIntString SetBigRatString fuel
      {| scan.Typ := scan.Identifier; scan.Text := x |} p =
      (Ok (fold_left (fun e '(_, w) => Binary "[]" e (Val w)) ixs (Val v)), p') /\
    peekTok p' = t /\ lex.tokens (lexer p') = post /\
    vars p' = vars p /\ mem p' = mem p.
Proof using Type.
  intros Hbuf Htoks Ht Hx Hall Hfuel.
  destruct fuel as [|f]; [cbn in Hfuel; lia|].
  change (parse.Operand SetIntString SetBigIntString SetBigRatString (S f)
            {| scan.Typ := scan.Identifier; scan.Text := x |} p)
    with ((vs <- gets vars ;;
           match vs !! x with
           | None => errorf (undefined x)
           | Some v => parse.index SetIntString SetBigIntString SetBigRatString f (Val v)
           end) p).
  unfold bind at 1. unfold gets at 1. rewrite Hx.
  apply index_run; try assumption. lia.
Qed.

End Indexing.

(** X16 at [m[i][j]] before a newline. *)
Lemma Operand_index_left_witness :
  let t := demo.tok in
  let p := set_vars (<["m" := Int 6]> (<["i" := Int 1]> (<["j" := Int 2]> ∅)))
             (demo.parser [t scan.LeftBrack "["; t scan.Identifier "i"; t scan.RightBrack "]";
                           t scan.LeftBrack "["; t scan.Identifier "j"; t scan.RightBrack "]";
                           t scan.Newline "nl"]) in
  exists p',
    parse.Operand demo.SetIntString demo.SetBigIntString demo.SetBigRatString 7
      (t scan.Identifier "m") p =
      (Ok (Binary "[]" (Binary "[]" (Val (Int 6)) (Val (Int 1))) (Val (Int 2))), p') /\
    peekTok p' = t scan.Newline "nl" /\ lex.tokens (lexer p') = [] /\
    vars p' = vars p /\ mem p' = mem p.
Proof.
  intros t p.
  apply (Operand_index_left demo.SetIntString demo.SetBigIntString demo.SetBigRatString
           [("i", Int 1); ("j", Int 2)] "m" (Int 6) p (t scan.Newline "nl") [] 7).
  - reflexivity.
  - reflexivity.
  - reflexivity.
  - vm_compute. reflexivity.
  - repeat constructor.
  - cbn. lia.
Defined.

(** ** Printing expressions *)

(** X19. [String] writes an expression without parentheses, so it does
    not show how it is grouped: [(a op1 b) op2 c] and [a op1 (b op2 c)]
    print alike, and so do [(op1 a) op2 b] and [op1 (a op2 b)]. [Tree]
    shows the grouping: it tells the first two apart when [a] is a
    value. *)
Theorem String_hides_grouping (valueString : Value -> string) (op1 op2 : string)
    (a b c : Expr) :
  Expr_String valueString (Binary op2 (Binary op1 a b) c) =
    Expr_String valueString (Binary op1 a (Binary op2 b c)) /\
  Expr_String valueString (Binary op2 (Unary op1 a) b) =
    Expr_String valueString (Unary op1 (Binary op2 a b)) /\
  (forall v, a = Val v ->
     Tree valueString (Binary op2 (Binary op1 a b) c) <>
       Tree valueString (Binary op1 a (Binary op2 b c))).
Proof.
  split; [|split].
  - cbn [Expr_String]. now rewrite !value_props.append_assoc.
  - cbn [Expr_String]. now rewrite !value_props.append_assoc.
  - intros v ->. cbn [Tree].
    change ("(" +:+ ?x) with (String "(" x).
    destruct v; intros H; discriminate H.
Qed.

(** ** How expressions are grouped *)

Section Grouping.

Variable SetIntString : string -> OrErr Z.
Variable SetBigIntString : string -> OrErr Z.
Variable SetBigRatString : string -> OrErr Q.

Lemma Operand_operator (f : nat) (op : string) :
  parse.Operand SetIntString SetBigIntString SetBigRatString (S f)
    {| scan.Typ := scan.Operator; scan.Text := op |} =
    (t <- Next ;;
     r <- parse.Expr_ SetIntString SetBigIntString SetBigRatString f t ;;
     ret (Unary op r)).
Proof using Type. reflexivity. Qed.

Lemma Operand_paren (f : nat) (text : string) :
  parse.Operand SetIntString SetBigIntString SetBigRatString (S f)
    {| scan.Typ := scan.LeftParen; scan.Text := text |} =
    (t <- Next ;;
     expr <- parse.Expr_ SetIntString SetBigIntString SetBigRatString f t ;;
     tok <- Next ;;
     (if decide (scan.Typ tok ≠ scan.RightParen)
      then errorf (expected_right_paren (scan.Text tok)) else ret tt) ;;
     parse.index SetIntString SetBigIntString SetBigRatString f expr).
Proof using Type. reflexivity. Qed.

(** X14. There is no precedence among the operators. A sequence of
    variables and operators, [x1 op1 x2 op2 ... xn], is read as
    [x1 op1 (x2 op2 (... xn))], every operator taking all that follows
    as its right operand; a unary operator before it takes the whole
    sequence as its operand, [op0 (x1 op1 (... xn))]; and a
    parenthesis closes a sequence: [( x1 op1 ... xn )] is read as one
    operand, and the right parenthesis is taken. The token that ends
    the expression is left in the buffer. *)
Theorem Expr_right_assoc (rest : list (string * string * Value)) (x : string) (v : Value)
    (p : Parser) (t : scan.Token) (post : list scan.Token) (fuel : nat) :
  scan.Typ (peekTok p) = scan.EOF ->
  vars p !! x = Some v ->
  Forall (fun '(_, y, w) => vars p !! y = Some w) rest ->
  (length rest + 5 <= fuel)%nat ->
  let tree := rightAssoc (Val v) (map (fun '(op, _, w) => (op, Val w)) rest) in
  let var := {| scan.Typ := scan.Identifier; scan.Text := x |} in
  (closes (scan.Typ t) = true ->
   lex.tokens (lexer p) = chain rest ++ t :: post ->
   exists p',
     parse.Expr_ SetIntString SetBigIntString SetBigRatString fuel var p = (Ok tree, p') /\
     peekTok p' = t /\ lex.tokens (lexer p') = post /\
     vars p' = vars p /\ mem p' = mem p) /\
  (closes (scan.Typ t) = true ->
   lex.tokens (lexer p) = var :: chain rest ++ t :: post ->
   forall op0, exists p',
     parse.Expr_ SetIntString SetBigIntString SetBigRatString fuel
       {| scan.Typ := scan.Operator; scan.Text := op0 |} p = (Ok (Unary op0 tree), p') /\
     peekTok p' = t /\ lex.tokens (lexer p') = post /\
     vars p' = vars p /\ mem p' = mem p) /\
  (scan.Typ t <> scan.LeftBrack ->
   lex.tokens (lexer p) =
     var :: chain rest ++ {| scan.Typ := scan.RightParen; scan.Text := ")" |} :: t :: post ->
   exists p',
     parse.Operand SetIntString SetBigIntString SetBigRatString fuel
       {| scan.Typ := scan.LeftParen; scan.Text := "(" |} p = (Ok tree, p') /\
     peekTok p' = t /\ lex.tokens (lexer p') = post /\
     vars p' = vars p /\ mem p' = mem p).
Proof using Type.
  intros Hbuf Hx Hall Hfuel tree var.
  destruct fuel as [|[|f]]; try (cbn in Hfuel; lia).
  split; [|split].
  - intros Ht Htoks. apply Expr_chain; try assumption. lia.
  - intros Ht Htoks op0.
    assert (Hne : scan.Typ t ≠ scan.EOF) by (intros E; rewrite E in Ht; discriminate).
    set (p1 := set_curTok var
                 (set_lexer {| lex.fileName := lex.fileName (lexer p);
                               lex.tokens := chain rest ++ t :: post |} p)).
    destruct (Expr_chain SetIntString SetBigIntString SetBigRatString
                rest x v p1 t post f) as (p2 & Hrun & Hpk & Hpost & Hv & Hm);
      try assumption; try reflexivity.
    { cbn in Hfuel. lia. }
    assert (HO : parse.Operand SetIntString SetBigIntString SetBigRatString (S f)
                   {| scan.Typ := scan.Operator; scan.Text := op0 |} p =
                 (Ok (Unary op0 tree), p2)).
    { rewrite Operand_operator.
      rewrite (bind_Ok _ _ _ _ _ (Next_reads p var _ Hbuf Htoks)).
      fold p1. now rewrite (bind_Ok _ _ _ _ _ Hrun). }
    rewrite Expr_step, (bind_Ok _ _ _ _ _ HO).
    rewrite (bind_Ok _ _ _ _ _ (Peek_buffered p2 ltac:(now rewrite Hpk))).
    rewrite Hpk. exists p2. split; [|now repeat split].
    destruct (scan.Typ t); try discriminate Ht; reflexivity.
  - intros Ht Htoks.
    rewrite Operand_paren.
    rewrite (bind_Ok _ _ _ _ _ (Next_reads p var _ Hbuf Htoks)).
    set (p1 := set_curTok var _).
    destruct (Expr_chain SetIntString SetBigIntString SetBigRatString
                rest x v p1 {| scan.Typ := scan.RightParen; scan.Text := ")" |}
                (t :: post) (S f)) as (p2 & Hrun & Hpk & Hpost & Hv & Hm);
      try assumption; try reflexivity.
    { cbn in Hfuel |- *. lia. }
    rewrite (bind_Ok _ _ _ _ _ Hrun).
    rewrite (bind_Ok _ _ _ _ _ (Next_buffered p2 ltac:(now rewrite Hpk))).
    rewrite Hpk. cbn [scan.Typ].
    destruct (decide (scan.RightParen ≠ scan.RightParen)) as [N|_]; [contradiction|].
    rewrite (bind_Ok (ret tt) _ _ tt (set_peekTok eofToken p2)) by reflexivity.
    rewrite index_step.
    rewrite (bind_Ok _ _ _ _ _ (Peek_reads (set_peekTok eofToken p2) t post eq_refl Hpost)).
    destruct (decide (scan.Typ t = scan.LeftBrack)) as [E|_]; [contradiction|].
    eexists. split; [reflexivity|]. now repeat split.
Qed.

End Grouping.

(** X14 at [a - b - c], read as [a - (b - c)]; at [- a + b], read as
    [-(a + b)]; and at [(a - b) - c]. *)
Lemma Expr_right_assoc_witness :
  let t := demo.tok in
  let a := t scan.Identifier "a" in
  let b := t scan.Identifier "b" in
  let c := t scan.Identifier "c" in
  let minus := t scan.Operator "-" in
  let nl := t scan.Newline "nl" in
  let p ts := set_vars (<["a" := Int 6]> (<["b" := Int 3]> (<["c" := Int 2]> ∅)))
                (demo.parser ts) in
  let Expr_ := parse.Expr_ demo.SetIntString demo.SetBigIntString demo.SetBigRatString 7 in
  (exists p',
     Expr_ a (p [minus; b; minus; c; nl]) =
       (Ok (Binary "-" (Val (Int 6)) (Binary "-" (Val (Int 3)) (Val (Int 2)))), p') /\
     peekTok p' = nl /\ lex.tokens (lexer p') = [] /\
     vars p' = vars (p [minus; b; minus; c; nl]) /\
     mem p' = mem (p [minus; b; minus; c; nl])) /\
  (exists p',
     Expr_ minus (p [a; t scan.Operator "+"; b; nl]) =
       (Ok (Unary "-" (Binary "+" (Val (Int 6)) (Val (Int 3)))), p') /\
     peekTok p' = nl /\ lex.tokens (lexer p') = [] /\
     vars p' = vars (p [a; t scan.Operator "+"; b; nl]) /\
     mem p' = mem (p [a; t scan.Operator "+"; b; nl])) /\
  fst (Expr_ (t scan.LeftParen "(")
         (p [a; minus; b; t scan.RightParen ")"; minus; c; nl])) =
    Ok (Binary "-" (Binary "-" (Val (Int 6)) (Val (Int 3))) (Val (Int 2))).
Proof.
  intros t a b c minus nl p Expr_. split; [|split].
  - apply (Expr_right_assoc demo.SetIntString demo.SetBigIntString demo.SetBigRatString
             [("-", "b", Int 3); ("-", "c", Int 2)] "a" (Int 6)
             (p [minus; b; minus; c; nl]) nl [] 7);
      first [reflexivity | vm_compute; reflexivity | repeat constructor | cbn; lia].
  - apply (Expr_right_assoc demo.SetIntString demo.SetBigIntString demo.SetBigRatString
             [("+", "b", Int 3)] "a" (Int 6)
             (p [a; t scan.Operator "+"; b; nl]) nl [] 7);
      first [reflexivity | vm_compute; reflexivity | repeat constructor | cbn; lia].
  - vm_compute. reflexivity.
Defined.

End parse_props.
